(** * Smart Traffic Flow Optimizer: the graph model and its two searches

    A shallow embedding of [graph.py] (classes [Edge] and [Graph]) and of
    the sample data of [sample_data.py].

    - Python floats are IEEE binary64 numbers: Rocq's primitive [float].
    - A Python [dict] keeps its keys in insertion order: an association
      list whose update keeps the position of an existing key.
    - [self] is threaded explicitly: a method is a function from the graph
      before the call to an outcome and the graph after the call.  A raised
      exception keeps the mutations made before it, as in Python.
    - [heapq] is modelled by CPython's own list algorithms
      ([_siftdown], [_siftup]).
    - [while] loops take a fuel; running out of it is the outcome
      [OutOfFuel], never a result. *)

From Stdlib Require Import ZArith List String Ascii Bool Lia Floats Permutation Arith.
From Stdlib Require OrderedTypeEx.
Import ListNotations.

Set Warnings "-inexact-float".

Open Scope string_scope.
Open Scope list_scope.

(** ** Python values and exceptions *)

(** The numbers a caller passes: Python [int]s or [float]s. *)
Inductive pynum : Type :=
| PyInt (z : Z)
| PyFloat (f : float).

Inductive exn : Type :=
| ValueError (msg : string)
| KeyError (key : string)
| OverflowError (msg : string)
| IndexError (msg : string).

Inductive res (A : Type) : Type :=
| Ok (a : A)
| Raise (e : exn)
| OutOfFuel.

Arguments Ok {A} a.
Arguments Raise {A} e.
Arguments OutOfFuel {A}.

Definition res_bind {A B : Type} (r : res A) (k : A -> res B) : res B :=
  match r with
  | Ok a => k a
  | Raise e => Raise e
  | OutOfFuel => OutOfFuel
  end.

Declare Scope res_scope.
Delimit Scope res_scope with res.
Notation "x <-- r ;;; k" := (res_bind r (fun x => k))
  (at level 61, r at next level, right associativity) : res_scope.

(** [float(z)] of a Python [int]: the nearest binary64 number, ties to
    even; [OverflowError] when that is out of range. *)
Definition float_of_Z (z : Z) : float :=
  SF2Prim (binary_normalize prec emax z 0 false).

Definition py_float (x : pynum) : res float :=
  match x with
  | PyFloat f => Ok f
  | PyInt z =>
      let f := float_of_Z z in
      if is_infinity f
      then Raise (OverflowError "int too large to convert to float")
      else Ok f
  end.

(** [float('inf')] and [0.0]. *)
Definition inf : float := infinity.
Definition zero : float := PrimFloat.zero.

(** ** Dictionaries, in insertion order *)

Definition dict (V : Type) : Type := list (string * V).

Section Dict.
Context {V : Type}.

(** [d.get(k)] *)
Fixpoint dict_get (d : dict V) (k : string) : option V :=
  match d with
  | [] => None
  | (k', v) :: d' => if String.eqb k' k then Some v else dict_get d' k
  end.

(** [k in d] *)
Definition dict_mem (d : dict V) (k : string) : bool :=
  match dict_get d k with
  | Some _ => true
  | None => false
  end.

(** [d[k] = v]: an existing key keeps its place, a new key goes last. *)
Fixpoint dict_set (d : dict V) (k : string) (v : V) : dict V :=
  match d with
  | [] => [(k, v)]
  | (k', v') :: d' =>
      if String.eqb k' k then (k', v) :: d' else (k', v') :: dict_set d' k v
  end.

(** [d[k]] *)
Definition dict_item (d : dict V) (k : string) : res V :=
  match dict_get d k with
  | Some v => Ok v
  | None => Raise (KeyError k)
  end.

Definition dict_keys (d : dict V) : list string := map fst d.
End Dict.

(** [{k: v for k in d}] *)
Definition dict_const {V W : Type} (d : dict V) (w : W) : dict W :=
  map (fun kv => (fst kv, w)) d.

(** ** class Edge *)

Record Edge : Type := mkEdge {
  to_node : string;
  distance : float;
  traffic_factor : float
}.

(** [Edge.__init__] *)
Definition Edge_init (to : string) (d t : pynum) : res Edge :=
  (fd <-- py_float d ;;;
   ft <-- py_float t ;;;
   Ok (mkEdge to fd ft))%res.

Definition effective_weight (e : Edge) : float :=
  (distance e * traffic_factor e)%float.

Definition to_tuple (e : Edge) : string * float * float :=
  (to_node e, distance e, traffic_factor e).

(** ** class Graph *)

Record Graph : Type := mkGraph {
  adj : dict (list Edge);
  coords : dict (float * float)
}.

(** [Graph.__init__] *)
Definition Graph_init : Graph := mkGraph [] [].

(** A method: the graph before the call to the outcome and the graph
    after it. *)
Definition M (A : Type) : Type := Graph -> res A * Graph.

Definition ret {A : Type} (a : A) : M A := fun g => (Ok a, g).

Definition bind {A B : Type} (m : M A) (k : A -> M B) : M B :=
  fun g =>
    match m g with
    | (Ok a, g') => k a g'
    | (Raise e, g') => (Raise e, g')
    | (OutOfFuel, g') => (OutOfFuel, g')
    end.

Definition lift {A : Type} (r : res A) : M A := fun g => (r, g).
Definition get_adj : M (dict (list Edge)) := fun g => (Ok (adj g), g).
Definition get_coords : M (dict (float * float)) := fun g => (Ok (coords g), g).
Definition put_adj (a : dict (list Edge)) : M unit :=
  fun g => (Ok tt, mkGraph a (coords g)).
Definition put_coords (c : dict (float * float)) : M unit :=
  fun g => (Ok tt, mkGraph (adj g) c).

Declare Scope meth_scope.
Delimit Scope meth_scope with meth.
Notation "x <- m ;; k" := (bind m (fun x => k))
  (at level 61, m at next level, right associativity) : meth_scope.
Notation "m ;; k" := (bind m (fun _ => k))
  (at level 61, right associativity) : meth_scope.

Open Scope meth_scope.

Definition add_node (node : string) (coord : option (pynum * pynum)) : M unit :=
  a <- get_adj ;;
  (if dict_mem a node then ret tt else put_adj (dict_set a node [])) ;;
  match coord with
  | None => ret tt
  | Some (c0, c1) =>
      x <- lift (py_float c0) ;;
      y <- lift (py_float c1) ;;
      c <- get_coords ;;
      put_coords (dict_set c node (x, y))
  end.

(** [self.adj[u].append(Edge(v, distance, traffic_factor))]: the list is
    looked up, the edge is built, and the list object grows at its end. *)
Definition append_edge (u v : string) (d t : pynum) : M unit :=
  a <- get_adj ;;
  es <- lift (dict_item a u) ;;
  e <- lift (Edge_init v d t) ;;
  put_adj (dict_set a u (es ++ [e])).

Definition add_edge (u v : string) (d t : pynum) (bidirectional : bool) : M unit :=
  add_node u None ;;
  add_node v None ;;
  append_edge u v d t ;;
  if bidirectional then append_edge v u d t else ret tt.

(** [neighbors]: the stored list, or a new empty one. *)
Definition neighbors (node : string) : M (list Edge) :=
  a <- get_adj ;;
  ret (match dict_get a node with Some es => es | None => [] end).

Definition nodes : M (list string) :=
  a <- get_adj ;;
  ret (dict_keys a).

Definition edges_of (a : dict (list Edge)) : list (string * string * float * float) :=
  flat_map (fun ues =>
    map (fun e => (fst ues, to_node e, distance e, traffic_factor e)) (snd ues)) a.

Definition edges : M (list (string * string * float * float)) :=
  a <- get_adj ;;
  ret (edges_of a).

Fixpoint load_from_edge_list (edge_list : list (string * string * pynum * pynum)) : M unit :=
  match edge_list with
  | [] => ret tt
  | (u, v, d, t) :: rest => add_edge u v d t true ;; load_from_edge_list rest
  end.

(** The number of stored directed edges, [len(g.edges())]. *)
Definition edge_count (g : Graph) : nat := List.length (edges_of (adj g)).

(** ** heapq on a list of [(priority, node)] tuples *)

Definition item : Type := float * string.

(** Tuple comparison [a < b]: the first components decide unless they are
    [==], then the second ones do. *)
Definition item_lt (a b : item) : bool :=
  if (fst a =? fst b)%float
  then String.ltb (snd a) (snd b)
  else (fst a <? fst b)%float.

Definition item0 : item := (zero, "").

(** [l[i] = x] *)
Fixpoint upd {A : Type} (l : list A) (i : nat) (x : A) : list A :=
  match l, i with
  | [], _ => []
  | _ :: l', O => x :: l'
  | y :: l', S i' => y :: upd l' i' x
  end.

(** The loop of [_siftdown(heap, startpos, pos)]: [newitem] moves towards
    the root while it is smaller than its parent. *)
Fixpoint siftdown_loop (fuel : nat) (heap : list item) (startpos pos : nat)
    (newitem : item) : list item :=
  match fuel with
  | O => upd heap pos newitem
  | S fuel' =>
      if (startpos <? pos)%nat then
        let parentpos := ((pos - 1) / 2)%nat in
        let parent := nth parentpos heap item0 in
        if item_lt newitem parent
        then siftdown_loop fuel' (upd heap pos parent) startpos parentpos newitem
        else upd heap pos newitem
      else upd heap pos newitem
  end.

Definition siftdown (heap : list item) (startpos pos : nat) : list item :=
  siftdown_loop pos heap startpos pos (nth pos heap item0).

(** The loop of [_siftup(heap, pos)]: the smaller child moves up until a
    leaf is reached. *)
Fixpoint siftup_loop (fuel : nat) (heap : list item) (endpos pos : nat)
    : list item * nat :=
  match fuel with
  | O => (heap, pos)
  | S fuel' =>
      let childpos := (2 * pos + 1)%nat in
      if (childpos <? endpos)%nat then
        let rightpos := (childpos + 1)%nat in
        let childpos :=
          if (rightpos <? endpos)%nat
             && negb (item_lt (nth childpos heap item0) (nth rightpos heap item0))
          then rightpos else childpos in
        siftup_loop fuel' (upd heap pos (nth childpos heap item0)) endpos childpos
      else (heap, pos)
  end.

Definition siftup (heap : list item) (pos : nat) : list item :=
  let endpos := List.length heap in
  let newitem := nth pos heap item0 in
  let '(heap1, pos1) := siftup_loop endpos heap endpos pos in
  siftdown (upd heap1 pos1 newitem) pos pos1.

Definition heappush (heap : list item) (x : item) : list item :=
  siftdown (heap ++ [x]) 0 (List.length heap).

(** [heappop]: [None] stands for the [IndexError] of an empty heap. *)
Definition heappop (heap : list item) : option (item * list item) :=
  match heap with
  | [] => None
  | _ :: _ =>
      let lastelt := last heap item0 in
      match removelast heap with
      | [] => Some (lastelt, [])
      | returnitem :: rest =>
          Some (returnitem, siftup (lastelt :: rest) 0)
      end
  end.

Definition heappop_res (heap : list item) : res (item * list item) :=
  match heappop heap with
  | Some r => Ok r
  | None => Raise (IndexError "index out of range")
  end.

(** ** The searches *)

(** [for x in l: s = body(s, x)] *)
Fixpoint for_each {A S : Type} (l : list A) (body : S -> A -> M S) (s : S) : M S :=
  match l with
  | [] => ret s
  | x :: l' => s' <- body s x ;; for_each l' body s'
  end.

(** The loop of [_reconstruct_path]. *)
Fixpoint reconstruct_loop (fuel : nat) (came_from : dict string)
    (start cur : string) (path : list string) : res (list string) :=
  if String.eqb cur start then Ok (rev (path ++ [start]))
  else
    match fuel with
    | O => OutOfFuel
    | S fuel' =>
        match dict_get came_from cur with
        | None => Ok []
        | Some p => reconstruct_loop fuel' came_from start p (path ++ [cur])
        end
    end.

Definition _reconstruct_path (fuel : nat) (came_from : dict string)
    (start goal : string) : M (list string) :=
  lift (reconstruct_loop fuel came_from start goal []).

Definition dstate : Type := dict float * dict string * list item.

(** The body of the [for edge in self.neighbors(u)] loop of [dijkstra]. *)
Definition relax (u : string) (curr_d : float) (st : dstate) (edge : Edge) : M dstate :=
  let '(dist, prev, pq) := st in
  let v := to_node edge in
  let w := effective_weight edge in
  let nd := (curr_d + w)%float in
  dv <- lift (dict_item dist v) ;;
  if (nd <? dv)%float
  then ret (dict_set dist v nd, dict_set prev v u, heappush pq (nd, v))
  else ret st.

(** The [while pq] loop of [dijkstra]. *)
Fixpoint dijkstra_loop (fuel : nat) (st : dstate) : M (dict float * dict string) :=
  let '(dist, prev, pq) := st in
  match pq with
  | [] => ret (dist, prev)
  | _ :: _ =>
      match fuel with
      | O => lift OutOfFuel
      | S fuel' =>
          popped <- lift (heappop_res pq) ;;
          let '((curr_d, u), pq') := popped in
          du <- lift (dict_item dist u) ;;
          if (du <? curr_d)%float
          then dijkstra_loop fuel' (dist, prev, pq')
          else
            es <- neighbors u ;;
            st' <- for_each es (relax u curr_d) (dist, prev, pq') ;;
            dijkstra_loop fuel' st'
      end
  end.

Definition dijkstra (fuel : nat) (start : string) : M (dict float * dict string) :=
  a <- get_adj ;;
  if negb (dict_mem a start)
  then lift (Raise (ValueError ("Start node '" ++ start ++ "' not in graph.")))
  else
    a <- get_adj ;;
    let dist := dict_set (dict_const a inf) start zero in
    dijkstra_loop fuel (dist, [], [(zero, start)]).

Definition shortest_path_dijkstra (fuel : nat) (start end_ : string)
    : M (list string * float) :=
  dp <- dijkstra fuel start ;;
  let '(dist, prev) := dp in
  if negb (dict_mem dist end_) then ret ([], inf)
  else
    de <- lift (dict_item dist end_) ;;
    if (de =? inf)%float then ret ([], inf)
    else
      path <- _reconstruct_path fuel prev start end_ ;;
      de' <- lift (dict_item dist end_) ;;
      ret (path, de').

Section Heuristic.

(** [math.hypot] belongs to the C library, not to this repository: the
    searches are stated for any function in its place. *)
Variable hypot : float -> float -> float.

Definition _heuristic (a b : string) : M float :=
  c <- get_coords ;;
  if dict_mem c a && dict_mem c b then
    p1 <- lift (dict_item c a) ;;
    p2 <- lift (dict_item c b) ;;
    let '(x1, y1) := p1 in
    let '(x2, y2) := p2 in
    ret (hypot (x2 - x1)%float (y2 - y1)%float)
  else ret zero.

(** [open_set], [came_from], [g_score], [f_score] *)
Definition astate : Type := list item * dict string * dict float * dict float.

(** The body of the [for edge in self.neighbors(current)] loop of [a_star]. *)
Definition a_star_relax (goal current : string) (st : astate) (edge : Edge) : M astate :=
  let '(open_set, came_from, g_score, f_score) := st in
  let neighbor := to_node edge in
  gc <- lift (dict_item g_score current) ;;
  let tentative_g := (gc + effective_weight edge)%float in
  gn <- lift (dict_item g_score neighbor) ;;
  if (tentative_g <? gn)%float then
    let came_from' := dict_set came_from neighbor current in
    let g_score' := dict_set g_score neighbor tentative_g in
    h <- _heuristic neighbor goal ;;
    let f_score' := dict_set f_score neighbor (tentative_g + h)%float in
    fn <- lift (dict_item f_score' neighbor) ;;
    ret (heappush open_set (fn, neighbor), came_from', g_score', f_score')
  else ret st.

(** The [while open_set] loop of [a_star]; [rfuel] is the fuel of the path
    reconstruction. *)
Fixpoint a_star_loop (fuel rfuel : nat) (start goal : string) (st : astate)
    : M (list string * float) :=
  let '(open_set, came_from, g_score, f_score) := st in
  match open_set with
  | [] => ret ([], inf)
  | _ :: _ =>
      match fuel with
      | O => lift OutOfFuel
      | S fuel' =>
          popped <- lift (heappop_res open_set) ;;
          let '((curr_f, current), open_set') := popped in
          if String.eqb current goal then
            path <- _reconstruct_path rfuel came_from start goal ;;
            gg <- lift (dict_item g_score goal) ;;
            ret (path, gg)
          else
            es <- neighbors current ;;
            st' <- for_each es (a_star_relax goal current)
                     (open_set', came_from, g_score, f_score) ;;
            a_star_loop fuel' rfuel start goal st'
      end
  end.

Definition a_star (fuel : nat) (start goal : string) : M (list string * float) :=
  a <- get_adj ;;
  if negb (dict_mem a start) || negb (dict_mem a goal)
  then lift (Raise (ValueError "Start or goal not in graph."))
  else
    let open_set := heappush [] (zero, start) in
    a <- get_adj ;;
    let g_score := dict_set (dict_const a inf) start zero in
    a <- get_adj ;;
    h <- _heuristic start goal ;;
    let f_score := dict_set (dict_const a inf) start h in
    a_star_loop fuel fuel start goal (open_set, [], g_score, f_score).

End Heuristic.

(** ** sample_data.py *)

Definition get_sample_edges : list (string * string * pynum * pynum) :=
  [ ("A", "B", PyInt 4, PyFloat 1.0);
    ("A", "C", PyInt 2, PyFloat 1.2);
    ("B", "C", PyInt 1, PyFloat 1.0);
    ("B", "D", PyInt 5, PyFloat 1.1);
    ("C", "D", PyInt 8, PyFloat 1.0);
    ("C", "E", PyInt 10, PyFloat 1.3);
    ("D", "E", PyInt 2, PyFloat 1.0);
    ("D", "Z", PyInt 6, PyFloat 1.4);
    ("E", "Z", PyInt 3, PyFloat 1.0) ].

Definition get_sample_coords : list (string * (pynum * pynum)) :=
  [ ("A", (PyInt 0, PyInt 0));
    ("B", (PyInt 4, PyInt 0));
    ("C", (PyInt 1, PyInt 2));
    ("D", (PyInt 6, PyInt 2));
    ("E", (PyInt 7, PyInt 4));
    ("Z", (PyInt 9, PyInt 5)) ].

(** The graph of the demo run of [main.py]: the sample edges, both ways. *)
Definition sample_graph : Graph :=
  snd (load_from_edge_list get_sample_edges Graph_init).

(** [for node, coord in coords.items(): g.add_node(node, coord=coord)] *)
Fixpoint add_coords (cs : list (string * (pynum * pynum))) : M unit :=
  match cs with
  | [] => ret tt
  | (node, coord) :: rest => add_node node (Some coord) ;; add_coords rest
  end.

Definition sample_graph_coords : Graph :=
  snd (add_coords get_sample_coords sample_graph).

(** A stand-in for [math.hypot] to run examples: the rounded square root
    of the sum of the squares.  It agrees with the C library wherever the
    squares, their sum and the root are exact. *)
Definition hypot_sqrt (x y : float) : float := sqrt (x * x + y * y)%float.


(** * Properties *)

(** ** Dictionaries *)

Section DictFacts.
Context {V : Type}.
Implicit Types (d : dict V) (k : string) (v : V).

Lemma dict_get_set_same d k v : dict_get (dict_set d k v) k = Some v.
Proof.
  induction d as [|[k' v'] d IH]; simpl.
  - now rewrite String.eqb_refl.
  - destruct (String.eqb k' k) eqn:E; simpl; rewrite E; auto.
Qed.

Lemma dict_get_set_other d k k' v :
  k <> k' -> dict_get (dict_set d k v) k' = dict_get d k'.
Proof.
  intros N. induction d as [|[k0 v0] d IH]; simpl.
  - destruct (String.eqb_spec k k'); congruence.
  - destruct (String.eqb_spec k0 k) as [->|N0]; simpl.
    + destruct (String.eqb_spec k k'); congruence.
    + now rewrite IH.
Qed.

Lemma dict_get_set d k k' v :
  dict_get (dict_set d k v) k' = if String.eqb k k' then Some v else dict_get d k'.
Proof.
  destruct (String.eqb_spec k k') as [->|N].
  - apply dict_get_set_same.
  - now apply dict_get_set_other.
Qed.

Lemma dict_mem_set d k k' v :
  dict_mem (dict_set d k v) k' = String.eqb k k' || dict_mem d k'.
Proof.
  unfold dict_mem. rewrite dict_get_set. now destruct (String.eqb k k').
Qed.

Lemma dict_mem_true d k : dict_mem d k = true <-> exists v, dict_get d k = Some v.
Proof.
  unfold dict_mem. destruct (dict_get d k); split; eauto; try discriminate.
  intros [v H]; discriminate.
Qed.

Lemma dict_mem_false d k : dict_mem d k = false <-> dict_get d k = None.
Proof.
  unfold dict_mem. destruct (dict_get d k); split; congruence.
Qed.

Lemma dict_get_In d k v : dict_get d k = Some v -> In (k, v) d.
Proof.
  induction d as [|[k' v'] d IH]; simpl; [discriminate|].
  destruct (String.eqb_spec k' k) as [->|N]; intros H.
  - left. congruence.
  - right. auto.
Qed.

Lemma In_dict_mem d k v : In (k, v) d -> dict_mem d k = true.
Proof.
  unfold dict_mem. induction d as [|[k' v'] d IH]; simpl; [tauto|].
  intros [E|H].
  - inversion E; subst. now rewrite String.eqb_refl.
  - destruct (String.eqb k' k); auto.
Qed.

Lemma dict_mem_keys d k : dict_mem d k = true <-> In k (dict_keys d).
Proof.
  split.
  - intros H. apply dict_mem_true in H as [v H]. apply dict_get_In in H.
    unfold dict_keys. apply in_map_iff. now exists (k, v).
  - unfold dict_keys. intros H. apply in_map_iff in H as [[k' v] [E H]].
    simpl in E; subst. eapply In_dict_mem; eauto.
Qed.

Lemma In_dict_set d k v k' v' :
  In (k', v') (dict_set d k v) -> (k' = k /\ v' = v) \/ In (k', v') d.
Proof.
  induction d as [|[k0 v0] d IH]; simpl.
  - intros [E|[]]. inversion E; auto.
  - destruct (String.eqb_spec k0 k) as [->|N]; simpl.
    + intros [E|H]; [inversion E|]; auto.
    + intros [E|H]; auto. destruct (IH H); auto.
Qed.

Lemma dict_keys_set_mem d k v :
  dict_mem d k = true -> dict_keys (dict_set d k v) = dict_keys d.
Proof.
  unfold dict_mem, dict_keys. induction d as [|[k0 v0] d IH]; simpl; [discriminate|].
  destruct (String.eqb_spec k0 k) as [->|N]; simpl; auto.
  intros H. now rewrite IH.
Qed.

Lemma dict_item_Ok d k v : dict_item d k = Ok v <-> dict_get d k = Some v.
Proof.
  unfold dict_item. destruct (dict_get d k); split; congruence.
Qed.

End DictFacts.

Lemma dict_get_const {V W : Type} (d : dict V) (w : W) k :
  dict_get (dict_const d w) k = if dict_mem d k then Some w else None.
Proof.
  unfold dict_mem. induction d as [|[k' v'] d IH]; simpl; auto.
  destruct (String.eqb k' k); auto.
Qed.

Lemma dict_mem_const {V W : Type} (d : dict V) (w : W) k :
  dict_mem (dict_const d w) k = dict_mem d k.
Proof.
  unfold dict_mem at 1. rewrite dict_get_const. now destruct (dict_mem d k).
Qed.

Lemma dict_keys_const {V W : Type} (d : dict V) (w : W) :
  dict_keys (dict_const d w) = dict_keys d.
Proof.
  unfold dict_keys, dict_const. rewrite map_map. reflexivity.
Qed.

(** ** The mutators, run *)

Definition ensure_node (a : dict (list Edge)) (node : string) : dict (list Edge) :=
  if dict_mem a node then a else dict_set a node [].

Lemma add_node_None_run g node :
  add_node node None g = (Ok tt, mkGraph (ensure_node (adj g) node) (coords g)).
Proof.
  unfold add_node, ensure_node, bind, get_adj, put_adj, ret.
  destruct g as [a c]; simpl. destruct (dict_mem a node); reflexivity.
Qed.

Lemma ensure_node_mem a node k :
  dict_mem (ensure_node a node) k = String.eqb node k || dict_mem a k.
Proof.
  unfold ensure_node. destruct (dict_mem a node) eqn:E.
  - destruct (String.eqb_spec node k) as [<-|]; auto.
  - apply dict_mem_set.
Qed.

Lemma ensure_node_edges a node : edges_of (ensure_node a node) = edges_of a.
Proof.
  unfold ensure_node. destruct (dict_mem a node) eqn:E; auto.
  apply dict_mem_false in E. unfold edges_of.
  induction a as [|[k es] a IH]; simpl in *; auto.
  destruct (String.eqb k node); [discriminate|]. simpl. now rewrite IH.
Qed.

Lemma In_ensure_node a node k es :
  In (k, es) (ensure_node a node) -> In (k, es) a \/ (k = node /\ es = []).
Proof.
  unfold ensure_node. destruct (dict_mem a node); auto.
  intros H. apply In_dict_set in H. tauto.
Qed.

Lemma append_edge_run g u v d t es fd ft :
  dict_get (adj g) u = Some es -> py_float d = Ok fd -> py_float t = Ok ft ->
  append_edge u v d t g
  = (Ok tt, mkGraph (dict_set (adj g) u (es ++ [mkEdge v fd ft])) (coords g)).
Proof.
  intros Hu Hd Ht.
  unfold append_edge, bind, get_adj, lift, put_adj, dict_item, Edge_init.
  rewrite Hu, Hd, Ht. reflexivity.
Qed.

(** A failed [float(...)] leaves the adjacency lists as they were. *)
Lemma append_edge_fail g u v d t es :
  dict_get (adj g) u = Some es ->
  (forall fd ft, py_float d = Ok fd -> py_float t = Ok ft -> False) ->
  exists e, append_edge u v d t g = (Raise e, g).
Proof.
  intros Hu Hn.
  unfold append_edge, bind, get_adj, lift, put_adj, dict_item, Edge_init, res_bind.
  rewrite Hu.
  destruct (py_float d) as [fd|e|] eqn:Ed.
  - destruct (py_float t) as [ft|e|] eqn:Et.
    + exfalso; eauto.
    + eauto.
    + destruct t; simpl in Et; [destruct (is_infinity _)|]; discriminate.
  - eauto.
  - destruct d; simpl in Ed; [destruct (is_infinity _)|]; discriminate.
Qed.

Lemma edges_of_app_edge a u es e :
  dict_get a u = Some es ->
  List.length (edges_of (dict_set a u (es ++ [e]))) = S (List.length (edges_of a)).
Proof.
  unfold edges_of. induction a as [|[k es0] a IH]; simpl; [discriminate|].
  destruct (String.eqb_spec k u) as [->|N]; simpl; intros H.
  - inversion H; subst. rewrite !length_app, !length_map, length_app. simpl. lia.
  - rewrite !length_app, IH by assumption. lia.
Qed.

Lemma In_edges_of a x :
  In x (edges_of a) <->
  exists u es e, In (u, es) a /\ In e es /\
                 x = (u, to_node e, distance e, traffic_factor e).
Proof.
  unfold edges_of. rewrite in_flat_map. split.
  - intros [[u es] [H1 H2]]. apply in_map_iff in H2 as [e [E H2]].
    exists u, es, e. simpl in E. auto.
  - intros (u & es & e & H1 & H2 & ->). exists (u, es). split; auto.
    apply in_map_iff. exists e. auto.
Qed.

Lemma In_edges_of_app_edge a u es e x :
  dict_get a u = Some es ->
  In x (edges_of (dict_set a u (es ++ [e]))) <->
  In x (edges_of a) \/ x = (u, to_node e, distance e, traffic_factor e).
Proof.
  unfold edges_of. induction a as [|[k es0] a IH]; simpl; [discriminate|].
  destruct (String.eqb_spec k u) as [->|N]; simpl; intros H.
  - inversion H; subst. rewrite !in_app_iff, map_app, in_app_iff. simpl.
    intuition congruence.
  - rewrite !in_app_iff, IH by assumption. tauto.
Qed.

Lemma py_float_fuel x : py_float x <> OutOfFuel.
Proof. destruct x; simpl; [destruct (is_infinity _)|]; discriminate. Qed.

(** [append_edge] on a known node: the edge is stored with the coerced
    numbers, or a coercion raises and nothing changes. *)
Lemma append_edge_cases g u v d t :
  dict_mem (adj g) u = true ->
  (exists es fd ft,
      dict_get (adj g) u = Some es /\ py_float d = Ok fd /\ py_float t = Ok ft /\
      append_edge u v d t g
      = (Ok tt, mkGraph (dict_set (adj g) u (es ++ [mkEdge v fd ft])) (coords g)))
  \/ (exists m, append_edge u v d t g = (Raise (OverflowError m), g)).
Proof.
  intros Hu. apply dict_mem_true in Hu as [es Hu].
  destruct (py_float d) as [fd|e|] eqn:Ed; [|right|now apply py_float_fuel in Ed].
  - destruct (py_float t) as [ft|e|] eqn:Et; [left|right|now apply py_float_fuel in Et].
    + exists es, fd, ft. repeat split; auto. now apply append_edge_run.
    + unfold append_edge, bind, get_adj, lift, dict_item, Edge_init, res_bind.
      rewrite Hu, Ed, Et.
      destruct t; simpl in Et; [destruct (is_infinity _)|]; inversion Et; eauto.
  - unfold append_edge, bind, get_adj, lift, dict_item, Edge_init, res_bind.
    rewrite Hu, Ed.
    destruct d; simpl in Ed; [destruct (is_infinity _)|]; inversion Ed; eauto.
Qed.

(** The graph after the two [add_node] calls that open [add_edge]. *)
Definition with_nodes (g : Graph) (u v : string) : Graph :=
  mkGraph (ensure_node (ensure_node (adj g) u) v) (coords g).

Lemma add_edge_unfold g u v d t b :
  add_edge u v d t b g
  = match append_edge u v d t (with_nodes g u v) with
    | (Ok _, g1) => if b then append_edge v u d t g1 else (Ok tt, g1)
    | (Raise e, g1) => (Raise e, g1)
    | (OutOfFuel, g1) => (OutOfFuel, g1)
    end.
Proof.
  unfold add_edge, bind at 1. rewrite add_node_None_run.
  unfold bind at 1. rewrite add_node_None_run. simpl adj; simpl coords.
  unfold bind, with_nodes. destruct (append_edge _ _ _ _ _) as [[[]| |] g1]; auto.
  destruct b; reflexivity.
Qed.

Lemma with_nodes_mem g u v k :
  dict_mem (adj (with_nodes g u v)) k
  = String.eqb v k || (String.eqb u k || dict_mem (adj g) k).
Proof. unfold with_nodes; simpl. now rewrite !ensure_node_mem. Qed.

Lemma with_nodes_edges g u v : edges_of (adj (with_nodes g u v)) = edges_of (adj g).
Proof. unfold with_nodes; simpl. now rewrite !ensure_node_edges. Qed.

Lemma add_edge_run g u v d t b fd ft :
  py_float d = Ok fd -> py_float t = Ok ft ->
  exists es1 es2,
    dict_get (adj (with_nodes g u v)) u = Some es1 /\
    let a1 := dict_set (adj (with_nodes g u v)) u (es1 ++ [mkEdge v fd ft]) in
    dict_get a1 v = Some es2 /\
    add_edge u v d t b g
    = (Ok tt, mkGraph (if b then dict_set a1 v (es2 ++ [mkEdge u fd ft]) else a1)
                      (coords g)).
Proof.
  intros Hd Ht.
  assert (Hu : dict_mem (adj (with_nodes g u v)) u = true).
  { rewrite with_nodes_mem, String.eqb_refl. now rewrite orb_true_r. }
  apply dict_mem_true in Hu as [es1 Hu]. exists es1.
  set (a1 := dict_set (adj (with_nodes g u v)) u (es1 ++ [mkEdge v fd ft])).
  assert (Hv : dict_mem a1 v = true).
  { unfold a1. rewrite dict_mem_set, with_nodes_mem, String.eqb_refl.
    now rewrite orb_true_r. }
  apply dict_mem_true in Hv as [es2 Hv]. exists es2.
  split; [assumption|]. split; [assumption|].
  rewrite add_edge_unfold.
  rewrite (append_edge_run _ u v d t es1 fd ft Hu Hd Ht). fold a1.
  destruct b; [|reflexivity].
  now rewrite (append_edge_run (mkGraph a1 _) v u d t es2 fd ft Hv Hd Ht).
Qed.

(** **** C1 *)




(** The only way [add_edge] fails is the [OverflowError] of [float] on an
    int out of range; no edge is stored then. *)
Lemma add_edge_outcome g u v d t b :
  (exists g', add_edge u v d t b g = (Ok tt, g'))
  \/ (exists m, add_edge u v d t b g = (Raise (OverflowError m), with_nodes g u v)).
Proof.
  rewrite add_edge_unfold.
  destruct (append_edge_cases (with_nodes g u v) u v d t)
    as [(es & fd & ft & H1 & Hd & Ht & ->)|[m ->]].
  - rewrite with_nodes_mem, String.eqb_refl. now rewrite orb_true_r.
  - destruct (add_edge_run g u v d t b fd ft Hd Ht) as (es1 & es2 & _ & _ & H3).
    rewrite add_edge_unfold, (append_edge_run _ u v d t es fd ft H1 Hd Ht) in H3.
    left. eauto.
  - right. eauto.
Qed.

(** **** C8 *)

(** Every adjacency key and every [to_node] of a stored edge is a known
    node, that is a key of [adj]. *)
Definition endpoints_known (g : Graph) : Prop :=
  forall u es, In (u, es) (adj g) ->
    dict_mem (adj g) u = true
    /\ forall e, In e es -> dict_mem (adj g) (to_node e) = true.

Lemma endpoints_known_coords a c c' :
  endpoints_known (mkGraph a c) -> endpoints_known (mkGraph a c').
Proof. intros H u es Hin. exact (H u es Hin). Qed.

Lemma endpoints_known_ensure g node :
  endpoints_known g ->
  endpoints_known (mkGraph (ensure_node (adj g) node) (coords g)).
Proof.
  intros H u es Hin. simpl in *. rewrite ensure_node_mem.
  apply In_ensure_node in Hin as [Hin|[-> ->]].
  - destruct (H u es Hin) as [H1 H2]. split.
    + rewrite H1. apply orb_true_r.
    + intros e He. rewrite ensure_node_mem, (H2 e He). apply orb_true_r.
  - rewrite String.eqb_refl. split; [reflexivity|intros e []].
Qed.

Lemma endpoints_known_append g u v es e :
  endpoints_known g -> dict_get (adj g) u = Some es ->
  to_node e = v -> dict_mem (adj g) v = true ->
  endpoints_known (mkGraph (dict_set (adj g) u (es ++ [e])) (coords g)).
Proof.
  intros H Hu He Hv k es' Hin. simpl in *.
  assert (K : forall k', dict_mem (adj g) k' = true ->
                         dict_mem (dict_set (adj g) u (es ++ [e])) k' = true).
  { intros k' Hk. rewrite dict_mem_set, Hk. apply orb_true_r. }
  apply In_dict_set in Hin as [[-> ->]|Hin].
  - split.
    + rewrite dict_mem_set, String.eqb_refl. reflexivity.
    + intros e' He'. apply K. apply in_app_iff in He' as [He'|[<-|[]]].
      * apply dict_get_In in Hu. exact (proj2 (H u es Hu) e' He').
      * now rewrite He.
  - destruct (H k es' Hin) as [H1 H2]. split; auto.
Qed.

Lemma add_node_adj g node coord :
  adj (snd (add_node node coord g)) = ensure_node (adj g) node.
Proof.
  unfold add_node, ensure_node, bind, get_adj, put_adj, put_coords, get_coords, ret, lift.
  destruct g as [a c]; simpl.
  destruct (dict_mem a node); simpl;
    (destruct coord as [[c0 c1]|]; [|reflexivity]);
    (destruct (py_float c0); [|reflexivity..]);
    (destruct (py_float c1); reflexivity).
Qed.

Lemma endpoints_known_adj g g' :
  adj g' = adj g -> endpoints_known g -> endpoints_known g'.
Proof. intros E H u es. rewrite E. apply H. Qed.

Lemma endpoints_known_append_edge g u v d t :
  endpoints_known g -> dict_mem (adj g) u = true -> dict_mem (adj g) v = true ->
  let g' := snd (append_edge u v d t g) in
  endpoints_known g'
  /\ forall k, dict_mem (adj g) k = true -> dict_mem (adj g') k = true.
Proof.
  intros H Hu Hv.
  destruct (append_edge_cases g u v d t Hu)
    as [(es & fd & ft & H1 & Hd & Ht & ->)|[m ->]]; simpl.
  - split.
    + now apply endpoints_known_append with (v := v).
    + intros k Hk. rewrite dict_mem_set, Hk. apply orb_true_r.
  - auto.
Qed.

Lemma endpoints_known_add_edge g u v d t b :
  endpoints_known g ->
  let g' := snd (add_edge u v d t b g) in
  endpoints_known g' /\ dict_mem (adj g') u = true /\ dict_mem (adj g') v = true.
Proof.
  intros H. cbv zeta. rewrite add_edge_unfold.
  assert (H0 : endpoints_known (with_nodes g u v)).
  { apply (endpoints_known_ensure (mkGraph (ensure_node (adj g) u) (coords g)) v).
    now apply endpoints_known_ensure. }
  assert (Hu : dict_mem (adj (with_nodes g u v)) u = true).
  { rewrite with_nodes_mem, String.eqb_refl. now rewrite orb_true_r. }
  assert (Hv : dict_mem (adj (with_nodes g u v)) v = true).
  { rewrite with_nodes_mem, String.eqb_refl. reflexivity. }
  destruct (endpoints_known_append_edge _ u v d t H0 Hu Hv) as [H1 K1].
  destruct (append_edge u v d t (with_nodes g u v)) as [[[]|e|] g1];
    simpl in H1, K1; simpl; auto.
  destruct b; simpl; auto.
  destruct (endpoints_known_append_edge _ v u d t H1 (K1 _ Hv) (K1 _ Hu)) as [H2 K2].
  auto.
Qed.

Lemma endpoints_known_load l : forall g,
  endpoints_known g -> endpoints_known (snd (load_from_edge_list l g)).
Proof.
  induction l as [|[[[u v] d] t] l IH]; intros g H; simpl; auto.
  unfold bind.
  pose proof (endpoints_known_add_edge g u v d t true H) as [H1 _].
  destruct (add_edge u v d t true g) as [[[]|e|] g1]; simpl in *; auto.
Qed.

(** C8: the invariant that every edge endpoint is a known node holds of
    the empty graph and is kept by [add_node], [add_edge] (which makes
    both [u] and [v] known) and [load_from_edge_list], whatever the
    outcome of the call. *)
Theorem C8_endpoints_known_invariant :
  endpoints_known Graph_init
  /\ (forall g node coord,
        endpoints_known g -> endpoints_known (snd (add_node node coord g)))
  /\ (forall g u v d t b,
        endpoints_known g ->
        let g' := snd (add_edge u v d t b g) in
        endpoints_known g' /\ dict_mem (adj g') u = true /\ dict_mem (adj g') v = true)
  /\ (forall g u v d t b,
        let g' := snd (add_edge u v d t b g) in
        dict_mem (adj g') u = true /\ dict_mem (adj g') v = true)
  /\ (forall g l,
        endpoints_known g -> endpoints_known (snd (load_from_edge_list l g))).
Proof.
  split; [intros u es []|].
  split.
  { intros g node coord H.
    apply (endpoints_known_adj (mkGraph (ensure_node (adj g) node) (coords g))).
    - apply add_node_adj.
    - now apply endpoints_known_ensure. }
  split; [apply endpoints_known_add_edge|].
  split; [|intros g l; apply endpoints_known_load].
  intros g u v d t b. cbv zeta.
  assert (Hu : dict_mem (adj (with_nodes g u v)) u = true).
  { rewrite with_nodes_mem, String.eqb_refl. now rewrite orb_true_r. }
  assert (Hv : dict_mem (adj (with_nodes g u v)) v = true).
  { rewrite with_nodes_mem, String.eqb_refl. reflexivity. }
  rewrite add_edge_unfold.
  assert (K : forall u' v' g0, dict_mem (adj g0) u' = true ->
            forall k, dict_mem (adj g0) k = true ->
                      dict_mem (adj (snd (append_edge u' v' d t g0))) k = true).
  { intros u' v' g0 Hu' k Hk.
    destruct (append_edge_cases g0 u' v' d t Hu')
      as [(es & fd & ft & H1 & Hd & Ht & ->)|[m ->]]; simpl; auto.
    rewrite dict_mem_set, Hk. apply orb_true_r. }
  pose proof (K u v _ Hu) as K1.
  destruct (append_edge u v d t (with_nodes g u v)) as [[[]|e|] g1];
    simpl in K1; simpl; auto.
  destruct b; simpl; auto.
Qed.

Lemma C8_endpoints_known_invariant_witness : endpoints_known sample_graph.
Proof.
  apply (proj2 (proj2 (proj2 (proj2 C8_endpoints_known_invariant)))
           Graph_init get_sample_edges).
  apply (proj1 C8_endpoints_known_invariant).
Defined.

(** **** C10 *)

Example py_float_int : py_float (PyInt 4) = Ok 4%float /\ py_float (PyInt 10) = Ok 10%float.
Proof. split; reflexivity. Qed.

(** C10: [Edge] coerces both numbers with [float]: after a successful
    [add_edge(u, v, d, t, b)] the entries reported by [edges()] are the
    former ones and [(u, v, float(d), float(t))], with
    [(v, u, float(d), float(t))] when bidirectional; [neighbors(u)] holds
    the edge whose [to_tuple()] is [(v, float(d), float(t))]; an int
    argument such as 4 is stored as the float 4.0. *)
Theorem C10_stored_numbers_are_float_of_arguments g u v d t b g' :
  add_edge u v d t b g = (Ok tt, g') ->
  exists fd ft,
    py_float d = Ok fd /\ py_float t = Ok ft
    /\ (forall x, In x (edges_of (adj g')) <->
                  In x (edges_of (adj g)) \/ x = (u, v, fd, ft)
                  \/ (b = true /\ x = (v, u, fd, ft)))
    /\ (exists es e, fst (neighbors u g') = Ok es /\ In e es
                     /\ to_tuple e = (v, fd, ft))
    /\ (b = true -> exists es e, fst (neighbors v g') = Ok es /\ In e es
                                 /\ to_tuple e = (u, fd, ft)).
Proof.
  intros Hrun.
  destruct (py_float d) as [fd|e|] eqn:Hd.
  2,3: exfalso; rewrite add_edge_unfold in Hrun;
    unfold append_edge, bind, get_adj, lift, dict_item, Edge_init, res_bind in Hrun;
    destruct (dict_get _ u); try rewrite Hd in Hrun; discriminate.
  destruct (py_float t) as [ft|e|] eqn:Ht.
  2,3: exfalso; rewrite add_edge_unfold in Hrun;
    unfold append_edge, bind, get_adj, lift, dict_item, Edge_init, res_bind in Hrun;
    destruct (dict_get _ u); try rewrite Hd, Ht in Hrun; discriminate.
  exists fd, ft. split; [reflexivity|]. split; [reflexivity|].
  destruct (add_edge_run g u v d t b fd ft Hd Ht) as (es1 & es2 & H1 & H2 & H3).
  cbv zeta in H2, H3. rewrite H3 in Hrun. injection Hrun as <-.
  set (a1 := dict_set (adj (with_nodes g u v)) u (es1 ++ [mkEdge v fd ft])) in *.
  assert (E1 : forall x, In x (edges_of a1) <->
                         In x (edges_of (adj g)) \/ x = (u, v, fd, ft)).
  { intros x. unfold a1. rewrite In_edges_of_app_edge by exact H1.
    rewrite with_nodes_edges. reflexivity. }
  destruct b; cbn [adj].
  - split; [|split].
    + intros x.
      pose proof (In_edges_of_app_edge a1 v es2 (mkEdge u fd ft) x H2) as E2.
      pose proof (E1 x) as E3. simpl in E2. intuition congruence.
    + unfold neighbors, bind, get_adj, ret; cbn [fst adj].
      rewrite dict_get_set. destruct (String.eqb_spec v u) as [->|N].
      * exists (es2 ++ [mkEdge u fd ft]), (mkEdge u fd ft).
        split; [reflexivity|]. split; [|reflexivity].
        apply in_app_iff. right. now left.
      * unfold a1. rewrite dict_get_set_same.
        exists (es1 ++ [mkEdge v fd ft]), (mkEdge v fd ft).
        split; [reflexivity|]. split; [|reflexivity].
        apply in_app_iff. right. now left.
    + intros _. unfold neighbors, bind, get_adj, ret; cbn [fst adj].
      rewrite dict_get_set_same.
      exists (es2 ++ [mkEdge u fd ft]), (mkEdge u fd ft).
      split; [reflexivity|]. split; [|reflexivity].
      apply in_app_iff. right. now left.
  - split; [|split].
    + intros x. pose proof (E1 x) as E3. intuition congruence.
    + unfold neighbors, bind, get_adj, ret; cbn [fst adj].
      unfold a1. rewrite dict_get_set_same.
      exists (es1 ++ [mkEdge v fd ft]), (mkEdge v fd ft).
      split; [reflexivity|]. split; [|reflexivity].
      apply in_app_iff. right. now left.
    + discriminate.
Qed.

Lemma C10_stored_numbers_are_float_of_arguments_witness :
  exists fd ft,
    py_float (PyInt 4) = Ok fd /\ py_float (PyFloat 1.0) = Ok ft
    /\ (forall x, In x (edges_of (adj (snd (add_edge "A" "B" (PyInt 4) (PyFloat 1.0) true Graph_init)))) <->
                  In x (edges_of (adj Graph_init)) \/ x = ("A", "B", fd, ft)
                  \/ (true = true /\ x = ("B", "A", fd, ft)))
    /\ (exists es e, fst (neighbors "A" (snd (add_edge "A" "B" (PyInt 4) (PyFloat 1.0) true Graph_init))) = Ok es
                     /\ In e es /\ to_tuple e = ("B", fd, ft))
    /\ (true = true ->
        exists es e, fst (neighbors "B" (snd (add_edge "A" "B" (PyInt 4) (PyFloat 1.0) true Graph_init))) = Ok es
                     /\ In e es /\ to_tuple e = ("A", fd, ft)).
Proof.
  apply (C10_stored_numbers_are_float_of_arguments Graph_init "A" "B"
           (PyInt 4) (PyFloat 1.0) true).
  reflexivity.
Defined.

(** The sample edge list, given with int distances, is stored as floats. *)
Example sample_edges_stored :
  firstn 3 (edges_of (adj sample_graph))
  = [("A", "B", 4%float, 1%float); ("A", "C", 2%float, 1.2%float);
     ("B", "A", 4%float, 1%float)].
Proof. reflexivity. Qed.

(** ** The queries as functions of the graph they read *)

Definition nbrs (g : Graph) (u : string) : list Edge :=
  match dict_get (adj g) u with
  | Some es => es
  | None => []
  end.

Fixpoint fold_res {A S : Type} (l : list A) (body : S -> A -> res S) (s : S) : res S :=
  match l with
  | [] => Ok s
  | x :: l' => res_bind (body s x) (fold_res l' body)
  end.

Definition relax_p (u : string) (curr_d : float) (st : dstate) (edge : Edge) : res dstate :=
  let '(dist, prev, pq) := st in
  let v := to_node edge in
  let nd := (curr_d + effective_weight edge)%float in
  res_bind (dict_item dist v) (fun dv =>
    if (nd <? dv)%float
    then Ok (dict_set dist v nd, dict_set prev v u, heappush pq (nd, v))
    else Ok st).

(** One turn of the [while pq] loop of [dijkstra], on a non-empty queue. *)
Definition dstep (g : Graph) (st : dstate) : res dstate :=
  let '(dist, prev, pq) := st in
  res_bind (heappop_res pq) (fun popped =>
    let '((curr_d, u), pq') := popped in
    res_bind (dict_item dist u) (fun du =>
      if (du <? curr_d)%float
      then Ok (dist, prev, pq')
      else fold_res (nbrs g u) (relax_p u curr_d) (dist, prev, pq'))).

Fixpoint dloop (g : Graph) (fuel : nat) (st : dstate) : res (dict float * dict string) :=
  match snd st with
  | [] => Ok (fst st)
  | _ :: _ =>
      match fuel with
      | O => OutOfFuel
      | S fuel' => res_bind (dstep g st) (dloop g fuel')
      end
  end.

Definition dinit (g : Graph) (start : string) : dstate :=
  (dict_set (dict_const (adj g) inf) start zero, [], [(zero, start)]).

Definition dijkstra_p (g : Graph) (fuel : nat) (start : string)
    : res (dict float * dict string) :=
  if negb (dict_mem (adj g) start)
  then Raise (ValueError ("Start node '" ++ start ++ "' not in graph."))
  else dloop g fuel (dinit g start).

Definition finish_p (fuel : nat) (start end_ : string) (dp : dict float * dict string)
    : res (list string * float) :=
  let '(dist, prev) := dp in
  if negb (dict_mem dist end_) then Ok ([], inf)
  else
    res_bind (dict_item dist end_) (fun de =>
      if (de =? inf)%float then Ok ([], inf)
      else
        res_bind (reconstruct_loop fuel prev start end_ []) (fun path =>
          res_bind (dict_item dist end_) (fun de' => Ok (path, de')))).

Definition shortest_path_dijkstra_p (g : Graph) (fuel : nat) (start end_ : string)
    : res (list string * float) :=
  res_bind (dijkstra_p g fuel start) (finish_p fuel start end_).

Section HeuristicFacts.
Variable hypot : float -> float -> float.

Definition heur (g : Graph) (a b : string) : float :=
  match dict_get (coords g) a, dict_get (coords g) b with
  | Some (x1, y1), Some (x2, y2) => hypot (x2 - x1)%float (y2 - y1)%float
  | _, _ => zero
  end.

Definition a_star_relax_p (g : Graph) (goal current : string) (st : astate)
    (edge : Edge) : res astate :=
  let '(open_set, came_from, g_score, f_score) := st in
  let neighbor := to_node edge in
  res_bind (dict_item g_score current) (fun gc =>
    let tentative_g := (gc + effective_weight edge)%float in
    res_bind (dict_item g_score neighbor) (fun gn =>
      if (tentative_g <? gn)%float then
        let f := (tentative_g + heur g neighbor goal)%float in
        Ok (heappush open_set (f, neighbor),
            dict_set came_from neighbor current,
            dict_set g_score neighbor tentative_g,
            dict_set f_score neighbor f)
      else Ok st)).

(** One turn of the [while open_set] loop of [a_star] when the popped node
    is not the goal. *)
Definition astep (g : Graph) (goal current : string) (st : astate) : res astate :=
  fold_res (nbrs g current) (a_star_relax_p g goal current) st.

Fixpoint aloop (g : Graph) (fuel rfuel : nat) (start goal : string) (st : astate)
    : res (list string * float) :=
  let '(open_set, came_from, g_score, f_score) := st in
  match open_set with
  | [] => Ok ([], inf)
  | _ :: _ =>
      match fuel with
      | O => OutOfFuel
      | S fuel' =>
          res_bind (heappop_res open_set) (fun popped =>
            let '((curr_f, current), open_set') := popped in
            if String.eqb current goal then
              res_bind (reconstruct_loop rfuel came_from start goal []) (fun path =>
                res_bind (dict_item g_score goal) (fun gg => Ok (path, gg)))
            else
              res_bind (astep g goal current (open_set', came_from, g_score, f_score))
                       (aloop g fuel' rfuel start goal))
      end
  end.

Definition ainit (g : Graph) (start goal : string) : astate :=
  (heappush [] (zero, start), [],
   dict_set (dict_const (adj g) inf) start zero,
   dict_set (dict_const (adj g) inf) start (heur g start goal)).

Definition a_star_p (g : Graph) (fuel : nat) (start goal : string)
    : res (list string * float) :=
  if negb (dict_mem (adj g) start) || negb (dict_mem (adj g) goal)
  then Raise (ValueError "Start or goal not in graph.")
  else aloop g fuel fuel start goal (ainit g start goal).

End HeuristicFacts.

Arguments dstep : simpl never.
Arguments astep : simpl never.
Arguments relax_p : simpl never.
Arguments a_star_relax_p : simpl never.
Arguments heappush : simpl never.
Arguments heappop : simpl never.
Arguments heappop_res : simpl never.

(** *** Every query returns the graph it was given *)

Lemma neighbors_run g u : neighbors u g = (Ok (nbrs g u), g).
Proof. reflexivity. Qed.

Lemma nodes_run g : nodes g = (Ok (dict_keys (adj g)), g).
Proof. reflexivity. Qed.

Lemma edges_run g : edges g = (Ok (edges_of (adj g)), g).
Proof. reflexivity. Qed.

Lemma for_each_run {A S : Type} g (body : S -> A -> M S) bodyp l :
  (forall s x, body s x g = (bodyp s x, g)) ->
  forall s, for_each l body s g = (fold_res l bodyp s, g).
Proof.
  intros Hb. induction l as [|x l IH]; intros s; simpl; [reflexivity|].
  unfold bind. rewrite Hb. destruct (bodyp s x); simpl; auto.
Qed.

Lemma relax_run g u d st e : relax u d st e g = (relax_p u d st e, g).
Proof.
  destruct st as [[dist prev] pq]. unfold relax, relax_p, bind, lift, ret.
  destruct (dict_item dist (to_node e)) as [dv| |]; simpl; auto.
  destruct (_ <? dv)%float; reflexivity.
Qed.

Lemma dijkstra_loop_run g fuel : forall st,
  dijkstra_loop fuel st g = (dloop g fuel st, g).
Proof.
  induction fuel as [|fuel IH]; intros [[dist prev] pq]; simpl.
  - destruct pq; reflexivity.
  - destruct pq as [|x pq]; [reflexivity|].
    unfold dstep, bind, lift.
    destruct (heappop_res (x :: pq)) as [[[curr_d u] pq']| |]; simpl; auto.
    destruct (dict_item dist u) as [du| |]; simpl; auto.
    destruct (du <? curr_d)%float; [apply IH|].
    rewrite (for_each_run g _ (relax_p u curr_d)) by (intros; apply relax_run).
    destruct (fold_res _ _ _); simpl; auto.
Qed.

Lemma dijkstra_run g fuel start :
  dijkstra fuel start g = (dijkstra_p g fuel start, g).
Proof.
  unfold dijkstra, dijkstra_p, bind, get_adj, lift.
  destruct (negb _); [reflexivity|]. apply dijkstra_loop_run.
Qed.

Lemma shortest_path_dijkstra_run g fuel start end_ :
  shortest_path_dijkstra fuel start end_ g
  = (shortest_path_dijkstra_p g fuel start end_, g).
Proof.
  unfold shortest_path_dijkstra, shortest_path_dijkstra_p, bind.
  rewrite dijkstra_run.
  destruct (dijkstra_p g fuel start) as [[dist prev]| |]; simpl; auto.
  unfold ret, lift, _reconstruct_path.
  destruct (negb _); [reflexivity|].
  destruct (dict_item dist end_) as [de| |]; simpl; auto.
  destruct (de =? inf)%float; [reflexivity|].
  destruct (reconstruct_loop _ _ _ _ _); simpl; auto.
Qed.

Section HeuristicRuns.
Variable hypot : float -> float -> float.

Lemma heuristic_run g a b : _heuristic hypot a b g = (Ok (heur hypot g a b), g).
Proof.
  unfold _heuristic, heur, bind, get_coords, lift, ret, dict_mem, dict_item.
  destruct (dict_get (coords g) a) as [[x1 y1]|]; simpl; [|reflexivity].
  destruct (dict_get (coords g) b) as [[x2 y2]|]; reflexivity.
Qed.

Lemma a_star_relax_run g goal current st e :
  a_star_relax hypot goal current st e g
  = (a_star_relax_p hypot g goal current st e, g).
Proof.
  destruct st as [[[open_set came_from] g_score] f_score].
  unfold a_star_relax, a_star_relax_p, bind, lift, ret.
  destruct (dict_item g_score current) as [gc| |]; simpl; auto.
  destruct (dict_item g_score (to_node e)) as [gn| |]; simpl; auto.
  destruct (_ <? gn)%float; [|reflexivity].
  rewrite heuristic_run. unfold dict_item. rewrite dict_get_set_same. reflexivity.
Qed.

Lemma a_star_loop_run g rfuel start goal fuel : forall st,
  a_star_loop hypot fuel rfuel start goal st g
  = (aloop hypot g fuel rfuel start goal st, g).
Proof.
  induction fuel as [|fuel IH]; intros [[[open_set came_from] g_score] f_score]; simpl.
  - destruct open_set; reflexivity.
  - destruct open_set as [|x open_set]; [reflexivity|].
    unfold bind, lift, _reconstruct_path.
    destruct (heappop_res (x :: open_set)) as [[[curr_f current] open']| |]; simpl; auto.
    destruct (String.eqb current goal).
    + destruct (reconstruct_loop _ _ _ _ _); simpl; auto.
      destruct (dict_item g_score goal); reflexivity.
    + unfold astep.
      rewrite (for_each_run g _ (a_star_relax_p hypot g goal current))
        by (intros; apply a_star_relax_run).
      destruct (fold_res _ _ _); simpl; auto.
Qed.

Lemma a_star_run g fuel start goal :
  a_star hypot fuel start goal g = (a_star_p hypot g fuel start goal, g).
Proof.
  unfold a_star, a_star_p, bind, get_adj, lift.
  destruct (_ || _); [reflexivity|].
  rewrite heuristic_run. apply a_star_loop_run.
Qed.

End HeuristicRuns.

(** **** C9 *)

(** C9: the queries [dijkstra], [shortest_path_dijkstra], [a_star],
    [neighbors], [nodes] and [edges] never mutate the graph: whatever the
    arguments and the outcome (a result, an exception, no fuel left), the
    graph after the call, adjacency and coordinates, is the graph before
    it. *)
Theorem C9_queries_do_not_mutate hypot (g : Graph) (fuel : nat) (start end_ node : string) :
  snd (dijkstra fuel start g) = g
  /\ snd (shortest_path_dijkstra fuel start end_ g) = g
  /\ snd (a_star hypot fuel start end_ g) = g
  /\ snd (neighbors node g) = g
  /\ snd (nodes g) = g
  /\ snd (edges g) = g.
Proof.
  rewrite dijkstra_run, shortest_path_dijkstra_run, a_star_run.
  repeat split.
Qed.

(** ** Fuel: more of it never changes an outcome *)

Lemma res_bind_fuel {A B : Type} (r : res A) (k : A -> res B) :
  res_bind r k <> OutOfFuel ->
  r <> OutOfFuel /\ forall a, r = Ok a -> k a <> OutOfFuel.
Proof. destruct r; simpl; intros H; split; try congruence; intros a' E; congruence. Qed.

Lemma dict_item_fuel {V : Type} (d : dict V) k : dict_item d k <> OutOfFuel.
Proof. unfold dict_item. destruct (dict_get d k); discriminate. Qed.

Lemma heappop_res_fuel h : heappop_res h <> OutOfFuel.
Proof. unfold heappop_res. destruct (heappop h); discriminate. Qed.

Lemma fold_res_fuel {A S : Type} (body : S -> A -> res S) l :
  (forall s x, body s x <> OutOfFuel) -> forall s, fold_res l body s <> OutOfFuel.
Proof.
  intros Hb. induction l as [|x l IH]; intros s; simpl; [discriminate|].
  specialize (Hb s x). destruct (body s x); simpl; auto.
Qed.

Lemma relax_p_fuel u d st e : relax_p u d st e <> OutOfFuel.
Proof.
  destruct st as [[dist prev] pq]. unfold relax_p.
  pose proof (dict_item_fuel dist (to_node e)).
  destruct (dict_item dist (to_node e)) as [dv| |]; simpl; try congruence.
  destruct (_ <? dv)%float; discriminate.
Qed.

Lemma dstep_fuel g st : dstep g st <> OutOfFuel.
Proof.
  destruct st as [[dist prev] pq]. unfold dstep.
  pose proof (heappop_res_fuel pq).
  destruct (heappop_res pq) as [[[curr_d u] pq']| |]; simpl; try congruence.
  pose proof (dict_item_fuel dist u).
  destruct (dict_item dist u) as [du| |]; simpl; try congruence.
  destruct (du <? curr_d)%float; [discriminate|].
  apply fold_res_fuel. intros; apply relax_p_fuel.
Qed.

Lemma dloop_mono g n : forall m st,
  n <= m -> dloop g n st <> OutOfFuel -> dloop g m st = dloop g n st.
Proof.
  induction n as [|n IH]; intros m [[dist prev] pq] Hle Hn; simpl in *.
  - destruct pq; [|congruence]. destruct m; reflexivity.
  - destruct pq as [|x pq]; [destruct m; reflexivity|].
    destruct m as [|m]; [lia|]. simpl.
    destruct (dstep g (dist, prev, x :: pq)) as [st'| |]; simpl in *; auto.
    apply IH; [lia|assumption].
Qed.

Lemma reconstruct_mono cf start n : forall m cur path,
  n <= m -> reconstruct_loop n cf start cur path <> OutOfFuel ->
  reconstruct_loop m cf start cur path = reconstruct_loop n cf start cur path.
Proof.
  induction n as [|n IH]; intros m cur path Hle Hn; simpl in *.
  - destruct (String.eqb cur start) eqn:E; [|congruence].
    destruct m; simpl; now rewrite E.
  - destruct m as [|m]; [lia|]. simpl.
    destruct (String.eqb cur start); [reflexivity|].
    destruct (dict_get cf cur); [|reflexivity].
    apply IH; [lia|assumption].
Qed.

Lemma finish_p_mono n m start end_ dp :
  n <= m -> finish_p n start end_ dp <> OutOfFuel ->
  finish_p m start end_ dp = finish_p n start end_ dp.
Proof.
  intros Hle Hn. destruct dp as [dist prev]. unfold finish_p in *.
  destruct (negb _); [reflexivity|].
  destruct (dict_item dist end_) as [de| |]; simpl in *; auto.
  destruct (de =? inf)%float; [reflexivity|].
  rewrite (reconstruct_mono prev start n m); auto.
  intros E. rewrite E in Hn. simpl in Hn. congruence.
Qed.

Lemma shortest_path_dijkstra_mono g n m start end_ :
  n <= m -> shortest_path_dijkstra_p g n start end_ <> OutOfFuel ->
  shortest_path_dijkstra_p g m start end_ = shortest_path_dijkstra_p g n start end_.
Proof.
  intros Hle Hn. unfold shortest_path_dijkstra_p, dijkstra_p in *.
  destruct (negb _); [reflexivity|].
  apply res_bind_fuel in Hn as [H1 H2].
  rewrite (dloop_mono g n m) by assumption.
  destruct (dloop g n (dinit g start)) as [dp| |]; simpl; auto.
  apply finish_p_mono; auto.
Qed.

Section HeuristicFuel.
Variable hypot : float -> float -> float.

Lemma a_star_relax_p_fuel g goal current st e :
  a_star_relax_p hypot g goal current st e <> OutOfFuel.
Proof.
  destruct st as [[[open_set came_from] g_score] f_score]. unfold a_star_relax_p.
  pose proof (dict_item_fuel g_score current).
  destruct (dict_item g_score current) as [gc| |]; simpl; try congruence.
  pose proof (dict_item_fuel g_score (to_node e)).
  destruct (dict_item g_score (to_node e)) as [gn| |]; simpl; try congruence.
  destruct (_ <? gn)%float; discriminate.
Qed.

Lemma astep_fuel g goal current st : astep hypot g goal current st <> OutOfFuel.
Proof. apply fold_res_fuel. intros; apply a_star_relax_p_fuel. Qed.

Lemma aloop_mono g start goal n : forall m rn rm st,
  n <= m -> rn <= rm ->
  aloop hypot g n rn start goal st <> OutOfFuel ->
  aloop hypot g m rm start goal st = aloop hypot g n rn start goal st.
Proof.
  induction n as [|n IH];
    intros m rn rm [[[open_set came_from] g_score] f_score] Hle Hr Hn; simpl in *.
  - destruct open_set; [|congruence]. destruct m; reflexivity.
  - destruct open_set as [|x open_set]; [destruct m; reflexivity|].
    destruct m as [|m]; [lia|]. simpl.
    destruct (heappop_res (x :: open_set)) as [[[curr_f current] open']| |];
      simpl in *; auto.
    destruct (String.eqb current goal).
    + rewrite (reconstruct_mono came_from start rn rm); auto.
      intros E. rewrite E in Hn. simpl in Hn. congruence.
    + destruct (astep hypot g goal current _) as [st'| |]; simpl in *; auto.
      apply IH; auto. lia.
Qed.

Lemma a_star_mono g n m start goal :
  n <= m -> a_star_p hypot g n start goal <> OutOfFuel ->
  a_star_p hypot g m start goal = a_star_p hypot g n start goal.
Proof.
  intros Hle Hn. unfold a_star_p in *.
  destruct (_ || _); [reflexivity|]. now apply aloop_mono.
Qed.

End HeuristicFuel.

(** **** C2 *)

(** C2, as the claim states it, fails: on the sample graph the
    uniform-cost query from A to Z returns the cost 13.9, which is not
    within 1e-9 of 12.6. *)
Lemma C2_counterexample :
  exists c,
    shortest_path_dijkstra 10 "A" "Z" sample_graph
    = (Ok (["A"; "C"; "B"; "D"; "E"; "Z"], c), sample_graph)
    /\ (abs (c - 12.6) <=? 1e-9)%float = false.
Proof. exists 13.9%float. split; vm_compute; reflexivity. Qed.

(** C2, amended: on the graph built from the nine sample edges, both ways,
    the uniform-cost query from A to Z returns, with any fuel of at least
    10, the path A, C, B, D, E, Z and a cost that is the sum, in path
    order, of the effective weights on it, 2*1.2 + 1*1.0 + 5*1.1 + 2*1.0
    + 3*1.0, which is 13.9 within 1e-9 (and not 12.6). *)
Theorem C2_sample_cost_is_13_9 (fuel : nat) :
  10 <= fuel ->
  exists c,
    shortest_path_dijkstra fuel "A" "Z" sample_graph
    = (Ok (["A"; "C"; "B"; "D"; "E"; "Z"], c), sample_graph)
    /\ c = (zero + 2 * 1.2 + 1 * 1.0 + 5 * 1.1 + 2 * 1.0 + 3 * 1.0)%float
    /\ (abs (c - 13.9) <=? 1e-9)%float = true.
Proof.
  intros Hle. exists 13.9%float.
  split; [|split; vm_compute; reflexivity].
  rewrite shortest_path_dijkstra_run. f_equal.
  assert (E : shortest_path_dijkstra_p sample_graph 10 "A" "Z"
              = Ok (["A"; "C"; "B"; "D"; "E"; "Z"], 13.9%float))
    by (vm_compute; reflexivity).
  rewrite (shortest_path_dijkstra_mono sample_graph 10 fuel); rewrite ?E; auto.
  discriminate.
Qed.

Lemma C2_sample_cost_is_13_9_witness :
  exists c,
    shortest_path_dijkstra 12 "A" "Z" sample_graph
    = (Ok (["A"; "C"; "B"; "D"; "E"; "Z"], c), sample_graph)
    /\ c = (zero + 2 * 1.2 + 1 * 1.0 + 5 * 1.1 + 2 * 1.0 + 3 * 1.0)%float
    /\ (abs (c - 13.9) <=? 1e-9)%float = true.
Proof. apply (C2_sample_cost_is_13_9 12). lia. Defined.

(** **** C4 *)

Definition no_value_error {A : Type} (r : res A) : Prop :=
  forall m, r <> Raise (ValueError m).

Lemma res_bind_nve {A B : Type} (r : res A) (k : A -> res B) :
  no_value_error r -> (forall a, no_value_error (k a)) -> no_value_error (res_bind r k).
Proof.
  intros Hr Hk m. destruct r as [a|e|]; simpl.
  - apply Hk.
  - intros E. apply (Hr m). congruence.
  - discriminate.
Qed.

Lemma dict_item_nve {V : Type} (d : dict V) k : no_value_error (dict_item d k).
Proof. intros m. unfold dict_item. destruct (dict_get d k); discriminate. Qed.

Lemma heappop_res_nve h : no_value_error (heappop_res h).
Proof. intros m. unfold heappop_res. destruct (heappop h); discriminate. Qed.

Lemma Ok_nve {A : Type} (a : A) : no_value_error (Ok a).
Proof. intros m; discriminate. Qed.

Lemma fold_res_nve {A S : Type} (body : S -> A -> res S) l :
  (forall s x, no_value_error (body s x)) -> forall s, no_value_error (fold_res l body s).
Proof.
  intros Hb. induction l as [|x l IH]; intros s; simpl; [apply Ok_nve|].
  apply res_bind_nve; auto.
Qed.

Lemma relax_p_nve u d st e : no_value_error (relax_p u d st e).
Proof.
  destruct st as [[dist prev] pq]. unfold relax_p.
  apply res_bind_nve; [apply dict_item_nve|].
  intros dv. destruct (_ <? dv)%float; apply Ok_nve.
Qed.

Lemma dstep_nve g st : no_value_error (dstep g st).
Proof.
  destruct st as [[dist prev] pq]. unfold dstep.
  apply res_bind_nve; [apply heappop_res_nve|]. intros [[curr_d u] pq'].
  apply res_bind_nve; [apply dict_item_nve|]. intros du.
  destruct (du <? curr_d)%float; [apply Ok_nve|].
  apply fold_res_nve. intros; apply relax_p_nve.
Qed.

Lemma dloop_nve g fuel : forall st, no_value_error (dloop g fuel st).
Proof.
  induction fuel as [|fuel IH]; intros [[dist prev] pq]; simpl.
  - destruct pq; [apply Ok_nve|discriminate].
  - destruct pq; [apply Ok_nve|]. apply res_bind_nve; auto. apply dstep_nve.
Qed.

Lemma reconstruct_nve cf start fuel : forall cur path,
  no_value_error (reconstruct_loop fuel cf start cur path).
Proof.
  induction fuel as [|fuel IH]; intros cur path; simpl.
  - destruct (String.eqb cur start); [apply Ok_nve|discriminate].
  - destruct (String.eqb cur start); [apply Ok_nve|].
    destruct (dict_get cf cur); [apply IH|apply Ok_nve].
Qed.

Lemma finish_p_nve fuel start end_ dp : no_value_error (finish_p fuel start end_ dp).
Proof.
  destruct dp as [dist prev]. unfold finish_p.
  destruct (negb _); [apply Ok_nve|].
  apply res_bind_nve; [apply dict_item_nve|]. intros de.
  destruct (de =? inf)%float; [apply Ok_nve|].
  apply res_bind_nve; [apply reconstruct_nve|]. intros path.
  apply res_bind_nve; [apply dict_item_nve|]. intros; apply Ok_nve.
Qed.

Section HeuristicErrors.
Variable hypot : float -> float -> float.

Lemma a_star_relax_p_nve g goal current st e :
  no_value_error (a_star_relax_p hypot g goal current st e).
Proof.
  destruct st as [[[open_set came_from] g_score] f_score]. unfold a_star_relax_p.
  apply res_bind_nve; [apply dict_item_nve|]. intros gc.
  apply res_bind_nve; [apply dict_item_nve|]. intros gn.
  destruct (_ <? gn)%float; apply Ok_nve.
Qed.

Lemma aloop_nve g rfuel start goal fuel : forall st,
  no_value_error (aloop hypot g fuel rfuel start goal st).
Proof.
  induction fuel as [|fuel IH]; intros [[[open_set came_from] g_score] f_score]; simpl.
  - destruct open_set; [apply Ok_nve|discriminate].
  - destruct open_set; [apply Ok_nve|].
    apply res_bind_nve; [apply heappop_res_nve|]. intros [[curr_f current] open'].
    destruct (String.eqb current goal).
    + apply res_bind_nve; [apply reconstruct_nve|]. intros path.
      apply res_bind_nve; [apply dict_item_nve|]. intros; apply Ok_nve.
    + apply res_bind_nve; auto.
      apply fold_res_nve. intros; apply a_star_relax_p_nve.
Qed.

(** C4: a query whose start is not a known node fails, for both
    algorithms; the heuristic-guided one fails also when the goal is not a
    known node.  The code raises [ValueError] in all three cases (it has
    no exception class of its own per case).  In every other case neither
    algorithm raises this input-validation error. *)
Theorem C4_unknown_nodes_are_rejected (g : Graph) (fuel : nat) (start goal : string) :
  (dict_mem (adj g) start = false ->
     fst (dijkstra fuel start g)
       = Raise (ValueError ("Start node '" ++ start ++ "' not in graph."))
     /\ fst (shortest_path_dijkstra fuel start goal g)
       = Raise (ValueError ("Start node '" ++ start ++ "' not in graph."))
     /\ fst (a_star hypot fuel start goal g)
       = Raise (ValueError "Start or goal not in graph."))
  /\ (dict_mem (adj g) goal = false ->
     fst (a_star hypot fuel start goal g)
       = Raise (ValueError "Start or goal not in graph."))
  /\ (dict_mem (adj g) start = true ->
     no_value_error (fst (dijkstra fuel start g))
     /\ no_value_error (fst (shortest_path_dijkstra fuel start goal g)))
  /\ (dict_mem (adj g) start = true -> dict_mem (adj g) goal = true ->
     no_value_error (fst (a_star hypot fuel start goal g))).
Proof.
  rewrite dijkstra_run, shortest_path_dijkstra_run, a_star_run. simpl.
  unfold shortest_path_dijkstra_p, dijkstra_p, a_star_p.
  split; [|split; [|split]].
  - intros H. rewrite H. simpl. auto.
  - intros H. rewrite H. now rewrite orb_true_r.
  - intros H. rewrite H. simpl. split; [apply dloop_nve|].
    apply res_bind_nve; [apply dloop_nve|].
    intros dp. apply finish_p_nve.
  - intros H H0. rewrite H, H0. simpl. apply aloop_nve.
Qed.

End HeuristicErrors.

Lemma C4_unknown_nodes_are_rejected_witness :
  fst (dijkstra 10 "Q" sample_graph)
    = Raise (ValueError "Start node 'Q' not in graph.")
  /\ fst (shortest_path_dijkstra 10 "Q" "Z" sample_graph)
    = Raise (ValueError "Start node 'Q' not in graph.")
  /\ fst (a_star hypot_sqrt 10 "Q" "Z" sample_graph)
    = Raise (ValueError "Start or goal not in graph.").
Proof.
  apply (proj1 (C4_unknown_nodes_are_rejected hypot_sqrt sample_graph 10 "Q" "Z")).
  reflexivity.
Defined.

(** ** The order of binary64 numbers

    [fkey] sends a float that is not a NaN to an integer in [0, 2^65] so
    that [<?] and [=?] on floats are [<] and [=] on the integers. *)

Definition key_top : Z := 2 ^ 64.

Definition mag (m : positive) (e : Z) : Z := (e + 1074) * 2 ^ 53 + Zpos m.

Definition sf_key (x : spec_float) : Z :=
  match x with
  | S754_nan => 0
  | S754_infinity true => 0
  | S754_infinity false => 2 * key_top
  | S754_zero _ => key_top
  | S754_finite true m e => key_top - mag m e
  | S754_finite false m e => key_top + mag m e
  end.

Definition fkey (x : float) : Z := sf_key (Prim2SF x).

Definition fnan (x : float) : Prop := Prim2SF x = S754_nan.

Lemma digits2_pos_bound m : (Zpos m < 2 ^ Zpos (digits2_pos m))%Z.
Proof.
  induction m as [m IH|m IH|]; cbn [digits2_pos].
  - rewrite Pos2Z.inj_succ, Z.pow_succ_r by lia. lia.
  - rewrite Pos2Z.inj_succ, Z.pow_succ_r by lia. lia.
  - reflexivity.
Qed.

Lemma bounded_mag m e :
  bounded prec emax m e = true -> (0 < mag m e < key_top)%Z /\ (Zpos m < 2 ^ 53)%Z.
Proof.
  unfold bounded, canonical_mantissa, fexp, SpecFloat.emin, prec, emax, mag, key_top.
  intros H. apply andb_true_iff in H as [H1 H2].
  apply Z.eqb_eq in H1. apply Z.leb_le in H2.
  assert (D : (Zpos (digits2_pos m) <= 53)%Z) by lia.
  assert (M : (Zpos m < 2 ^ 53)%Z).
  { eapply Z.lt_le_trans; [apply digits2_pos_bound|].
    apply Z.pow_le_mono_r; lia. }
  assert (E : (-1074 <= e <= 971)%Z) by lia.
  change (2 ^ 64)%Z with (2048 * 2 ^ 53)%Z.
  assert (P : (0 < 2 ^ 53)%Z) by reflexivity.
  split; [|exact M]. nia.
Qed.

Ltac compare_by_lia :=
  f_equal; symmetry;
  first [ apply Z.compare_refl
        | apply Z.compare_lt_iff; lia
        | apply Z.compare_gt_iff; lia ].

Lemma SFcompare_finite sx sy mx my ex ey :
  (0 < mag mx ex < key_top)%Z -> (Zpos mx < 2 ^ 53)%Z ->
  (0 < mag my ey < key_top)%Z -> (Zpos my < 2 ^ 53)%Z ->
  SFcompare (S754_finite sx mx ex) (S754_finite sy my ey)
  = Some (Z.compare (sf_key (S754_finite sx mx ex)) (sf_key (S754_finite sy my ey))).
Proof.
  intros Vx Mx Vy My.
  assert (P : (0 < 2 ^ 53)%Z) by reflexivity.
  unfold sf_key, SFcompare, mag in *.
  rewrite Pos.compare_cont_spec. cbn [Pos.switch_Eq].
  change (Pos.compare mx my) with (Z.compare (Zpos mx) (Zpos my)).
  destruct sx, sy; [| compare_by_lia | compare_by_lia |].
  - destruct (Z.compare_spec ex ey) as [->|L|L].
    + destruct (Z.compare_spec (Zpos mx) (Zpos my)) as [E|L|L]; cbn [CompOpp].
      * rewrite E. compare_by_lia.
      * compare_by_lia.
      * compare_by_lia.
    + f_equal; symmetry. apply Z.compare_gt_iff. nia.
    + f_equal; symmetry. apply Z.compare_lt_iff. nia.
  - destruct (Z.compare_spec ex ey) as [->|L|L].
    + destruct (Z.compare_spec (Zpos mx) (Zpos my)) as [E|L|L].
      * rewrite E. compare_by_lia.
      * compare_by_lia.
      * compare_by_lia.
    + f_equal; symmetry. apply Z.compare_lt_iff. nia.
    + f_equal; symmetry. apply Z.compare_gt_iff. nia.
Qed.

Lemma SFcompare_key x y :
  valid_binary x = true -> valid_binary y = true ->
  x <> S754_nan -> y <> S754_nan ->
  SFcompare x y = Some (Z.compare (sf_key x) (sf_key y)).
Proof.
  intros Vx Vy Nx Ny.
  assert (T : (0 < key_top)%Z) by reflexivity.
  destruct x as [sx|sx| |sx mx ex]; [| |congruence|];
    destruct y as [sy|sy| |sy my ey]; try congruence;
    cbn [valid_binary] in Vx, Vy;
    try (apply bounded_mag in Vx as [Vx Mx]);
    try (apply bounded_mag in Vy as [Vy My]);
    try (now apply SFcompare_finite);
    try destruct sx; try destruct sy; cbn [sf_key SFcompare]; compare_by_lia.
Qed.

Lemma fkey_range x : (0 <= fkey x <= 2 * key_top)%Z.
Proof.
  unfold fkey. pose proof (Prim2SF_valid x) as V.
  assert (T : (0 < key_top)%Z) by reflexivity.
  destruct (Prim2SF x) as [s|s| |s m e]; cbn [sf_key valid_binary] in *.
  - lia.
  - destruct s; lia.
  - lia.
  - apply bounded_mag in V as [V _]. destruct s; lia.
Qed.

Lemma SFcompare_float x y :
  Prim2SF x <> S754_nan -> Prim2SF y <> S754_nan ->
  SFcompare (Prim2SF x) (Prim2SF y) = Some (Z.compare (fkey x) (fkey y)).
Proof.
  intros Nx Ny. apply SFcompare_key; auto using Prim2SF_valid.
Qed.

Lemma SFcompare_nan x y :
  x = S754_nan \/ y = S754_nan -> SFcompare x y = None.
Proof. intros [->| ->]; [reflexivity|]. now destruct x. Qed.

Lemma sf_nan_dec (x : spec_float) : {x = S754_nan} + {x <> S754_nan}.
Proof. destruct x; (now left) || (right; discriminate). Qed.

Lemma ltb_true_iff x y :
  (x <? y)%float = true <-> ~ fnan x /\ ~ fnan y /\ (fkey x < fkey y)%Z.
Proof.
  rewrite ltb_spec. unfold SFltb, fnan.
  destruct (sf_nan_dec (Prim2SF x)) as [Nx|Nx].
  { rewrite SFcompare_nan by auto. split; [discriminate|tauto]. }
  destruct (sf_nan_dec (Prim2SF y)) as [Ny|Ny].
  { rewrite SFcompare_nan by auto. split; [discriminate|tauto]. }
  rewrite SFcompare_float by assumption.
  destruct (Z.compare_spec (fkey x) (fkey y)) as [E|E|E]; split; intros H;
    try discriminate; try reflexivity; try tauto; lia.
Qed.

Lemma eqb_true_iff x y :
  (x =? y)%float = true <-> ~ fnan x /\ ~ fnan y /\ fkey x = fkey y.
Proof.
  rewrite eqb_spec. unfold SFeqb, fnan.
  destruct (sf_nan_dec (Prim2SF x)) as [Nx|Nx].
  { rewrite SFcompare_nan by auto. split; [discriminate|tauto]. }
  destruct (sf_nan_dec (Prim2SF y)) as [Ny|Ny].
  { rewrite SFcompare_nan by auto. split; [discriminate|tauto]. }
  rewrite SFcompare_float by assumption.
  destruct (Z.compare_spec (fkey x) (fkey y)) as [E|E|E]; split; intros H;
    try discriminate; try reflexivity; try tauto; lia.
Qed.

Lemma ltb_false_iff x y :
  ~ fnan x -> ~ fnan y -> ((x <? y)%float = false <-> (fkey y <= fkey x)%Z).
Proof.
  intros Nx Ny. pose proof (ltb_true_iff x y) as H.
  destruct (x <? y)%float; split; intros K; try reflexivity; try discriminate.
  - destruct (proj1 H eq_refl) as (_ & _ & L). lia.
  - destruct (Z.le_gt_cases (fkey y) (fkey x)); [assumption|].
    enough (false = true) by discriminate. apply H. auto.
Qed.

Lemma fnan_dec x : {fnan x} + {~ fnan x}.
Proof. apply sf_nan_dec. Qed.

Lemma inf_not_nan : ~ fnan inf.
Proof. unfold fnan. vm_compute. discriminate. Qed.

Lemma zero_not_nan : ~ fnan zero.
Proof. unfold fnan. vm_compute. discriminate. Qed.

Lemma fkey_inf : fkey inf = (2 * key_top)%Z.
Proof. reflexivity. Qed.

Lemma fkey_zero : fkey zero = key_top.
Proof. reflexivity. Qed.

(** ** heapq keeps the elements *)

Section UpdFacts.
Context {A : Type}.
Implicit Types (l : list A) (x d : A).

Lemma upd_length l i x : List.length (upd l i x) = List.length l.
Proof.
  revert i. induction l as [|a l IH]; intros [|i]; simpl; auto.
Qed.

Lemma nth_upd_same l i x d : i < List.length l -> nth i (upd l i x) d = x.
Proof.
  revert i. induction l as [|a l IH]; intros [|i] H; simpl in *; try lia; auto.
  apply IH. lia.
Qed.

Lemma nth_upd_other l i j x d : i <> j -> nth j (upd l i x) d = nth j l d.
Proof.
  revert i j. induction l as [|a l IH]; intros [|i] [|j] H; simpl; auto; try lia.
Qed.

Lemma upd_perm l i x d :
  i < List.length l -> Permutation (nth i l d :: upd l i x) (x :: l).
Proof.
  revert i. induction l as [|a l IH]; intros [|i] H; simpl in *; try lia.
  - apply perm_swap.
  - rewrite perm_swap. rewrite (IH i) by lia. apply perm_swap.
Qed.

End UpdFacts.

Lemma siftdown_loop_perm fuel : forall heap startpos pos newitem,
  pos < List.length heap ->
  Permutation (nth pos heap item0 :: siftdown_loop fuel heap startpos pos newitem)
              (newitem :: heap).
Proof.
  induction fuel as [|fuel IH]; intros heap startpos pos newitem Hpos;
    cbn [siftdown_loop].
  - now apply upd_perm.
  - destruct (startpos <? pos)%nat eqn:Hs; [|now apply upd_perm].
    apply Nat.ltb_lt in Hs.
    set (parentpos := ((pos - 1) / 2)%nat).
    assert (Hp : parentpos < pos).
    { unfold parentpos. apply Nat.Div0.div_lt_upper_bound. lia. }
    destruct (item_lt newitem (nth parentpos heap item0)); [|now apply upd_perm].
    set (parent := nth parentpos heap item0).
    specialize (IH (upd heap pos parent) startpos parentpos newitem).
    rewrite upd_length in IH. specialize (IH ltac:(lia)).
    rewrite nth_upd_other in IH by lia. fold parent in IH.
    pose proof (upd_perm heap pos parent item0 Hpos) as U.
    apply (Permutation_cons_inv (a := parent)).
    rewrite perm_swap, IH, perm_swap, U. apply perm_swap.
Qed.

Lemma siftdown_perm heap startpos pos :
  pos < List.length heap -> Permutation (siftdown heap startpos pos) heap.
Proof.
  intros H. unfold siftdown.
  apply (Permutation_cons_inv (a := nth pos heap item0)).
  now apply siftdown_loop_perm.
Qed.

Lemma siftup_loop_perm fuel : forall heap pos,
  pos < List.length heap ->
  let '(h1, p1) := siftup_loop fuel heap (List.length heap) pos in
  p1 < List.length h1 /\ List.length h1 = List.length heap
  /\ forall x, Permutation (nth pos heap item0 :: upd h1 p1 x) (x :: heap).
Proof.
  induction fuel as [|fuel IH]; intros heap pos Hpos; cbn [siftup_loop].
  - repeat split; auto. intros x. now apply upd_perm.
  - destruct (2 * pos + 1 <? List.length heap)%nat eqn:Hc.
    2: { repeat split; auto. intros x. now apply upd_perm. }
    apply Nat.ltb_lt in Hc.
    set (childpos :=
           if ((2 * pos + 1 + 1 <? List.length heap)%nat
               && negb (item_lt (nth (2 * pos + 1) heap item0)
                                (nth (2 * pos + 1 + 1) heap item0)))%bool
           then (2 * pos + 1 + 1)%nat else (2 * pos + 1)%nat).
    assert (Hch : childpos < List.length heap /\ pos < childpos).
    { unfold childpos.
      destruct (2 * pos + 1 + 1 <? List.length heap)%nat eqn:Hr; cbn [andb].
      - apply Nat.ltb_lt in Hr. destruct (negb _); lia.
      - lia. }
    destruct Hch as [Hch1 Hch2].
    set (c := nth childpos heap item0).
    specialize (IH (upd heap pos c) childpos).
    rewrite upd_length in IH. specialize (IH Hch1).
    destruct (siftup_loop fuel (upd heap pos c) (List.length heap) childpos) as [h1 p1].
    destruct IH as (I1 & I2 & I3). repeat split; auto.
    intros x. specialize (I3 x). rewrite nth_upd_other in I3 by lia. fold c in I3.
    pose proof (upd_perm heap pos c item0 Hpos) as U.
    apply (Permutation_cons_inv (a := c)).
    rewrite perm_swap, I3, perm_swap, U. apply perm_swap.
Qed.

Lemma siftup_perm heap pos :
  pos < List.length heap -> Permutation (siftup heap pos) heap.
Proof.
  intros H. unfold siftup.
  pose proof (siftup_loop_perm (List.length heap) heap pos H) as L.
  destruct (siftup_loop _ heap _ pos) as [h1 p1].
  destruct L as (L1 & L2 & L3).
  rewrite siftdown_perm by (rewrite upd_length; exact L1).
  apply (Permutation_cons_inv (a := nth pos heap item0)). apply L3.
Qed.

Lemma heappush_perm heap x : Permutation (heappush heap x) (x :: heap).
Proof.
  unfold heappush. rewrite siftdown_perm.
  - rewrite Permutation_app_comm. reflexivity.
  - rewrite length_app. simpl. lia.
Qed.

Lemma heappop_perm heap x heap' :
  heappop heap = Some (x, heap') -> Permutation heap (x :: heap').
Proof.
  unfold heappop. destruct heap as [|a heap]; [discriminate|].
  assert (N : a :: heap <> []) by discriminate.
  pose proof (app_removelast_last item0 N) as E.
  destruct (removelast (a :: heap)) as [|r rest]; intros H; inversion H; subst.
  - rewrite E. reflexivity.
  - rewrite E at 1. rewrite siftup_perm by (simpl; lia).
    simpl. apply perm_skip. rewrite Permutation_app_comm. reflexivity.
Qed.

Lemma heappop_some heap : heap <> [] -> exists x heap', heappop heap = Some (x, heap').
Proof.
  unfold heappop. destruct heap as [|a heap]; [congruence|]. intros _.
  destruct (removelast (a :: heap)); eauto.
Qed.

Lemma heappush_length heap x : List.length (heappush heap x) = S (List.length heap).
Proof. now rewrite (Permutation_length (heappush_perm heap x)). Qed.

Lemma heappop_length heap x heap' :
  heappop heap = Some (x, heap') -> List.length heap = S (List.length heap').
Proof. intros H. now rewrite (Permutation_length (heappop_perm _ _ _ H)). Qed.

Lemma heappush_In heap x y : In y (heappush heap x) <-> y = x \/ In y heap.
Proof.
  split; intros H.
  - apply (Permutation_in _ (heappush_perm heap x)) in H. simpl in H. intuition.
  - apply (Permutation_in _ (Permutation_sym (heappush_perm heap x))).
    simpl. intuition.
Qed.

Lemma heappop_In heap x heap' y :
  heappop heap = Some (x, heap') -> (In y heap <-> y = x \/ In y heap').
Proof.
  intros H. pose proof (heappop_perm _ _ _ H) as P. split; intros K.
  - apply (Permutation_in _ P) in K. simpl in K. intuition.
  - apply (Permutation_in _ (Permutation_sym P)). simpl. intuition.
Qed.

(** ** Loops over the edges of a node *)

Lemma fold_res_inv {A S : Type} (I : S -> Prop) (body : S -> A -> res S) l :
  (forall s x, In x l -> I s -> exists s', body s x = Ok s' /\ I s') ->
  forall s, I s -> exists s', fold_res l body s = Ok s' /\ I s'.
Proof.
  induction l as [|x l IH]; intros Hb s Hs; simpl.
  - eauto.
  - destruct (Hb s x (or_introl eq_refl) Hs) as (s1 & E & H1). rewrite E. simpl.
    apply IH; auto. intros s0 y Hy. apply Hb. now right.
Qed.

Lemma nbrs_In g u e :
  In e (nbrs g u) -> exists es, In (u, es) (adj g) /\ In e es.
Proof.
  unfold nbrs. destruct (dict_get (adj g) u) as [es|] eqn:E; [|intros []].
  intros H. exists es. split; auto. now apply dict_get_In.
Qed.

Lemma nbrs_known g u e :
  endpoints_known g -> In e (nbrs g u) -> dict_mem (adj g) (to_node e) = true.
Proof.
  intros K H. apply nbrs_In in H as (es & H1 & H2).
  exact (proj2 (K u es H1) e H2).
Qed.

(** ** The loops stop *)

Definition fsum (d : dict float) : Z :=
  fold_right (fun kv acc => (fkey (snd kv) + acc)%Z) 0%Z d.

Lemma fsum_nonneg d : (0 <= fsum d)%Z.
Proof.
  induction d as [|[k x] d IH]; simpl; [lia|].
  pose proof (fkey_range x). lia.
Qed.

Lemma fsum_set d k x old :
  dict_get d k = Some old ->
  fsum (dict_set d k x) = (fsum d - fkey old + fkey x)%Z.
Proof.
  induction d as [|[k' x'] d IH]; simpl; [discriminate|].
  destruct (String.eqb k' k); simpl; intros H.
  - inversion H; subst. lia.
  - rewrite IH by assumption. lia.
Qed.

Definition dmu (st : dstate) : Z :=
  (2 * fsum (fst (fst st)) + Z.of_nat (List.length (snd st)))%Z.

Lemma dmu_nonneg st : (0 <= dmu st)%Z.
Proof. unfold dmu. pose proof (fsum_nonneg (fst (fst st))). lia. Qed.

(** Reachability along stored edges. *)
Inductive reach (g : Graph) (s : string) : string -> Prop :=
| reach_refl : reach g s s
| reach_step u e : reach g s u -> In e (nbrs g u) -> reach g s (to_node e).

Lemma ltb_trans x y z :
  (x <? y)%float = true -> (y <? z)%float = true -> (x <? z)%float = true.
Proof.
  rewrite !ltb_true_iff. intros (A1 & A2 & A3) (B1 & B2 & B3).
  repeat split; auto. lia.
Qed.

(** What holds of the state of [dijkstra] on every graph: the distance
    map has the nodes as keys and no NaN; a queue entry is for a known,
    reachable node that is the start or has a predecessor, and its key is
    the node's distance or above it; a distance other than [inf] belongs
    to a reachable node that is the start or has a predecessor. *)
Record dbase (g : Graph) (start : string) (st : dstate) : Prop := {
  db_keys : forall k, dict_mem (fst (fst st)) k = dict_mem (adj g) k;
  db_pq : forall x, In x (snd st) ->
            dict_mem (adj g) (snd x) = true /\ reach g start (snd x);
  db_dist : forall v d, dict_get (fst (fst st)) v = Some d ->
              d = inf \/ reach g start v;
  db_nan : forall v d, dict_get (fst (fst st)) v = Some d -> ~ fnan d;
  db_ent : forall k u, In (k, u) (snd st) ->
             exists du, dict_get (fst (fst st)) u = Some du
                        /\ (du = k \/ (du <? k)%float = true);
  db_par : forall x, In x (snd st) ->
             snd x = start \/ dict_mem (snd (fst st)) (snd x) = true;
  db_fin : forall v d, dict_get (fst (fst st)) v = Some d ->
             d = inf \/ v = start \/ dict_mem (snd (fst st)) v = true
}.

Lemma relax_p_cases u curr_d dist prev pq e st' :
  relax_p u curr_d (dist, prev, pq) e = Ok st' ->
  exists dv, dict_get dist (to_node e) = Some dv /\
    let nd := (curr_d + effective_weight e)%float in
    ((nd <? dv)%float = true
     /\ st' = (dict_set dist (to_node e) nd, dict_set prev (to_node e) u,
               heappush pq (nd, to_node e)))
    \/ ((nd <? dv)%float = false /\ st' = (dist, prev, pq)).
Proof.
  unfold relax_p, dict_item.
  destruct (dict_get dist (to_node e)) as [dv|]; simpl; [|discriminate].
  intros H. exists dv. split; [reflexivity|].
  destruct (_ <? dv)%float; inversion H; auto.
Qed.

Lemma relax_p_base g start u curr_d st e (c : Z) :
  endpoints_known g -> reach g start u -> In e (nbrs g u) ->
  dbase g start st /\ (dmu st <= c)%Z ->
  exists st', relax_p u curr_d st e = Ok st'
              /\ (dbase g start st' /\ (dmu st' <= c)%Z).
Proof.
  intros K Hu He [[B1 B2 B3 B4 B5 B6 B7] Hc]. destruct st as [[dist prev] pq].
  cbn [fst snd] in *.
  pose proof (nbrs_known g u e K He) as Hv. rewrite <- B1 in Hv.
  apply dict_mem_true in Hv as [dv Hv].
  unfold relax_p, dict_item. rewrite Hv. simpl.
  destruct (_ <? dv)%float eqn:L.
  - eexists. split; [reflexivity|]. split; [constructor|]; cbn [fst snd].
    + intros k. rewrite dict_mem_set, B1.
      destruct (String.eqb_spec (to_node e) k) as [<-|]; auto.
      simpl. symmetry. now apply nbrs_known with (u := u).
    + intros x Hx. apply heappush_In in Hx as [->|Hx]; auto. simpl.
      split; [now apply nbrs_known with (u := u)|].
      now apply reach_step with (u := u).
    + intros v d. rewrite dict_get_set.
      destruct (String.eqb_spec (to_node e) v) as [<-|]; [|apply B3].
      intros _. right. now apply reach_step with (u := u).
    + intros v d. rewrite dict_get_set.
      destruct (String.eqb_spec (to_node e) v) as [<-|]; [|apply B4].
      intros H; inversion H; subst. now apply ltb_true_iff in L.
    + intros k x Hx. rewrite dict_get_set.
      apply heappush_In in Hx as [Hx|Hx].
      * inversion Hx; subst. rewrite String.eqb_refl. eauto.
      * destruct (B5 _ _ Hx) as (dx & Hdx & Hk).
        destruct (String.eqb_spec (to_node e) x) as [<-|]; [|eauto].
        eexists. split; [reflexivity|]. right.
        rewrite Hv in Hdx. inversion Hdx; subst dx.
        destruct Hk as [<-|Hk]; [assumption|]. now apply ltb_trans with (y := dv).
    + intros x Hx. rewrite dict_mem_set.
      apply heappush_In in Hx as [->|Hx].
      * simpl. rewrite String.eqb_refl. auto.
      * destruct (B6 _ Hx) as [H|H]; auto. rewrite H. right. apply orb_true_r.
    + intros v d. rewrite dict_get_set, dict_mem_set.
      destruct (String.eqb_spec (to_node e) v) as [<-|]; [auto|].
      intros H. destruct (B7 _ _ H) as [H1|[H1|H1]]; auto.
    + unfold dmu in *. cbn [fst snd] in *.
      rewrite (fsum_set _ _ _ dv Hv), heappush_length.
      apply ltb_true_iff in L as (_ & _ & L). lia.
  - eexists. split; [reflexivity|]. split; [constructor|]; auto.
Qed.

Lemma dstep_cases g dist prev pq st' :
  dstep g (dist, prev, pq) = Ok st' ->
  exists curr_d u pq' du,
    heappop pq = Some ((curr_d, u), pq') /\ dict_get dist u = Some du
    /\ (((du <? curr_d)%float = true /\ st' = (dist, prev, pq'))
        \/ ((du <? curr_d)%float = false
            /\ fold_res (nbrs g u) (relax_p u curr_d) (dist, prev, pq') = Ok st')).
Proof.
  unfold dstep, heappop_res, dict_item.
  destruct (heappop pq) as [[[curr_d u] pq']|]; simpl; [|discriminate].
  destruct (dict_get dist u) as [du|] eqn:Hd; simpl; [|discriminate].
  intros H. exists curr_d, u, pq', du. split; [reflexivity|]. split; [assumption|].
  destruct (du <? curr_d)%float; [left|right]; split; auto. now inversion H.
Qed.

Lemma dbase_pop g start dist prev pq x pq' :
  dbase g start (dist, prev, pq) -> heappop pq = Some (x, pq') ->
  dbase g start (dist, prev, pq').
Proof.
  intros [B1 B2 B3 B4 B5 B6 B7] Hpop. constructor; cbn [fst snd] in *; auto.
  - intros y Hy. apply B2. apply (heappop_In _ _ _ _ Hpop). now right.
  - intros k u Hy. apply B5. apply (heappop_In _ _ _ _ Hpop). now right.
  - intros y Hy. apply B6. apply (heappop_In _ _ _ _ Hpop). now right.
Qed.

Lemma dstep_base g start st :
  endpoints_known g -> dbase g start st -> snd st <> [] ->
  exists st', dstep g st = Ok st' /\ dbase g start st' /\ (dmu st' < dmu st)%Z.
Proof.
  intros K B Hne. destruct st as [[dist prev] pq]. simpl in Hne.
  destruct (heappop_some pq Hne) as ([curr_d u] & pq' & Hpop).
  unfold dstep, heappop_res. rewrite Hpop. simpl.
  pose proof (dbase_pop _ _ _ _ _ _ _ B Hpop) as B'.
  destruct B as [B1 B2 B3 B4 B5 B6 B7]. cbn [fst snd] in *.
  assert (Hin : In (curr_d, u) pq) by (apply (heappop_In _ _ _ _ Hpop); now left).
  destruct (B2 _ Hin) as [Hk Hr]. simpl in *.
  pose proof Hk as Hd. rewrite <- B1 in Hd. apply dict_mem_true in Hd as [du Hd].
  unfold dict_item. rewrite Hd. simpl.
  pose proof (heappop_length _ _ _ Hpop) as Hlen.
  assert (M' : (dmu (dist, prev, pq') <= dmu (dist, prev, pq) - 1)%Z).
  { unfold dmu; cbn [fst snd]. lia. }
  destruct (du <? curr_d)%float.
  - eexists. split; [reflexivity|]. split; [assumption|lia].
  - destruct (fold_res_inv
                (fun s => dbase g start s /\ (dmu s <= dmu (dist, prev, pq) - 1)%Z)
                (relax_p u curr_d) (nbrs g u)) with (s := (dist, prev, pq'))
      as (st' & E & H1 & H2).
    + intros s x Hx Hs. now apply relax_p_base.
    + auto.
    + exists st'. split; [assumption|]. split; [assumption|lia].
Qed.

(** With fuel above the measure the loop of [dijkstra] ends, on a state
    that satisfies whatever the turns of the loop keep. *)
Lemma dloop_total g start (I : dstate -> Prop) :
  endpoints_known g ->
  (forall st st', dbase g start st -> I st -> snd st <> [] ->
                  dstep g st = Ok st' -> I st') ->
  forall fuel st,
    dbase g start st -> I st -> (dmu st < Z.of_nat fuel)%Z ->
    exists dist prev,
      dloop g fuel st = Ok (dist, prev)
      /\ dbase g start (dist, prev, []) /\ I (dist, prev, []).
Proof.
  intros K Hstep. induction fuel as [|fuel IH]; intros st B HI Hmu.
  - pose proof (dmu_nonneg st). lia.
  - destruct st as [[dist prev] pq]. simpl.
    destruct pq as [|x pq]; [exists dist, prev; auto|].
    destruct (dstep_base g start (dist, prev, x :: pq) K B) as (st' & E & B' & M);
      [discriminate|].
    rewrite E. simpl. apply IH; auto.
    + apply (Hstep _ _ B HI); [discriminate|exact E].
    + lia.
Qed.

Lemma dinit_base g start :
  dict_mem (adj g) start = true -> dbase g start (dinit g start).
Proof.
  intros Hs. unfold dinit. constructor; cbn [fst snd].
  - intros k. rewrite dict_mem_set, dict_mem_const.
    destruct (String.eqb_spec start k) as [<-|]; simpl; auto.
  - intros x [<-|[]]. simpl. split; auto. constructor.
  - intros v d. rewrite dict_get_set.
    destruct (String.eqb_spec start v) as [<-|].
    + intros _. right. constructor.
    + rewrite dict_get_const. destruct (dict_mem (adj g) v); [|discriminate].
      intros H; inversion H; auto.
  - intros v d. rewrite dict_get_set, dict_get_const.
    destruct (String.eqb start v); [|destruct (dict_mem (adj g) v)];
      intros H; inversion H; subst; auto using inf_not_nan, zero_not_nan.
  - intros k u [H|[]]. inversion H; subst.
    rewrite dict_get_set_same. eauto.
  - intros x [<-|[]]. auto.
  - intros v d. rewrite dict_get_set.
    destruct (String.eqb_spec start v) as [<-|]; [auto|].
    rewrite dict_get_const. destruct (dict_mem (adj g) v); [|discriminate].
    intros H; inversion H; auto.
Qed.

(** The fuel that is enough for [dijkstra] from [start]. *)
Definition dijkstra_fuel (g : Graph) (start : string) : nat :=
  S (Z.to_nat (dmu (dinit g start))).

Lemma dijkstra_p_total g start (I : dstate -> Prop) fuel :
  endpoints_known g -> dict_mem (adj g) start = true ->
  (forall st st', dbase g start st -> I st -> snd st <> [] ->
                  dstep g st = Ok st' -> I st') ->
  I (dinit g start) ->
  dijkstra_fuel g start <= fuel ->
  exists dist prev,
    dijkstra_p g fuel start = Ok (dist, prev)
    /\ dbase g start (dist, prev, []) /\ I (dist, prev, []).
Proof.
  intros K Hs Hstep H0 Hf. unfold dijkstra_p. rewrite Hs. simpl.
  apply (dloop_total g start I K Hstep); auto.
  - now apply dinit_base.
  - unfold dijkstra_fuel in Hf. pose proof (dmu_nonneg (dinit g start)). lia.
Qed.

(** **** C5 *)

Lemma unreachable_end g start end_ fuel :
  endpoints_known g -> dict_mem (adj g) start = true ->
  ~ reach g start end_ ->
  dijkstra_fuel g start <= fuel ->
  shortest_path_dijkstra_p g fuel start end_ = Ok ([], inf).
Proof.
  intros K Hs Hun Hf. unfold shortest_path_dijkstra_p.
  destruct (dijkstra_p_total g start (fun _ => True) fuel K Hs) as
    (dist & prev & E & [B1 B2 B3 B4 B5 B6 B7] & _); auto.
  rewrite E. simpl in *.
  destruct (dict_mem dist end_) eqn:M; simpl; [|reflexivity].
  apply dict_mem_true in M as [de M]. unfold dict_item. rewrite M. simpl.
  destruct (B3 _ _ M) as [->|R]; [reflexivity|contradiction].
Qed.

(** C5: on a graph whose edge endpoints are known nodes (every graph the
    class builds, see C8) and for a known start, the uniform-cost point
    query to an end that no chain of stored edges reaches from the start,
    a known node or not, returns [([], inf)], raises nothing and leaves
    the graph as it was: with any fuel from [dijkstra_fuel] on, and with
    any fuel that does not run out. *)
Theorem C5_unreachable_end_is_a_result g start end_ fuel :
  endpoints_known g -> dict_mem (adj g) start = true ->
  ~ reach g start end_ ->
  dijkstra_fuel g start <= fuel
  \/ fst (shortest_path_dijkstra fuel start end_ g) <> OutOfFuel ->
  shortest_path_dijkstra fuel start end_ g = (Ok ([], inf), g).
Proof.
  intros K Hs Hun Hf. rewrite shortest_path_dijkstra_run in *. f_equal.
  destruct Hf as [Hf|Hf]; [now apply unreachable_end|].
  simpl in Hf.
  rewrite <- (shortest_path_dijkstra_mono g fuel (Nat.max fuel (dijkstra_fuel g start)))
    by (auto; lia).
  apply unreachable_end; auto. lia.
Qed.

(** To show a node unreachable: a set of nodes that holds the start and is
    closed under the stored edges holds every reachable node. *)
Lemma reach_closed g s (P : string -> bool) v :
  P s = true ->
  forallb (fun ues => negb (P (fst ues)) || forallb (fun e => P (to_node e)) (snd ues))
          (adj g) = true ->
  reach g s v -> P v = true.
Proof.
  intros Hs Hc R. induction R as [|u e R IH He]; auto.
  apply nbrs_In in He as (es & H1 & H2).
  rewrite forallb_forall in Hc. specialize (Hc _ H1). simpl in Hc.
  rewrite IH in Hc. simpl in Hc. rewrite forallb_forall in Hc. auto.
Qed.

Lemma sample_graph_known : endpoints_known sample_graph.
Proof. apply endpoints_known_load. intros u es []. Qed.

(** The sample graph with one more node, which no edge reaches. *)
Definition sample_graph_island : Graph := snd (add_node "X" None sample_graph).

Lemma sample_graph_island_known : endpoints_known sample_graph_island.
Proof.
  apply (endpoints_known_adj (mkGraph (ensure_node (adj sample_graph) "X")
                                      (coords sample_graph))).
  - apply add_node_adj.
  - apply endpoints_known_ensure. apply sample_graph_known.
Qed.

Lemma island_unreachable : ~ reach sample_graph_island "A" "X".
Proof.
  intros R.
  apply (reach_closed _ _ (fun v => negb (String.eqb v "X"))) in R;
    [discriminate|reflexivity|vm_compute; reflexivity].
Qed.

Lemma C5_unreachable_end_is_a_result_witness :
  shortest_path_dijkstra 12 "A" "X" sample_graph_island
  = (Ok ([], inf), sample_graph_island).
Proof.
  apply (C5_unreachable_end_is_a_result sample_graph_island "A" "X" 12).
  - apply sample_graph_island_known.
  - reflexivity.
  - apply island_unreachable.
  - right. vm_compute. discriminate.
Defined.

(** ** Weights that never lower a distance *)

(** In binary64 terms, [w] is not negative: adding it to a distance, which
    is not negative, never gives a smaller one. *)
Definition weight_ok (w : float) : Prop :=
  forall d, (d <? zero)%float = false -> (d + w <? d)%float = false.

Definition weights_ok (g : Graph) : Prop :=
  forall u es e, In (u, es) (adj g) -> In e es -> weight_ok (effective_weight e).

Lemma weights_ok_nbrs g u e :
  weights_ok g -> In e (nbrs g u) -> weight_ok (effective_weight e).
Proof.
  intros W H. apply nbrs_In in H as (es & H1 & H2). exact (W u es e H1 H2).
Qed.

Lemma weight_ok_key w d :
  weight_ok w -> ~ fnan d -> (key_top <= fkey d)%Z -> ~ fnan (d + w)%float ->
  (fkey d <= fkey (d + w))%Z.
Proof.
  intros W Nd Pd Ns. apply (ltb_false_iff (d + w) d); auto.
  apply W. apply ltb_false_iff; auto using zero_not_nan.
Qed.

(** ** The predecessor map is a tree rooted at the start

    Along a predecessor link the pair (distance, time of the last update)
    decreases: [ts] is that time, a ghost of the proof. *)
Record tree_inv (start : string) (ts : string -> nat)
    (dist : dict float) (prev : dict string) : Prop := {
  ti_start : dict_get dist start = Some zero;
  ti_root : dict_get prev start = None;
  ti_pos : forall v d, dict_get dist v = Some d ->
             ~ fnan d /\ (key_top <= fkey d)%Z;
  ti_edge : forall v u, dict_get prev v = Some u ->
             exists du dv,
               dict_get dist u = Some du /\ dict_get dist v = Some dv
               /\ (fkey dv < 2 * key_top)%Z
               /\ (u = start \/ dict_mem prev u = true)
               /\ ((fkey du < fkey dv)%Z \/ (fkey du = fkey dv /\ ts u < ts v))
}.

Definition tree (start : string) (dist : dict float) (prev : dict string) : Prop :=
  exists ts, tree_inv start ts dist prev.

Lemma tree_update start dist prev u v cd du dv w :
  tree start dist prev -> weight_ok w ->
  dict_get dist u = Some du -> ~ fnan cd -> fkey cd = fkey du ->
  u = start \/ dict_mem prev u = true ->
  dict_get dist v = Some dv -> (cd + w <? dv)%float = true ->
  tree start (dict_set dist v (cd + w)%float) (dict_set prev v u)
  /\ u <> v /\ v <> start.
Proof.
  intros [ts [T1 T2 T3 T4]] W Hu Ncd Ecd Pu Hv L.
  apply ltb_true_iff in L as (Nnd & Ndv & L).
  destruct (T3 _ _ Hu) as [_ Pdu].
  pose proof (weight_ok_key w cd W Ncd ltac:(lia) Nnd) as M.
  pose proof (fkey_range dv) as Rdv.
  assert (Nuv : u <> v).
  { intros ->. rewrite Hu in Hv. inversion Hv; subst. lia. }
  assert (Nvs : v <> start).
  { intros ->. rewrite T1 in Hv. inversion Hv; subst. rewrite fkey_zero in L. lia. }
  split; [|auto].
  exists (fun k => if String.eqb k v then S (ts u) else ts k).
  constructor.
  - rewrite dict_get_set_other; auto.
  - rewrite dict_get_set_other; auto.
  - intros k d. rewrite dict_get_set.
    destruct (String.eqb_spec v k) as [<-|]; [|apply T3].
    intros H; inversion H; subst. split; [assumption|lia].
  - intros a b. rewrite dict_get_set.
    destruct (String.eqb_spec v a) as [<-|Na].
    + intros H; inversion H; subst b.
      exists du, (cd + w)%float.
      rewrite dict_get_set_other by auto. rewrite dict_get_set_same.
      repeat split; auto; try lia.
      * destruct Pu as [Pu|Pu]; auto. right. rewrite dict_mem_set, Pu.
        apply orb_true_r.
      * rewrite String.eqb_refl.
        destruct (String.eqb_spec u v); [contradiction|]. lia.
    + intros H. destruct (T4 _ _ H) as (db & da & Hb & Ha & Fa & Pb & Lx).
      destruct (String.eqb_spec a v) as [->|_]; [contradiction|].
      rewrite (dict_get_set_other dist v a) by auto.
      destruct (String.eqb_spec b v) as [->|Nb].
      * exists (cd + w)%float, da. rewrite dict_get_set_same.
        rewrite Hv in Hb. inversion Hb; subst db.
        repeat split; auto.
        -- right. rewrite dict_mem_set, String.eqb_refl. reflexivity.
        -- left. lia.
      * exists db, da. rewrite dict_get_set_other by auto.
        repeat split; auto.
        destruct Pb as [Pb|Pb]; auto. right. rewrite dict_mem_set, Pb.
        apply orb_true_r.
Qed.

(** The chain of predecessors from [v] back to the start, with the edges
    [es] from the start to [v], each taken from [P]. *)
Inductive tchain (P : string -> string -> Edge -> Prop) (prev : dict string)
    (start : string) : string -> list Edge -> Prop :=
| tc_start : tchain P prev start start []
| tc_step v u e es :
    v <> start -> dict_get prev v = Some u -> P u v e ->
    tchain P prev start u es -> tchain P prev start v (es ++ [e]).

Lemma tree_chain start dist prev (P : string -> string -> Edge -> Prop) :
  tree start dist prev ->
  (forall v u, dict_get prev v = Some u -> exists e, P u v e) ->
  forall v, v = start \/ dict_mem prev v = true ->
            exists es, tchain P prev start v es.
Proof.
  intros [ts [T1 T2 T3 T4]] HP.
  enough (H : forall n t v dv,
            dict_get dist v = Some dv -> Z.to_nat (fkey dv) = n -> ts v = t ->
            v = start \/ dict_mem prev v = true ->
            exists es, tchain P prev start v es).
  { intros v [->|Hv].
    - exists []. constructor.
    - pose proof Hv as Hv'. apply dict_mem_true in Hv' as [u Hu].
      destruct (T4 _ _ Hu) as (du & dv & _ & Hdv & _).
      eapply H; eauto. }
  induction n as [n IHn] using lt_wf_ind.
  induction t as [t IHt] using lt_wf_ind.
  intros v dv Hdv En Et [->|Hv]; [exists []; constructor|].
  destruct (String.eqb_spec v start) as [->|Nv]; [exists []; constructor|].
  apply dict_mem_true in Hv as [u Hp].
  destruct (T4 _ _ Hp) as (du & dv' & Hdu & Hdv' & _ & Pu & Lx).
  rewrite Hdv in Hdv'. inversion Hdv'; subst dv'.
  pose proof (fkey_range du). pose proof (fkey_range dv).
  destruct (HP _ _ Hp) as [e He].
  assert (exists es, tchain P prev start u es) as [es Hes].
  { destruct Lx as [Lx|[Lx1 Lx2]].
    - apply (IHn (Z.to_nat (fkey du))) with (t := ts u) (dv := du); auto. lia.
    - apply (IHt (ts u)) with (dv := du); auto; lia. }
  exists (es ++ [e]). now apply tc_step with (u := u).
Qed.

(** The walk that a list of edges makes from a node. *)
Fixpoint walk (g : Graph) (a : string) (es : list Edge) : Prop :=
  match es with
  | [] => True
  | e :: es' => In e (nbrs g a) /\ walk g (to_node e) es'
  end.

(** The nodes on the walk, the first one included, and its last node. *)
Definition walk_nodes (a : string) (es : list Edge) : list string :=
  a :: map to_node es.

Definition walk_end (a : string) (es : list Edge) : string :=
  last (map to_node es) a.

Lemma last_cons {A : Type} (l : list A) : forall x d, last (x :: l) d = last l x.
Proof.
  induction l as [|y l IH]; intros x d; [reflexivity|].
  change (last (x :: y :: l) d) with (last (y :: l) d).
  now rewrite !IH.
Qed.

Lemma last_walk_nodes a es d : last (walk_nodes a es) d = walk_end a es.
Proof. apply last_cons. Qed.

Lemma walk_end_app a es e : walk_end a (es ++ [e]) = to_node e.
Proof. unfold walk_end. rewrite map_app. apply last_last. Qed.

Lemma walk_app g es1 : forall a es2,
  walk g a (es1 ++ es2) <-> walk g a es1 /\ walk g (walk_end a es1) es2.
Proof.
  induction es1 as [|e es1 IH]; intros a es2.
  - simpl. tauto.
  - change (walk g a ((e :: es1) ++ es2))
      with (In e (nbrs g a) /\ walk g (to_node e) (es1 ++ es2)).
    rewrite IH. unfold walk_end. cbn [map]. rewrite last_cons. simpl. tauto.
Qed.

Definition joined (g : Graph) (u v : string) (e : Edge) : Prop :=
  In e (nbrs g u) /\ to_node e = v.

Lemma tchain_end P prev start v es :
  (forall u v e, P u v e -> to_node e = v) ->
  tchain P prev start v es -> walk_end start es = v.
Proof.
  intros HP. induction 1 as [|v u e es Nv Hp He Hc IH]; [reflexivity|].
  rewrite walk_end_app. eauto.
Qed.

Lemma tchain_walk g P prev start v es :
  (forall u v e, P u v e -> joined g u v e) ->
  tchain P prev start v es -> walk g start es.
Proof.
  intros HP. induction 1 as [|v u e es Nv Hp He Hc IH]; [exact I|].
  apply walk_app. split; [assumption|].
  rewrite (tchain_end P prev start u es); auto.
  - destruct (HP _ _ _ He). simpl. auto.
  - intros a b x Hx. now destruct (HP _ _ _ Hx).
Qed.

Lemma tchain_reconstruct P prev start v es :
  (forall u v e, P u v e -> to_node e = v) ->
  tchain P prev start v es ->
  forall fuel acc, List.length es <= fuel ->
    reconstruct_loop fuel prev start v acc
    = Ok (rev (acc ++ rev (walk_nodes start es))).
Proof.
  intros HP. induction 1 as [|v u e es Nv Hp He Hc IH]; intros fuel acc Hf.
  - destruct fuel; simpl; rewrite String.eqb_refl; reflexivity.
  - rewrite length_app in Hf. simpl in Hf.
    destruct fuel as [|fuel]; [lia|]. simpl.
    destruct (String.eqb_spec v start); [contradiction|].
    rewrite Hp, IH by lia. f_equal. f_equal.
    unfold walk_nodes. rewrite map_app. simpl.
    change (start :: map to_node es ++ [to_node e])
      with ((start :: map to_node es) ++ [to_node e]).
    rewrite rev_unit, (HP _ _ _ He), <- app_assoc. reflexivity.
Qed.

Lemma fold_res_pres {A S : Type} (J : S -> Prop) (body : S -> A -> res S) l :
  (forall s x s', In x l -> J s -> body s x = Ok s' -> J s') ->
  forall s s', J s -> fold_res l body s = Ok s' -> J s'.
Proof.
  induction l as [|x l IH]; intros Hb s s' Hs; simpl.
  - intros H; inversion H; subst; auto.
  - destruct (body s x) as [s1| |] eqn:E; simpl; try discriminate.
    apply IH.
    + intros s0 y s0' Hy. apply Hb. now right.
    + eapply Hb; eauto. now left.
Qed.

(** *** The tree in [dijkstra] *)

Definition dtree (g : Graph) (start : string) (st : dstate) : Prop :=
  tree start (fst (fst st)) (snd (fst st))
  /\ forall v u, dict_get (snd (fst st)) v = Some u -> exists e, joined g u v e.

Lemma relax_p_tree g start u cd e s s' :
  weights_ok g -> In e (nbrs g u) ->
  dtree g start s /\ dict_get (fst (fst s)) u = Some cd
  /\ (u = start \/ dict_mem (snd (fst s)) u = true) ->
  relax_p u cd s e = Ok s' ->
  dtree g start s' /\ dict_get (fst (fst s')) u = Some cd
  /\ (u = start \/ dict_mem (snd (fst s')) u = true).
Proof.
  intros W He ([T E] & Hu & Pu) H. destruct s as [[dist prev] pq].
  cbn [fst snd] in *.
  apply relax_p_cases in H as (dv & Hv & [[L ->]|[L ->]]); cbn [fst snd].
  2: { repeat split; auto. }
  assert (Ncd : ~ fnan cd).
  { destruct T as [ts T]. exact (proj1 (ti_pos _ _ _ _ T _ _ Hu)). }
  destruct (tree_update start dist prev u (to_node e) cd cd dv (effective_weight e))
    as (T' & Nuv & Nvs); auto.
  { now apply weights_ok_nbrs with (g := g) (u := u). }
  split; [split|split]; cbn [fst snd].
  - exact T'.
  - intros v p. rewrite dict_get_set.
    destruct (String.eqb_spec (to_node e) v) as [<-|]; [|apply E].
    intros K; inversion K; subst. exists e. split; auto.
  - rewrite dict_get_set_other; auto.
  - destruct Pu as [Pu|Pu]; auto. right. rewrite dict_mem_set, Pu. apply orb_true_r.
Qed.

Lemma dstep_tree g start st st' :
  weights_ok g -> dbase g start st -> dtree g start st ->
  dstep g st = Ok st' -> dtree g start st'.
Proof.
  intros W B T H. destruct st as [[dist prev] pq].
  apply dstep_cases in H as (curr_d & u & pq' & du & Hpop & Hd & [[L ->]|[L H]]).
  - exact T.
  - assert (Hin : In (curr_d, u) pq) by (apply (heappop_In _ _ _ _ Hpop); now left).
    destruct (db_ent _ _ _ B _ _ Hin) as (du' & Hd' & Hk). cbn [fst snd] in *.
    rewrite Hd in Hd'. inversion Hd'; subst du'.
    destruct Hk as [->|Hk]; [|congruence].
    pose proof (db_par _ _ _ B _ Hin) as Pu. cbn [fst snd] in Pu.
    apply (fold_res_pres
             (fun s => dtree g start s /\ dict_get (fst (fst s)) u = Some curr_d
                       /\ (u = start \/ dict_mem (snd (fst s)) u = true)))
      in H; [tauto| |].
    + intros s x s' Hx Hs Hr. eapply relax_p_tree; eauto.
    + cbn [fst snd]. auto.
Qed.

Lemma dinit_tree g start :
  dict_mem (adj g) start = true -> dtree g start (dinit g start).
Proof.
  intros Hs. unfold dinit, dtree. cbn [fst snd]. split.
  - exists (fun _ => 0). constructor.
    + apply dict_get_set_same.
    + reflexivity.
    + intros v d. rewrite dict_get_set, dict_get_const.
      destruct (String.eqb start v); [|destruct (dict_mem (adj g) v)];
        intros H; inversion H; subst.
      * split; [apply zero_not_nan|rewrite fkey_zero; lia].
      * split; [apply inf_not_nan|]. rewrite fkey_inf.
        assert (0 < key_top)%Z by reflexivity. lia.
    + discriminate.
  - discriminate.
Qed.

(** *** What a search returns *)

(** A result is [([], inf)], or a walk along stored edges from [start] to
    [end_] with a cost that is finite and not negative. *)
Definition result_shape (g : Graph) (start end_ : string)
    (r : list string * float) : Prop :=
  r = ([], inf)
  \/ exists es, walk g start es /\ fst r = walk_nodes start es
                /\ walk_end start es = end_
                /\ (snd r <? inf)%float = true /\ (snd r <? zero)%float = false.

Lemma result_shape_iff g start end_ r :
  result_shape g start end_ r -> (fst r = [] <-> snd r = inf).
Proof.
  intros [->|(es & _ & E & _ & L & _)]; [simpl; tauto|].
  rewrite E. split; [discriminate|].
  intros K. rewrite K in L. vm_compute in L. discriminate.
Qed.

Lemma finite_cost d :
  ~ fnan d -> (key_top <= fkey d)%Z -> (d =? inf)%float = false ->
  (d <? inf)%float = true /\ (d <? zero)%float = false.
Proof.
  intros N P E. pose proof (fkey_range d) as R. split.
  - apply ltb_true_iff. repeat split; auto using inf_not_nan.
    rewrite fkey_inf.
    destruct (Z.eq_dec (fkey d) (2 * key_top)) as [K|K]; [|lia].
    enough ((d =? inf)%float = true) by congruence.
    apply eqb_true_iff. repeat split; auto using inf_not_nan.
  - apply ltb_false_iff; auto using zero_not_nan.
Qed.

(** The uniform-cost point query on a graph with valid weights. *)
Lemma shortest_path_dijkstra_shape g start end_ :
  endpoints_known g -> weights_ok g -> dict_mem (adj g) start = true ->
  exists n r,
    result_shape g start end_ r
    /\ forall fuel, n <= fuel -> shortest_path_dijkstra_p g fuel start end_ = Ok r.
Proof.
  intros K W Hs.
  destruct (dijkstra_p_total g start (dtree g start) (dijkstra_fuel g start) K Hs)
    as (dist & prev & E & B & [T J]); auto.
  { intros st st' B I _. now apply dstep_tree. }
  { now apply dinit_tree. }
  cbn [fst snd] in *.
  assert (E' : forall fuel, dijkstra_fuel g start <= fuel ->
                            dijkstra_p g fuel start = Ok (dist, prev)).
  { intros fuel Hf. unfold dijkstra_p in *. rewrite Hs in *. cbn [negb] in *.
    rewrite (dloop_mono g (dijkstra_fuel g start) fuel); auto.
    rewrite E. discriminate. }
  destruct (dict_mem dist end_) eqn:M.
  2: { exists (dijkstra_fuel g start), ([], inf). split; [now left|].
       intros fuel Hf. unfold shortest_path_dijkstra_p. rewrite (E' fuel Hf).
       simpl. now rewrite M. }
  apply dict_mem_true in M as [de M].
  destruct (de =? inf)%float eqn:Einf.
  { exists (dijkstra_fuel g start), ([], inf). split; [now left|].
    intros fuel Hf. unfold shortest_path_dijkstra_p. rewrite (E' fuel Hf).
    simpl. unfold dict_mem, dict_item. rewrite M. simpl. now rewrite Einf. }
  assert (Pe : end_ = start \/ dict_mem prev end_ = true).
  { destruct (db_fin _ _ _ B _ _ M) as [->|H]; auto. vm_compute in Einf. discriminate. }
  destruct (tree_chain start dist prev (joined g) T J end_ Pe) as [es Hes].
  assert (HP : forall u v e, joined g u v e -> to_node e = v) by (intros u v e [_ H]; auto).
  exists (Nat.max (dijkstra_fuel g start) (List.length es)), (walk_nodes start es, de).
  split.
  - right. exists es. cbn [fst snd].
    split; [apply (tchain_walk g _ _ _ _ _ (fun u v e H => H) Hes)|].
    split; [reflexivity|].
    split; [apply (tchain_end _ _ _ _ _ HP Hes)|].
    destruct T as [ts T]. destruct (ti_pos _ _ _ _ T _ _ M).
    now apply finite_cost.
  - intros fuel Hf. unfold shortest_path_dijkstra_p. rewrite (E' fuel) by lia.
    simpl. unfold dict_mem, dict_item. rewrite M. simpl. rewrite Einf.
    rewrite (tchain_reconstruct _ _ _ _ _ HP Hes) by lia.
    cbn [app res_bind]. now rewrite rev_involutive.
Qed.

(** *** The loop of [a_star] *)

Section AStarLoop.
Variable hypot : float -> float -> float.

Definition a_open (st : astate) : list item := fst (fst (fst st)).
Definition a_came (st : astate) : dict string := snd (fst (fst st)).
Definition a_g (st : astate) : dict float := snd (fst st).

Definition amu (st : astate) : Z :=
  (2 * fsum (a_g st) + Z.of_nat (List.length (a_open st)))%Z.

Lemma amu_nonneg st : (0 <= amu st)%Z.
Proof. unfold amu. pose proof (fsum_nonneg (a_g st)). lia. Qed.

(** What holds of the state of [a_star] on every graph. *)
Record abase (g : Graph) (start : string) (st : astate) : Prop := {
  ab_keys : forall k, dict_mem (a_g st) k = dict_mem (adj g) k;
  ab_open : forall x, In x (a_open st) ->
              dict_mem (adj g) (snd x) = true
              /\ (snd x = start \/ dict_mem (a_came st) (snd x) = true)
}.

Lemma a_star_relax_p_cases g goal current open_set cf gs fs e st' :
  a_star_relax_p hypot g goal current (open_set, cf, gs, fs) e = Ok st' ->
  exists gc gn,
    dict_get gs current = Some gc /\ dict_get gs (to_node e) = Some gn /\
    let t := (gc + effective_weight e)%float in
    let f := (t + heur hypot g (to_node e) goal)%float in
    (((t <? gn)%float = true
      /\ st' = (heappush open_set (f, to_node e), dict_set cf (to_node e) current,
                dict_set gs (to_node e) t, dict_set fs (to_node e) f))
     \/ ((t <? gn)%float = false /\ st' = (open_set, cf, gs, fs))).
Proof.
  unfold a_star_relax_p, dict_item.
  destruct (dict_get gs current) as [gc|]; simpl; [|discriminate].
  destruct (dict_get gs (to_node e)) as [gn|]; simpl; [|discriminate].
  intros H. exists gc, gn. split; [reflexivity|]. split; [reflexivity|].
  destruct (_ <? gn)%float; inversion H; auto.
Qed.

Lemma a_star_relax_p_base g start goal current st e (c : Z) :
  endpoints_known g -> dict_mem (adj g) current = true -> In e (nbrs g current) ->
  abase g start st /\ (amu st <= c)%Z ->
  exists st', a_star_relax_p hypot g goal current st e = Ok st'
              /\ (abase g start st' /\ (amu st' <= c)%Z).
Proof.
  intros K Hc He [[B1 B2] Hm]. destruct st as [[[open_set cf] gs] fs].
  unfold amu, a_g, a_open, a_came in *. cbn [fst snd] in *.
  pose proof (nbrs_known g current e K He) as Hv. rewrite <- B1 in Hv, Hc.
  apply dict_mem_true in Hv as [gn Hv]. apply dict_mem_true in Hc as [gc Hc].
  unfold a_star_relax_p, dict_item. rewrite Hc, Hv. cbn [res_bind].
  destruct (_ <? gn)%float eqn:L.
  - eexists. split; [reflexivity|]. split; [constructor|];
      unfold amu, a_g, a_open, a_came; cbn [fst snd].
    + intros k. rewrite dict_mem_set, B1.
      destruct (String.eqb_spec (to_node e) k) as [<-|]; auto.
      simpl. symmetry. now apply nbrs_known with (u := current).
    + intros x Hx. rewrite dict_mem_set.
      apply heappush_In in Hx as [->|Hx]; simpl.
      * rewrite String.eqb_refl. split; auto.
        now apply nbrs_known with (u := current).
      * destruct (B2 _ Hx) as [H1 [H2|H2]]; auto.
        split; auto. right. rewrite H2. apply orb_true_r.
    + rewrite (fsum_set _ _ _ gn Hv), heappush_length.
      apply ltb_true_iff in L as (_ & _ & L). lia.
  - eexists. split; [reflexivity|]. split; [constructor|]; auto.
Qed.

Lemma abase_pop g start open_set cf gs fs x open' :
  abase g start (open_set, cf, gs, fs) -> heappop open_set = Some (x, open') ->
  abase g start (open', cf, gs, fs)
  /\ (amu (open', cf, gs, fs) < amu (open_set, cf, gs, fs))%Z
  /\ dict_mem (adj g) (snd x) = true
  /\ (snd x = start \/ dict_mem cf (snd x) = true).
Proof.
  intros [B1 B2] Hpop. unfold amu, a_g, a_open, a_came in *. cbn [fst snd] in *.
  split; [constructor|split]; unfold a_g, a_open, a_came; cbn [fst snd]; auto.
  - intros y Hy. apply B2. apply (heappop_In _ _ _ _ Hpop). now right.
  - rewrite (heappop_length _ _ _ Hpop). lia.
  - apply B2. apply (heappop_In _ _ _ _ Hpop). now left.
Qed.

(** With fuel above the measure the loop of [a_star] ends: the open set
    empties, or the goal is popped in a state that satisfies whatever the
    turns of the loop keep. *)
Lemma aloop_total g start goal (I : astate -> Prop) :
  endpoints_known g ->
  (forall open_set cf gs fs x open' st',
      abase g start (open_set, cf, gs, fs) -> I (open_set, cf, gs, fs) ->
      heappop open_set = Some (x, open') -> snd x <> goal ->
      astep hypot g goal (snd x) (open', cf, gs, fs) = Ok st' -> I st') ->
  forall fuel st,
    abase g start st -> I st -> (amu st < Z.of_nat fuel)%Z ->
    (exists cf gs fs,
        I ([], cf, gs, fs)
        /\ forall rfuel, aloop hypot g fuel rfuel start goal st = Ok ([], inf))
    \/ exists open_set cf gs fs f open',
         abase g start (open_set, cf, gs, fs) /\ I (open_set, cf, gs, fs)
         /\ heappop open_set = Some ((f, goal), open')
         /\ forall rfuel,
              aloop hypot g fuel rfuel start goal st
              = res_bind (reconstruct_loop rfuel cf start goal [])
                  (fun path => res_bind (dict_item gs goal)
                                 (fun gg => Ok (path, gg))).
Proof.
  intros K Hstep. induction fuel as [|fuel IH]; intros st B HI Hm.
  - pose proof (amu_nonneg st). lia.
  - destruct st as [[[open_set cf] gs] fs].
    destruct open_set as [|x0 open_set];
      [left; exists cf, gs, fs; split; [exact HI|reflexivity]|].
    destruct (heappop_some (x0 :: open_set)) as ([f current] & open' & Hpop);
      [discriminate|].
    destruct (abase_pop _ _ _ _ _ _ _ _ B Hpop) as (B' & M' & Hk & Hp).
    cbn [snd] in Hk, Hp.
    destruct (String.eqb_spec current goal) as [->|Ng].
    + right. exists (x0 :: open_set), cf, gs, fs, f, open'.
      split; [exact B|]. split; [exact HI|]. split; [exact Hpop|].
      intros rfuel. cbn [aloop].
      unfold heappop_res. rewrite Hpop. cbn [res_bind].
      now rewrite String.eqb_refl.
    + destruct (fold_res_inv
                  (fun s => abase g start s
                            /\ (amu s <= amu (open', cf, gs, fs))%Z)
                  (a_star_relax_p hypot g goal current) (nbrs g current))
        with (s := (open', cf, gs, fs)) as (st' & E & B'' & M'').
      { intros s e He Hs. now apply a_star_relax_p_base. }
      { split; [assumption|lia]. }
      assert (HI' : I st').
      { apply (Hstep (x0 :: open_set) cf gs fs (f, current) open' st' B HI Hpop).
        - exact Ng.
        - exact E. }
      destruct (IH st' B'' HI') as [H|H]; [lia| |].
      * left. destruct H as (c1 & g1 & f1 & H0 & H).
        exists c1, g1, f1. split; [exact H0|].
        intros rfuel. cbn [aloop].
        unfold heappop_res. rewrite Hpop. cbn [res_bind].
        destruct (String.eqb_spec current goal); [contradiction|].
        unfold astep. rewrite E. cbn [res_bind]. apply H.
      * right. destruct H as (o1 & c1 & g1 & f1 & k1 & o1' & H1 & H2 & H3 & H4).
        exists o1, c1, g1, f1, k1, o1'.
        split; [exact H1|]. split; [exact H2|]. split; [exact H3|].
        intros rfuel. cbn [aloop].
        unfold heappop_res. rewrite Hpop. cbn [res_bind].
        destruct (String.eqb_spec current goal); [contradiction|].
        unfold astep. rewrite E. cbn [res_bind]. apply H4.
Qed.

Lemma ainit_base g start goal :
  dict_mem (adj g) start = true -> abase g start (ainit hypot g start goal).
Proof.
  intros Hs. unfold ainit. constructor; unfold a_g, a_open, a_came; cbn [fst snd].
  - intros k. rewrite dict_mem_set, dict_mem_const.
    destruct (String.eqb_spec start k) as [<-|]; simpl; auto.
  - intros x Hx. apply heappush_In in Hx as [->|[]]. simpl. auto.
Qed.

Definition a_star_fuel (g : Graph) (start goal : string) : nat :=
  S (Z.to_nat (amu (ainit hypot g start goal))).

(** *** The tree in [a_star] *)

Definition atree (g : Graph) (start : string) (st : astate) : Prop :=
  tree start (a_g st) (a_came st)
  /\ forall v u, dict_get (a_came st) v = Some u -> exists e, joined g u v e.

Lemma a_star_relax_p_tree g start goal current gc e s s' :
  weights_ok g -> In e (nbrs g current) ->
  atree g start s /\ dict_get (a_g s) current = Some gc
  /\ (current = start \/ dict_mem (a_came s) current = true) ->
  a_star_relax_p hypot g goal current s e = Ok s' ->
  atree g start s' /\ dict_get (a_g s') current = Some gc
  /\ (current = start \/ dict_mem (a_came s') current = true).
Proof.
  intros W He ([T E] & Hu & Pu) H. destruct s as [[[open_set cf] gs] fs].
  unfold atree, a_g, a_came in *. cbn [fst snd] in *.
  apply a_star_relax_p_cases in H as (gc' & gn & Hc & Hv & [[L ->]|[L ->]]);
    cbn [fst snd].
  2: { repeat split; auto. }
  rewrite Hu in Hc. inversion Hc; subst gc'.
  assert (Ncd : ~ fnan gc).
  { destruct T as [ts T]. exact (proj1 (ti_pos _ _ _ _ T _ _ Hu)). }
  destruct (tree_update start gs cf current (to_node e) gc gc gn (effective_weight e))
    as (T' & Nuv & Nvs); auto.
  { now apply weights_ok_nbrs with (g := g) (u := current). }
  split; [split|split]; cbn [fst snd].
  - exact T'.
  - intros v p. rewrite dict_get_set.
    destruct (String.eqb_spec (to_node e) v) as [<-|]; [|apply E].
    intros K; inversion K; subst. exists e. split; auto.
  - rewrite dict_get_set_other; auto.
  - destruct Pu as [Pu|Pu]; auto. right. rewrite dict_mem_set, Pu. apply orb_true_r.
Qed.

Lemma astep_tree g start goal open_set cf gs fs x open' st' :
  weights_ok g ->
  abase g start (open_set, cf, gs, fs) -> atree g start (open_set, cf, gs, fs) ->
  heappop open_set = Some (x, open') ->
  astep hypot g goal (snd x) (open', cf, gs, fs) = Ok st' -> atree g start st'.
Proof.
  intros W B T Hpop H.
  destruct (abase_pop _ _ _ _ _ _ _ _ B Hpop) as (B' & _ & Hk & Hp).
  rewrite <- (ab_keys _ _ _ B) in Hk. unfold a_g in Hk. cbn [fst snd] in Hk.
  apply dict_mem_true in Hk as [gc Hk].
  unfold astep in H.
  apply (fold_res_pres
           (fun s => atree g start s /\ dict_get (a_g s) (snd x) = Some gc
                     /\ (snd x = start \/ dict_mem (a_came s) (snd x) = true)))
    in H; [tauto| |].
  - intros s e s' He Hs Hr. eapply a_star_relax_p_tree; eauto.
  - unfold atree, a_g, a_came in *. cbn [fst snd] in *. auto.
Qed.

Lemma ainit_tree g start goal :
  dict_mem (adj g) start = true -> atree g start (ainit hypot g start goal).
Proof.
  intros Hs. unfold ainit, atree, a_g, a_came. cbn [fst snd]. split.
  - exists (fun _ => 0). constructor.
    + apply dict_get_set_same.
    + reflexivity.
    + intros v d. rewrite dict_get_set, dict_get_const.
      destruct (String.eqb start v); [|destruct (dict_mem (adj g) v)];
        intros H; inversion H; subst.
      * split; [apply zero_not_nan|rewrite fkey_zero; lia].
      * split; [apply inf_not_nan|]. rewrite fkey_inf.
        assert (0 < key_top)%Z by reflexivity. lia.
    + discriminate.
  - discriminate.
Qed.

(** The heuristic-guided query on a graph with valid weights, whatever
    the coordinates and whatever stands for [math.hypot]. *)
Lemma a_star_shape g start goal :
  endpoints_known g -> weights_ok g ->
  dict_mem (adj g) start = true -> dict_mem (adj g) goal = true ->
  exists n r,
    result_shape g start goal r
    /\ forall fuel, n <= fuel -> a_star_p hypot g fuel start goal = Ok r.
Proof.
  intros K W Hs Hg.
  assert (U : forall fuel, a_star_p hypot g fuel start goal
                           = aloop hypot g fuel fuel start goal (ainit hypot g start goal)).
  { intros fuel. unfold a_star_p. now rewrite Hs, Hg. }
  destruct (aloop_total g start goal (atree g start) K) with
    (fuel := a_star_fuel g start goal) (st := ainit hypot g start goal) as [H|H].
  { intros; eapply astep_tree; eauto. }
  { now apply ainit_base. }
  { now apply ainit_tree. }
  { unfold a_star_fuel. pose proof (amu_nonneg (ainit hypot g start goal)). lia. }
  - destruct H as (_ & _ & _ & _ & H).
    exists (a_star_fuel g start goal), ([], inf). split; [now left|].
    intros fuel Hf. rewrite U. rewrite <- (H fuel).
    apply aloop_mono; auto. rewrite (H fuel). discriminate.
  - destruct H as (open_set & cf & gs & fs & f & open' & B & [T J] & Hpop & H).
    destruct (abase_pop _ _ _ _ _ _ _ _ B Hpop) as (_ & _ & Hk & Hp).
    unfold a_g, a_came in *. cbn [fst snd] in *.
    rewrite <- (ab_keys _ _ _ B) in Hk. unfold a_g in Hk. cbn [fst snd] in Hk.
    apply dict_mem_true in Hk as [gg Hgg].
    destruct (tree_chain start gs cf (joined g) T J goal Hp) as [es Hes].
    assert (HP : forall u v e, joined g u v e -> to_node e = v)
      by (intros u v e [_ E]; auto).
    exists (Nat.max (a_star_fuel g start goal) (List.length es)),
           (walk_nodes start es, gg).
    assert (R : forall rfuel, List.length es <= rfuel ->
              aloop hypot g (a_star_fuel g start goal) rfuel start goal
                    (ainit hypot g start goal)
              = Ok (walk_nodes start es, gg)).
    { intros rfuel Hr. rewrite H.
      rewrite (tchain_reconstruct _ _ _ _ _ HP Hes) by lia.
      cbn [app res_bind]. unfold dict_item. rewrite Hgg. cbn [res_bind].
      now rewrite rev_involutive. }
    split.
    + right. exists es. cbn [fst snd].
      split; [apply (tchain_walk g _ _ _ _ _ (fun u v e H => H) Hes)|].
      split; [reflexivity|].
      split; [apply (tchain_end _ _ _ _ _ HP Hes)|].
      destruct T as [ts T]. destruct (ti_pos _ _ _ _ T _ _ Hgg) as [N P].
      assert (F : (fkey gg < 2 * key_top)%Z).
      { destruct Hp as [->|Hp].
        - rewrite (ti_start _ _ _ _ T) in Hgg. inversion Hgg; subst.
          rewrite fkey_zero. assert (0 < key_top)%Z by reflexivity. lia.
        - apply dict_mem_true in Hp as [u Hu].
          destruct (ti_edge _ _ _ _ T _ _ Hu) as (du & dv & _ & Hdv & F & _).
          rewrite Hgg in Hdv. inversion Hdv; subst. exact F. }
      split.
      * apply ltb_true_iff. rewrite fkey_inf. auto using inf_not_nan.
      * apply ltb_false_iff; auto using zero_not_nan.
    + intros fuel Hf. rewrite U. rewrite <- (R fuel) by lia.
      apply aloop_mono; try lia. rewrite (R fuel) by lia. discriminate.
Qed.

End AStarLoop.

(** ** heapq pops a least element *)

(** The order of the node names. *)
Lemma string_ltb_irrefl s : String.ltb s s = false.
Proof.
  unfold String.ltb. destruct (String.compare s s) eqn:E; auto.
  pose proof (String.compare_antisym s s) as A. rewrite E in A. discriminate.
Qed.

Lemma string_ltb_trans s t u :
  String.ltb s t = true -> String.ltb t u = true -> String.ltb s u = true.
Proof.
  unfold String.ltb.
  destruct (String.compare s t) eqn:E1; try discriminate.
  destruct (String.compare t u) eqn:E2; try discriminate. intros _ _.
  apply OrderedTypeEx.String_as_OT.cmp_lt in E1, E2.
  pose proof (OrderedTypeEx.String_as_OT.lt_trans _ _ _ E1 E2) as L.
  apply OrderedTypeEx.String_as_OT.cmp_lt in L.
  unfold OrderedTypeEx.String_as_OT.cmp in L. now rewrite L.
Qed.

Lemma string_ltb_total s t :
  String.ltb s t = false -> String.ltb t s = false -> s = t.
Proof.
  unfold String.ltb. rewrite (String.compare_antisym t s).
  destruct (String.compare s t) eqn:E; simpl; try discriminate.
  intros _ _. now apply String.compare_eq_iff.
Qed.

(** On entries whose keys are not NaN, [item_lt] is the strict
    lexicographic order of the pairs (key, name). *)
Definition key_ok (x : item) : Prop := ~ fnan (fst x).

Lemma item_lt_true x y :
  key_ok x -> key_ok y ->
  (item_lt x y = true <->
   (fkey (fst x) < fkey (fst y))%Z
   \/ (fkey (fst x) = fkey (fst y) /\ String.ltb (snd x) (snd y) = true)).
Proof.
  intros Nx Ny. unfold item_lt, key_ok in *.
  destruct (fst x =? fst y)%float eqn:E.
  - apply eqb_true_iff in E as (_ & _ & E). rewrite E. split; [auto|].
    intros [H|[_ H]]; [lia|auto].
  - rewrite ltb_true_iff. split.
    + intros (_ & _ & H). auto.
    + intros [H|[H _]]; [auto|].
      enough ((fst x =? fst y)%float = true) by congruence.
      apply eqb_true_iff. auto.
Qed.

Lemma item_lt_irrefl x : item_lt x x = false.
Proof.
  unfold item_lt. destruct (fst x =? fst x)%float eqn:E.
  - apply string_ltb_irrefl.
  - destruct (fst x <? fst x)%float eqn:L; auto.
    apply ltb_true_iff in L as (_ & _ & L). lia.
Qed.

Lemma item_lt_asym x y :
  key_ok x -> key_ok y -> item_lt x y = true -> item_lt y x = false.
Proof.
  intros Nx Ny H. apply item_lt_true in H as [H|[H1 H2]]; auto.
  - destruct (item_lt y x) eqn:K; auto.
    apply item_lt_true in K as [K|[K _]]; auto; lia.
  - destruct (item_lt y x) eqn:K; auto.
    apply item_lt_true in K as [K|[_ K]]; auto; [lia|].
    pose proof (string_ltb_trans _ _ _ H2 K) as T.
    now rewrite string_ltb_irrefl in T.
Qed.

Lemma item_lt_trans x y z :
  key_ok x -> key_ok y -> key_ok z ->
  item_lt x y = true -> item_lt y z = true -> item_lt x z = true.
Proof.
  intros Nx Ny Nz H1 H2.
  apply item_lt_true in H1; auto. apply item_lt_true in H2; auto.
  apply item_lt_true; auto.
  destruct H1 as [H1|[H1 S1]], H2 as [H2|[H2 S2]]; try (left; lia).
  right. split; [lia|]. eapply string_ltb_trans; eauto.
Qed.

(** [x <= y <= z] gives [x <= z], where [x <= y] reads [item_lt y x = false]. *)
Lemma item_le_trans x y z :
  key_ok x -> key_ok y -> key_ok z ->
  item_lt y x = false -> item_lt z y = false -> item_lt z x = false.
Proof.
  intros Nx Ny Nz H1 H2. destruct (item_lt z x) eqn:K; auto.
  apply item_lt_true in K; auto.
  assert (A : forall a b, key_ok a -> key_ok b -> item_lt a b = false ->
              (fkey (fst b) < fkey (fst a))%Z
              \/ (fkey (fst b) = fkey (fst a) /\ String.ltb (snd a) (snd b) = false)).
  { intros a b Na Nb H.
    destruct (Z.lt_trichotomy (fkey (fst a)) (fkey (fst b))) as [L|[L|L]]; auto.
    - enough (item_lt a b = true) by congruence. apply item_lt_true; auto.
    - right. split; auto. destruct (String.ltb (snd a) (snd b)) eqn:S; auto.
      enough (item_lt a b = true) by congruence. apply item_lt_true; auto. }
  apply A in H1; auto. apply A in H2; auto.
  destruct K as [K|[K1 K2]]; destruct H1 as [H1|[H1 S1]];
    destruct H2 as [H2|[H2 S2]]; try lia.
  destruct (String.ltb (snd x) (snd y)) eqn:Sxy.
  - pose proof (string_ltb_trans _ _ _ K2 Sxy). congruence.
  - pose proof (string_ltb_total _ _ S1 Sxy) as E. rewrite E in S2. congruence.
Qed.

Lemma item_lt_le_trans x y z :
  key_ok x -> key_ok y -> key_ok z ->
  item_lt x y = true -> item_lt z y = false -> item_lt z x = false.
Proof.
  intros Nx Ny Nz H1 H2. apply item_le_trans with (y := y); auto.
  now apply item_lt_asym.
Qed.

(** The list is a binary heap: no entry is below its parent. *)
Definition parent (i : nat) : nat := (i - 1) / 2.

Definition heap_ok (h : list item) : Prop :=
  forall i, 0 < i < List.length h ->
            item_lt (nth i h item0) (nth (parent i) h item0) = false.

Definition keys_ok (h : list item) : Prop :=
  forall i, i < List.length h -> key_ok (nth i h item0).

Lemma half_cases n p : n / 2 = p <-> n = 2 * p \/ n = 2 * p + 1.
Proof.
  pose proof (Nat.div_mod_eq n 2) as E.
  pose proof (Nat.mod_upper_bound n 2 ltac:(lia)) as U.
  split; intros H; lia.
Qed.

Lemma parent_lt i : 0 < i -> parent i < i.
Proof.
  intros H. unfold parent. pose proof (proj1 (half_cases (i - 1) _) eq_refl). lia.
Qed.

Lemma parent_child c p : 0 < c -> (parent c = p <-> c = 2 * p + 1 \/ c = 2 * p + 2).
Proof.
  intros H. unfold parent. rewrite half_cases. lia.
Qed.

Lemma keys_ok_In h : keys_ok h <-> forall x, In x h -> key_ok x.
Proof.
  split.
  - intros K x Hx. destruct (In_nth _ _ item0 Hx) as (i & Hi & <-). auto.
  - intros K i Hi. apply K. now apply nth_In.
Qed.

Lemma keys_ok_perm h h' : Permutation h h' -> keys_ok h -> keys_ok h'.
Proof.
  rewrite !keys_ok_In. intros P K x Hx. apply K.
  apply (Permutation_in _ (Permutation_sym P) Hx).
Qed.

(** The root of a heap is a least entry. *)
Lemma heap_root_least h :
  heap_ok h -> keys_ok h ->
  forall i, i < List.length h -> item_lt (nth i h item0) (nth 0 h item0) = false.
Proof.
  intros H K i. induction i as [i IH] using lt_wf_ind. intros Hi.
  destruct (Nat.eq_dec i 0) as [->|N]; [apply item_lt_irrefl|].
  pose proof (parent_lt i ltac:(lia)) as P.
  apply item_le_trans with (y := nth (parent i) h item0);
    try apply K; try lia.
  - apply IH; lia.
  - apply H. lia.
Qed.

(** [_siftdown] repairs a heap whose only fault is at [pos]: the entry to
    place there may be below its parent. *)
Lemma siftdown_loop_ok fuel : forall heap pos newitem,
  pos <= fuel -> pos < List.length heap ->
  keys_ok (upd heap pos newitem) ->
  (forall i, 0 < i < List.length heap -> i <> pos ->
     item_lt (nth i (upd heap pos newitem) item0)
             (nth (parent i) (upd heap pos newitem) item0) = false) ->
  (forall c, 0 < c < List.length heap -> parent c = pos -> 0 < pos ->
     item_lt (nth c (upd heap pos newitem) item0)
             (nth (parent pos) (upd heap pos newitem) item0) = false) ->
  heap_ok (siftdown_loop fuel heap 0 pos newitem).
Proof.
  induction fuel as [|fuel IH]; intros heap pos newitem Hf Hpos K B C;
    cbn [siftdown_loop].
  - assert (pos = 0) by lia. subst pos.
    intros i Hi. rewrite upd_length in Hi. apply B; lia.
  - destruct (0 <? pos)%nat eqn:Hz.
    2: { apply Nat.ltb_ge in Hz. assert (pos = 0) by lia. subst pos.
         intros i Hi. rewrite upd_length in Hi. apply B; lia. }
    apply Nat.ltb_lt in Hz. fold (parent pos).
    pose proof (parent_lt pos Hz) as Pp.
    set (p := parent pos) in *. set (P := nth p heap item0).
    assert (HP : nth p (upd heap pos newitem) item0 = P).
    { apply nth_upd_other. lia. }
    assert (HN : nth pos (upd heap pos newitem) item0 = newitem).
    { now apply nth_upd_same. }
    assert (KP : key_ok P). { rewrite <- HP. apply K. rewrite upd_length. lia. }
    assert (KN : key_ok newitem).
    { rewrite <- HN. apply K. now rewrite upd_length. }
    destruct (item_lt newitem P) eqn:L.
    + (* the parent moves down, the entry goes on from the parent's place *)
      assert (N' : forall i, nth i (upd (upd heap pos P) p newitem) item0
                     = if Nat.eq_dec i p then newitem
                       else if Nat.eq_dec i pos then P
                       else nth i (upd heap pos newitem) item0).
      { intros i. destruct (Nat.eq_dec i p) as [->|Ni].
        - apply nth_upd_same. rewrite upd_length. lia.
        - rewrite nth_upd_other by lia.
          destruct (Nat.eq_dec i pos) as [->|Ni'].
          + now apply nth_upd_same.
          + now rewrite !nth_upd_other by lia. }
      assert (KH : forall i, i < List.length heap ->
                             key_ok (nth i (upd heap pos newitem) item0)).
      { intros i Hi. apply K. now rewrite upd_length. }
      apply IH; rewrite ?upd_length; try lia.
      * intros i Hi. rewrite !upd_length in Hi. rewrite N'.
        destruct (Nat.eq_dec i p); [assumption|].
        destruct (Nat.eq_dec i pos); [assumption|]. now apply KH.
      * intros i Hi Ni. rewrite !N'.
        destruct (Nat.eq_dec i p) as [|_]; [contradiction|].
        destruct (Nat.eq_dec i pos) as [->|Ni'].
        -- fold p. destruct (Nat.eq_dec p p); [|contradiction].
           now apply item_lt_asym.
        -- destruct (Nat.eq_dec (parent i) p) as [Ep|Np].
           ++ apply item_lt_le_trans with (y := P); auto.
              ** apply KH; lia.
              ** rewrite <- HP, <- Ep. apply B; lia.
           ++ destruct (Nat.eq_dec (parent i) pos) as [Eq|Nq].
              ** rewrite <- HP. apply C; auto.
              ** apply B; lia.
      * intros c Hc Ec Hp0. rewrite !N'.
        pose proof (parent_lt c ltac:(lia)) as Pc.
        pose proof (parent_lt p Hp0) as Pg.
        destruct (Nat.eq_dec c p) as [|_]; [lia|].
        destruct (Nat.eq_dec (parent p) p) as [|_]; [lia|].
        destruct (Nat.eq_dec (parent p) pos) as [|_]; [lia|].
        assert (G : item_lt P (nth (parent p) (upd heap pos newitem) item0) = false).
        { rewrite <- HP. apply B; lia. }
        destruct (Nat.eq_dec c pos) as [->|Nc]; [exact G|].
        apply item_le_trans with (y := P); auto.
        -- apply KH; lia.
        -- apply KH; lia.
        -- rewrite <- HP, <- Ec. apply B; lia.
    + intros i Hi. rewrite upd_length in Hi.
      destruct (Nat.eq_dec i pos) as [->|Ni]; [|apply B; lia].
      fold p. now rewrite HN, HP.
Qed.

Lemma nth_app_last {A : Type} (l : list A) x d : nth (List.length l) (l ++ [x]) d = x.
Proof. rewrite app_nth2 by lia. now rewrite Nat.sub_diag. Qed.

Lemma upd_app_last {A : Type} (l : list A) x y : upd (l ++ [x]) (List.length l) y = l ++ [y].
Proof. induction l as [|a l IH]; simpl; [reflexivity|]. now rewrite IH. Qed.

Lemma heappush_ok heap x :
  heap_ok heap -> keys_ok heap -> key_ok x -> heap_ok (heappush heap x).
Proof.
  intros H K Kx. unfold heappush, siftdown. rewrite nth_app_last.
  assert (U : upd (heap ++ [x]) (List.length heap) x = heap ++ [x])
    by apply upd_app_last.
  apply siftdown_loop_ok; rewrite ?U, ?length_app; simpl; try lia.
  - apply keys_ok_In. intros y Hy. apply in_app_iff in Hy as [Hy|[<-|[]]]; auto.
    now apply (proj1 (keys_ok_In heap) K).
  - intros i Hi Ni. pose proof (parent_lt i ltac:(lia)).
    rewrite !app_nth1 by lia. apply H. lia.
  - intros c Hc Ec. pose proof (parent_lt c ltac:(lia)). lia.
Qed.

(** [_siftup], first part: the hole left at [pos] sinks to a leaf, the
    smaller child moving up each time. *)
Lemma siftup_loop_ok fuel : forall heap pos,
  List.length heap <= pos + fuel -> pos < List.length heap ->
  (forall i, i < List.length heap -> i <> pos -> key_ok (nth i heap item0)) ->
  (forall i, 0 < i < List.length heap -> i <> pos -> parent i <> pos ->
     item_lt (nth i heap item0) (nth (parent i) heap item0) = false) ->
  (forall c, 0 < c < List.length heap -> parent c = pos -> 0 < pos ->
     item_lt (nth c heap item0) (nth (parent pos) heap item0) = false) ->
  let '(h1, p1) := siftup_loop fuel heap (List.length heap) pos in
  p1 < List.length h1 /\ List.length h1 = List.length heap
  /\ List.length h1 <= 2 * p1 + 1
  /\ (forall i, i < List.length h1 -> i <> p1 -> key_ok (nth i h1 item0))
  /\ (forall i, 0 < i < List.length h1 -> i <> p1 ->
        item_lt (nth i h1 item0) (nth (parent i) h1 item0) = false).
Proof.
  induction fuel as [|fuel IH]; intros heap pos Hf Hpos K B C;
    cbn [siftup_loop]; [lia|].
  destruct (2 * pos + 1 <? List.length heap)%nat eqn:Hc.
  2: { apply Nat.ltb_ge in Hc. repeat split; auto.
       intros i Hi Ni. apply B; auto.
       intros E. apply parent_child in E; lia. }
  apply Nat.ltb_lt in Hc.
  set (l := (2 * pos + 1)%nat) in *. set (r := (l + 1)%nat).
  set (c := if ((r <? List.length heap)%nat
                && negb (item_lt (nth l heap item0) (nth r heap item0)))%bool
            then r else l).
  assert (Hl : parent l = pos) by (apply parent_child; lia).
  assert (Hr : parent r = pos) by (apply parent_child; lia).
  assert (Hcl : c < List.length heap /\ parent c = pos /\ pos < c
                /\ forall s, s < List.length heap -> parent s = pos -> 0 < s ->
                             s <> c ->
                             item_lt (nth s heap item0) (nth c heap item0) = false).
  { unfold c.
    destruct (r <? List.length heap)%nat eqn:Er; cbn [andb].
    - apply Nat.ltb_lt in Er.
      destruct (item_lt (nth l heap item0) (nth r heap item0)) eqn:L; cbn [negb].
      + repeat split; try lia; auto. intros s Hs Ps Zs Ns.
        apply parent_child in Ps; auto.
        assert (s = r) by lia. subst s.
        apply item_lt_asym; auto; apply K; lia.
      + repeat split; try lia; auto. intros s Hs Ps Zs Ns.
        apply parent_child in Ps; auto.
        assert (s = l) by lia. subst s. exact L.
    - apply Nat.ltb_ge in Er. repeat split; try lia; auto.
      intros s Hs Ps Zs Ns. apply parent_child in Ps; auto. lia. }
  destruct Hcl as (Hc1 & Hc2 & Hc3 & Hc4).
  set (x := nth c heap item0).
  assert (N' : forall i, nth i (upd heap pos x) item0
                         = if Nat.eq_dec i pos then x else nth i heap item0).
  { intros i. destruct (Nat.eq_dec i pos) as [->|Ni].
    - now apply nth_upd_same.
    - apply nth_upd_other. lia. }
  specialize (IH (upd heap pos x) c). rewrite !upd_length in IH.
  apply IH; try lia.
  - intros i Hi Ni. rewrite N'. destruct (Nat.eq_dec i pos); apply K; lia.
  - intros i Hi Ni Pi. rewrite !N'.
    pose proof (parent_lt i ltac:(lia)) as Plt.
    destruct (Nat.eq_dec i pos) as [->|Ni'].
    + destruct (Nat.eq_dec (parent pos) pos); [lia|]. apply C; auto; lia.
    + destruct (Nat.eq_dec (parent i) pos) as [Ei|Npi].
      * apply Hc4; auto; lia.
      * apply B; auto; lia.
  - intros s Hs Ps _. rewrite !N'.
    pose proof (parent_lt s ltac:(lia)) as Plt.
    destruct (Nat.eq_dec s pos); [lia|].
    rewrite Hc2. destruct (Nat.eq_dec pos pos); [|contradiction].
    unfold x. rewrite <- Ps. apply B; try lia.
Qed.

Lemma siftup_ok heap :
  heap <> [] ->
  keys_ok heap ->
  (forall i, 0 < i < List.length heap -> parent i <> 0 ->
     item_lt (nth i heap item0) (nth (parent i) heap item0) = false) ->
  heap_ok (siftup heap 0).
Proof.
  intros Hne K B. unfold siftup.
  assert (Hlen : 0 < List.length heap) by (destruct heap; simpl; [congruence|lia]).
  pose proof (siftup_loop_ok (List.length heap) heap 0) as L.
  pose proof (siftup_loop_perm (List.length heap) heap 0 Hlen) as P.
  destruct (siftup_loop (List.length heap) heap (List.length heap) 0) as [h1 p1].
  destruct L as (L1 & L2 & L3 & L4 & L5); try lia.
  { intros i Hi _. now apply K. }
  { intros i Hi _ Pi. now apply B. }
  destruct P as (_ & _ & P).
  set (newitem := nth 0 heap item0) in *.
  assert (KH : keys_ok (upd h1 p1 newitem)).
  { apply keys_ok_perm with (h := heap); auto.
    apply Permutation_sym. apply (Permutation_cons_inv (a := newitem)). apply P. }
  unfold siftdown. rewrite nth_upd_same by assumption.
  assert (U : upd (upd h1 p1 newitem) p1 newitem = upd h1 p1 newitem).
  { clear. revert p1. induction h1 as [|a h1 IH]; intros [|p1]; simpl; auto.
    now rewrite IH. }
  apply siftdown_loop_ok; rewrite ?U, ?upd_length; auto.
  - intros i Hi Ni. pose proof (parent_lt i ltac:(lia)).
    assert (parent i <> p1).
    { intros E. apply parent_child in E; lia. }
    rewrite !nth_upd_other by lia. apply L5; lia.
  - intros c Hc Ec. apply parent_child in Ec; lia.
Qed.

Lemma nth_removelast {A : Type} (l : list A) i d :
  i < List.length (removelast l) -> nth i (removelast l) d = nth i l d.
Proof.
  revert i. induction l as [|a l IH]; intros i Hi; [simpl in Hi; lia|].
  destruct l as [|b l]; [simpl in Hi; lia|].
  change (removelast (a :: b :: l)) with (a :: removelast (b :: l)) in *.
  destruct i; [reflexivity|]. cbn [List.length] in Hi. apply (IH i). lia.
Qed.

Lemma removelast_length {A : Type} (l : list A) :
  List.length (removelast l) = List.length l - 1.
Proof.
  induction l as [|a l IH]; [reflexivity|].
  destruct l as [|b l]; [reflexivity|].
  change (removelast (a :: b :: l)) with (a :: removelast (b :: l)).
  cbn [List.length] in *. lia.
Qed.

(** [heappop] returns a least entry and leaves a heap. *)
Lemma heappop_ok heap x heap' :
  heap_ok heap -> keys_ok heap -> heappop heap = Some (x, heap') ->
  heap_ok heap' /\ keys_ok heap'
  /\ forall y, In y heap -> item_lt y x = false.
Proof.
  intros H K Hpop.
  assert (K' : keys_ok heap').
  { apply keys_ok_In. intros y Hy. apply (proj1 (keys_ok_In heap) K).
    apply (heappop_In _ _ _ _ Hpop). now right. }
  pose proof (heap_root_least heap H K) as R.
  unfold heappop in Hpop. destruct heap as [|a heap]; [discriminate|].
  pose proof (removelast_length (a :: heap)) as RL.
  pose proof (fun i => nth_removelast (a :: heap) i item0) as RN.
  assert (N : a :: heap <> []) by discriminate.
  pose proof (app_removelast_last item0 N) as E.
  remember (last (a :: heap) item0) as lastelt eqn:El.
  destruct (removelast (a :: heap)) as [|r rest] eqn:Er; rewrite ?Er in *.
  - inversion Hpop; subst. split; [intros i Hi; simpl in Hi; lia|].
    split; [assumption|]. rewrite E. intros y [<-|[]]. apply item_lt_irrefl.
  - inversion Hpop; subst x heap'. clear Hpop.
    assert (Hr : r = nth 0 (a :: heap) item0).
    { rewrite <- (RN 0) by (simpl; lia). reflexivity. }
    split; [|split; [assumption|]].
    + apply siftup_ok; [discriminate| |].
      * apply keys_ok_In. intros y [<-|Hy].
        -- apply (proj1 (keys_ok_In _) K). apply exists_last in N.
           rewrite E. apply in_app_iff. right. now left.
        -- apply (proj1 (keys_ok_In _) K). rewrite E. apply in_app_iff.
           left. now right.
      * intros i Hi Pi. pose proof (parent_lt i ltac:(lia)) as Pl.
        assert (Li : i < List.length (r :: rest)) by (simpl in *; lia).
        destruct i as [|i]; [lia|].
        destruct (parent (S i)) as [|q] eqn:Eq; [congruence|].
        change (nth (S i) (lastelt :: rest) item0)
          with (nth (S i) (r :: rest) item0).
        change (nth (S q) (lastelt :: rest) item0)
          with (nth (S q) (r :: rest) item0).
        rewrite !RN by lia. rewrite <- Eq. apply H. simpl in *. lia.
    + intros y Hy. rewrite Hr. destruct (In_nth _ _ item0 Hy) as (i & Hi & <-).
      now apply R.
Qed.

(** ** Settled nodes in [dijkstra]

    With weights that never lower a distance, the keys popped never
    decrease: a node whose distance is at most the last popped key keeps
    that distance for good. *)

Lemma fold_res_prefix {A S : Type} (J : list A -> S -> Prop)
    (body : S -> A -> res S) l :
  (forall done x s s', J done s -> In x l -> body s x = Ok s' -> J (done ++ [x]) s') ->
  forall s s', J [] s -> fold_res l body s = Ok s' -> J l s'.
Proof.
  intros Hb.
  enough (H : forall rest done s s',
            (forall x, In x rest -> In x l) ->
            J done s -> fold_res rest body s = Ok s' -> J (done ++ rest) s').
  { intros s s' H0 Hf. apply (H l [] s s'); auto. }
  induction rest as [|x rest IH]; intros done s s' Hin Hd; simpl.
  - intros E; inversion E; subst. now rewrite app_nil_r.
  - destruct (body s x) as [s1| |] eqn:E; simpl; try discriminate.
    intros Hf. change (x :: rest) with ([x] ++ rest). rewrite app_assoc.
    apply IH with (s := s1); auto.
    + intros y Hy. apply Hin. now right.
    + apply (Hb done x s s1); auto. apply Hin. now left.
Qed.

Definition closed (g : Graph) (dist : dict float) (u : string) (du : float) : Prop :=
  forall e dv, In e (nbrs g u) -> dict_get dist (to_node e) = Some dv ->
               (du + effective_weight e <? dv)%float = false.

(** The state of [dijkstra] with the last popped key at [m]: the queue is
    a heap with keys from [m] on; a predecessor link carries the distance
    of its source, which is settled, plus the weight of a stored edge; a
    node is in the queue with its distance or all its edges are relaxed. *)
Record dsettle (g : Graph) (m : Z) (st : dstate) : Prop := {
  ds_pos : (key_top <= m)%Z;
  ds_heap : heap_ok (snd st);
  ds_low : forall x, In x (snd st) -> (m <= fkey (fst x))%Z;
  ds_cons : forall v u, dict_get (snd (fst st)) v = Some u ->
      exists e du,
        In e (nbrs g u) /\ to_node e = v
        /\ dict_get (fst (fst st)) u = Some du
        /\ dict_get (fst (fst st)) v = Some (du + effective_weight e)%float
        /\ (fkey du <= m)%Z;
  ds_pend : forall u du, dict_get (fst (fst st)) u = Some du ->
      In (du, u) (snd st) \/ closed g (fst (fst st)) u du
}.

Lemma dbase_keys_ok g start st : dbase g start st -> keys_ok (snd st).
Proof.
  intros B. apply keys_ok_In. intros [k u] Hx.
  destruct (db_ent _ _ _ B _ _ Hx) as (du & Hd & [<-|L]).
  - exact (db_nan _ _ _ B _ _ Hd).
  - apply ltb_true_iff in L. unfold key_ok. simpl. tauto.
Qed.

Lemma least_key h x :
  keys_ok h -> key_ok x -> (forall y, In y h -> item_lt y x = false) ->
  forall y, In y h -> (fkey (fst x) <= fkey (fst y))%Z.
Proof.
  intros K Kx H y Hy.
  destruct (Z.le_gt_cases (fkey (fst x)) (fkey (fst y))) as [L|L]; auto.
  enough (item_lt y x = true) by (rewrite H in *; auto; discriminate).
  apply item_lt_true; auto. apply (proj1 (keys_ok_In h) K). exact Hy.
Qed.

Lemma closed_lower g dist u du v nd dv :
  closed g dist u du -> dict_get dist v = Some dv -> (nd <? dv)%float = true ->
  closed g (dict_set dist v nd) u du.
Proof.
  intros C Hv L e d He. rewrite dict_get_set.
  destruct (String.eqb_spec v (to_node e)) as [->|]; [|now apply C].
  intros H; inversion H; subst d.
  destruct (du + effective_weight e <? nd)%float eqn:K; auto.
  rewrite <- (C e dv He Hv). symmetry. now apply ltb_trans with (y := nd).
Qed.

Section RelaxSettled.
Variables (g : Graph) (u : string) (k : float) (dist0 : dict float).
Hypothesis W : weights_ok g.
Hypothesis Nk : ~ fnan k.
Hypothesis Pk : (key_top <= fkey k)%Z.

(** What the relaxation of the edges [done] of [u], popped with key [k],
    has kept and gained. *)
Record rsettle (done : list Edge) (s : dstate) : Prop := {
  rs_heap : heap_ok (snd s);
  rs_keys : keys_ok (snd s);
  rs_low : forall x, In x (snd s) -> (fkey k <= fkey (fst x))%Z;
  rs_cons : forall v p, dict_get (snd (fst s)) v = Some p ->
      exists e dp,
        In e (nbrs g p) /\ to_node e = v
        /\ dict_get (fst (fst s)) p = Some dp
        /\ dict_get (fst (fst s)) v = Some (dp + effective_weight e)%float
        /\ (fkey dp <= fkey k)%Z;
  rs_pend : forall x dx, x <> u -> dict_get (fst (fst s)) x = Some dx ->
      In (dx, x) (snd s) \/ closed g (fst (fst s)) x dx;
  rs_self : dict_get (fst (fst s)) u = Some k;
  rs_done : forall e dv, In e done -> dict_get (fst (fst s)) (to_node e) = Some dv ->
      (k + effective_weight e <? dv)%float = false;
  rs_frozen : forall v d, dict_get dist0 v = Some d -> (fkey d <= fkey k)%Z ->
      dict_get (fst (fst s)) v = Some d
}.

Lemma relax_p_settle done e s s' :
  rsettle done s -> In e (nbrs g u) -> relax_p u k s e = Ok s' ->
  rsettle (done ++ [e]) s'.
Proof.
  intros [R1 R2 R3 R4 R5 R6 R7 R8] He H. destruct s as [[dist prev] pq].
  cbn [fst snd] in *.
  apply relax_p_cases in H as (dv & Hv & [[L ->]|[L ->]]).
  2: { constructor; cbn [fst snd]; auto.
       intros e' d' He'. apply in_app_iff in He' as [He'|[<-|[]]]; auto.
       intros Hd. rewrite Hv in Hd. now inversion Hd; subst. }
  set (v := to_node e) in *. set (nd := (k + effective_weight e)%float) in *.
  pose proof L as L'. apply ltb_true_iff in L' as (Nnd & Ndv & Lk).
  assert (M : (fkey k <= fkey nd)%Z).
  { apply weight_ok_key; auto. now apply weights_ok_nbrs with (g := g) (u := u). }
  assert (Nuv : u <> v).
  { intros E. rewrite <- E, R6 in Hv. inversion Hv; subst. lia. }
  constructor; cbn [fst snd].
  - apply heappush_ok; auto.
  - apply keys_ok_In. intros y Hy. apply heappush_In in Hy as [->|Hy]; auto.
    now apply (proj1 (keys_ok_In pq) R2).
  - intros x Hx. apply heappush_In in Hx as [->|Hx]; auto.
  - intros a p. rewrite dict_get_set.
    destruct (String.eqb_spec v a) as [<-|Na].
    + intros H; inversion H; subst p. exists e, k.
      rewrite dict_get_set_other by auto. rewrite dict_get_set_same.
      repeat split; auto. lia.
    + intros H. destruct (R4 _ _ H) as (e0 & dp & H1 & H2 & H3 & H4 & H5).
      exists e0, dp. rewrite !dict_get_set.
      destruct (String.eqb_spec v p) as [<-|Np].
      * rewrite Hv in H3. inversion H3; subst. lia.
      * destruct (String.eqb_spec v a); [contradiction|]. auto.
  - intros x dx Nx. rewrite dict_get_set.
    destruct (String.eqb_spec v x) as [<-|Nvx].
    + intros H; inversion H; subst. left. apply heappush_In. now left.
    + intros H. destruct (R5 _ _ Nx H) as [P|C].
      * left. apply heappush_In. now right.
      * right. now apply closed_lower with (dv := dv).
  - rewrite dict_get_set_other; auto.
  - intros e' d' He'. rewrite dict_get_set.
    destruct (String.eqb_spec v (to_node e')) as [Ev|Nv].
    + intros H; inversion H; subst d'.
      apply in_app_iff in He' as [He'|[<-|[]]].
      * destruct (k + effective_weight e' <? nd)%float eqn:K; auto.
        rewrite <- (R7 e' dv He'); [|now rewrite <- Ev].
        symmetry. now apply ltb_trans with (y := nd).
      * destruct (nd <? nd)%float eqn:K; auto.
        apply ltb_true_iff in K. lia.
    + intros H. apply in_app_iff in He' as [He'|[<-|[]]]; auto. contradiction.
  - intros a d Ha Hd. rewrite dict_get_set.
    destruct (String.eqb_spec v a) as [<-|]; auto.
    rewrite (R8 _ _ Ha Hd) in Hv. inversion Hv; subst. lia.
Qed.

End RelaxSettled.

Lemma dstep_settle g start m st st' :
  weights_ok g -> dbase g start st -> dsettle g m st -> dstep g st = Ok st' ->
  exists k u pq',
    heappop (snd st) = Some ((k, u), pq') /\ (m <= fkey k)%Z
    /\ dsettle g (fkey k) st'
    /\ forall v d, dict_get (fst (fst st)) v = Some d -> (fkey d <= fkey k)%Z ->
                   dict_get (fst (fst st')) v = Some d.
Proof.
  intros W B [S0 S1 S2 S3 S4] H. destruct st as [[dist prev] pq].
  pose proof (dbase_keys_ok _ _ _ B) as KO. cbn [fst snd] in *.
  apply dstep_cases in H as (k & u & pq' & du & Hpop & Hd & H).
  exists k, u, pq'. split; [exact Hpop|].
  assert (Hin : In (k, u) pq) by (apply (heappop_In _ _ _ _ Hpop); now left).
  assert (Kk : key_ok (k, u)) by (apply (proj1 (keys_ok_In pq) KO); exact Hin).
  destruct (heappop_ok _ _ _ S1 KO Hpop) as (H1 & K1 & Hmin).
  pose proof (least_key pq (k, u) KO Kk Hmin) as Least. cbn [fst] in Least.
  assert (Sub : forall y, In y pq' -> In y pq).
  { intros y Hy. apply (heappop_In _ _ _ _ Hpop). now right. }
  split; [exact (S2 _ Hin)|].
  pose proof (S2 _ Hin) as Mk. cbn [fst] in Mk.
  destruct H as [[L ->]|[L H]].
  - split; [|auto]. constructor; cbn [fst snd]; auto.
    + lia.
    + intros v p Hp. destruct (S3 _ _ Hp) as (e & dp & A1 & A2 & A3 & A4 & A5).
      exists e, dp. repeat split; auto. lia.
    + intros x dx Hx. destruct (S4 _ _ Hx) as [P|C]; auto.
      left. apply (heappop_In _ _ _ _ Hpop) in P as [P|P]; auto.
      inversion P; subst. rewrite Hd in Hx. inversion Hx; subst.
      apply ltb_true_iff in L. lia.
  - destruct (db_ent _ _ _ B _ _ Hin) as (du' & Hd' & Hk). cbn [fst snd] in *.
    rewrite Hd in Hd'. inversion Hd'; subst du'.
    destruct Hk as [->|Hk]; [|congruence].
    apply (fold_res_prefix (rsettle g u k dist)) with (s' := st') in H.
    + destruct H as [R1 R2 R3 R4 R5 R6 R7 R8]. split; [|exact R8].
      constructor; auto; [lia|].
      intros x dx Hx. destruct (String.eqb_spec x u) as [->|Nx]; auto.
      right. rewrite R6 in Hx. inversion Hx; subst. intros e dv He Hv.
      now apply R7.
    + intros done e s s1 Hs He Hr.
      apply (relax_p_settle g u k dist W (proj1 (keys_ok_In pq) KO _ Hin)
               ltac:(lia) done e s s1); auto.
    + constructor; cbn [fst snd]; auto.
      * intros v p Hp. destruct (S3 _ _ Hp) as (e & dp & A1 & A2 & A3 & A4 & A5).
        exists e, dp. repeat split; auto. lia.
      * intros x dx Nx Hx. destruct (S4 _ _ Hx) as [P|C]; auto.
        left. apply (heappop_In _ _ _ _ Hpop) in P as [P|P]; auto.
        inversion P; subst. contradiction.
      * intros e dv [].
Qed.

Lemma closed_inf g dist u :
  weights_ok g -> (forall v d, dict_get dist v = Some d -> ~ fnan d) ->
  closed g dist u inf.
Proof.
  intros W N e dv He Hv.
  destruct (inf + effective_weight e <? dv)%float eqn:L; auto.
  apply ltb_true_iff in L as (N1 & N2 & L).
  assert (T : (0 < key_top)%Z) by reflexivity.
  pose proof (weight_ok_key _ inf (weights_ok_nbrs g u e W He) inf_not_nan) as M.
  rewrite fkey_inf in M. pose proof (fkey_range dv). specialize (M ltac:(lia) N1). lia.
Qed.

Lemma dinit_settle g start :
  weights_ok g -> dict_mem (adj g) start = true ->
  dsettle g key_top (dinit g start).
Proof.
  intros W Hs. unfold dinit. constructor; cbn [fst snd].
  - lia.
  - intros i Hi. simpl in Hi. lia.
  - intros x [<-|[]]. simpl. rewrite fkey_zero. lia.
  - discriminate.
  - intros u du. rewrite dict_get_set.
    destruct (String.eqb_spec start u) as [<-|N].
    + intros H; inversion H; subst. left. now left.
    + rewrite dict_get_const. destruct (dict_mem (adj g) u); [|discriminate].
      intros H; inversion H; subst. right.
      apply closed_inf; auto.
      intros v d. rewrite dict_get_set, dict_get_const.
      destruct (String.eqb start v); [|destruct (dict_mem (adj g) v)];
        intros K; inversion K; subst; auto using inf_not_nan, zero_not_nan.
Qed.

(** ** heapq under a change of keys that keeps the order *)

Section HeapMap.
Variable f : item -> item.
Hypothesis f_lt : forall a b, item_lt (f a) (f b) = item_lt a b.
Hypothesis f_item0 : f item0 = item0.

Lemma nth_map_item i h : nth i (map f h) item0 = f (nth i h item0).
Proof. rewrite <- f_item0 at 1. apply map_nth. Qed.

Lemma upd_map h : forall i x, upd (map f h) i (f x) = map f (upd h i x).
Proof.
  induction h as [|y h IH]; intros [|i] x; simpl; auto. now rewrite IH.
Qed.

Lemma siftdown_loop_map fuel : forall h startpos pos x,
  siftdown_loop fuel (map f h) startpos pos (f x)
  = map f (siftdown_loop fuel h startpos pos x).
Proof.
  induction fuel as [|fuel IH]; intros h startpos pos x; cbn [siftdown_loop].
  - apply upd_map.
  - destruct (startpos <? pos)%nat; [|apply upd_map].
    rewrite nth_map_item, f_lt.
    destruct (item_lt x (nth ((pos - 1) / 2) h item0)); [|apply upd_map].
    now rewrite upd_map, IH.
Qed.

Lemma siftdown_map h startpos pos :
  siftdown (map f h) startpos pos = map f (siftdown h startpos pos).
Proof. unfold siftdown. now rewrite nth_map_item, siftdown_loop_map. Qed.

Lemma siftup_loop_map fuel : forall h endpos pos,
  siftup_loop fuel (map f h) endpos pos
  = (map f (fst (siftup_loop fuel h endpos pos)),
     snd (siftup_loop fuel h endpos pos)).
Proof.
  induction fuel as [|fuel IH]; intros h endpos pos; cbn [siftup_loop].
  - reflexivity.
  - destruct (2 * pos + 1 <? endpos)%nat; [|reflexivity].
    rewrite !nth_map_item, f_lt.
    match goal with
    | |- context [if ?c then 2 * pos + 1 + 1 else 2 * pos + 1] =>
        set (child := if c then 2 * pos + 1 + 1 else 2 * pos + 1)
    end.
    now rewrite ?nth_map_item, upd_map, IH.
Qed.

Lemma siftup_map h pos : siftup (map f h) pos = map f (siftup h pos).
Proof.
  unfold siftup. rewrite length_map, siftup_loop_map, nth_map_item.
  destruct (siftup_loop (List.length h) h (List.length h) pos) as [h1 p1].
  cbn [fst snd]. now rewrite upd_map, siftdown_map.
Qed.

Lemma heappush_map h x : heappush (map f h) (f x) = map f (heappush h x).
Proof.
  unfold heappush. rewrite length_map.
  change (map f h ++ [f x]) with (map f h ++ map f [x]).
  now rewrite <- map_app, siftdown_map.
Qed.

Lemma last_map_item h : last (map f h) item0 = f (last h item0).
Proof.
  induction h as [|a h IH]; [symmetry; exact f_item0|].
  destruct h as [|b h]; [reflexivity|].
  change (last (map f (a :: b :: h)) item0) with (last (map f (b :: h)) item0).
  rewrite IH. reflexivity.
Qed.

Lemma removelast_map_item h : removelast (map f h) = map f (removelast h).
Proof.
  induction h as [|a h IH]; [reflexivity|].
  destruct h as [|b h]; [reflexivity|].
  change (removelast (map f (a :: b :: h)))
    with (f a :: removelast (map f (b :: h))).
  rewrite IH. reflexivity.
Qed.

Lemma heappop_map h :
  heappop (map f h)
  = match heappop h with
    | Some (x, h') => Some (f x, map f h')
    | None => None
    end.
Proof.
  unfold heappop. destruct h as [|a h]; [reflexivity|].
  change (f a :: map f h) with (map f (a :: h)).
  rewrite last_map_item, removelast_map_item.
  destruct (removelast (a :: h)) as [|r rest]; [reflexivity|].
  cbn [map]. change (f (last (a :: h) item0) :: map f rest)
    with (map f (last (a :: h) item0 :: rest)).
  now rewrite siftup_map.
Qed.

End HeapMap.

(** The key of [a_star] when the heuristic is [0.0]: [g + 0.0]. *)
Definition plus_zero (x : item) : item := ((fst x + zero)%float, snd x).

Lemma add_zero_sf a :
  match Prim2SF a with
  | S754_zero _ => exists s, Prim2SF (a + zero) = S754_zero s
  | x => Prim2SF (a + zero) = x
  end.
Proof.
  rewrite add_spec. change (Prim2SF zero) with (S754_zero false).
  destruct (Prim2SF a) as [s|s| |s m e]; try reflexivity.
  destruct s; eexists; reflexivity.
Qed.

Lemma add_zero_key a : fkey (a + zero) = fkey a.
Proof.
  unfold fkey. pose proof (add_zero_sf a) as H.
  destruct (Prim2SF a) as [s|s| |s m e]; try (rewrite H; reflexivity).
  destruct H as [s' ->]. reflexivity.
Qed.

Lemma add_zero_nan a : fnan (a + zero) <-> fnan a.
Proof.
  unfold fnan. pose proof (add_zero_sf a) as H.
  destruct (Prim2SF a) as [s|s| |s m e]; try (rewrite H; tauto).
  destruct H as [s' ->]. split; discriminate.
Qed.

Lemma bool_ext (a b : bool) : (a = true <-> b = true) -> a = b.
Proof. destruct a, b; intuition congruence. Qed.

Lemma plus_zero_lt a b : item_lt (plus_zero a) (plus_zero b) = item_lt a b.
Proof.
  unfold item_lt, plus_zero. cbn [fst snd].
  replace (fst a + zero =? fst b + zero)%float with (fst a =? fst b)%float.
  2: { apply bool_ext. rewrite !eqb_true_iff, !add_zero_key, !add_zero_nan. tauto. }
  replace (fst a + zero <? fst b + zero)%float with (fst a <? fst b)%float.
  2: { apply bool_ext. rewrite !ltb_true_iff, !add_zero_key, !add_zero_nan. tauto. }
  reflexivity.
Qed.

Lemma plus_zero_item0 : plus_zero item0 = item0.
Proof. reflexivity. Qed.

(** ** The cost of a reconstructed path *)

(** The sum of the effective weights along a list of edges, added in the
    order of the path from [0.0]. *)
Definition path_cost (es : list Edge) : float :=
  fold_left (fun acc e => (acc + effective_weight e)%float) es zero.

Lemma path_cost_app es e :
  path_cost (es ++ [e]) = (path_cost es + effective_weight e)%float.
Proof. unfold path_cost. now rewrite fold_left_app. Qed.

(** A predecessor link whose target's distance is the source's plus the
    weight of the edge. *)
Definition costed (g : Graph) (dist : dict float) (u v : string) (e : Edge) : Prop :=
  joined g u v e
  /\ exists du, dict_get dist u = Some du
                /\ dict_get dist v = Some (du + effective_weight e)%float.

Lemma tchain_cost g dist prev start v es :
  dict_get dist start = Some zero ->
  tchain (costed g dist) prev start v es ->
  dict_get dist v = Some (path_cost es).
Proof.
  intros H0. induction 1 as [|v u e es Nv Hp [_ (du & Hu & Hv)] Hc IH]; [exact H0|].
  rewrite path_cost_app. rewrite IH in Hu. inversion Hu; subst. exact Hv.
Qed.

Definition dgood (g : Graph) (start : string) (st : dstate) : Prop :=
  dtree g start st /\ exists m, dsettle g m st.

Lemma dstep_good g start st st' :
  weights_ok g -> dbase g start st -> dgood g start st ->
  dstep g st = Ok st' -> dgood g start st'.
Proof.
  intros W B [T [m S]] H. split.
  - now apply dstep_tree with (st := st).
  - destruct (dstep_settle g start m st st' W B S H) as (k & _ & _ & _ & _ & S' & _).
    now exists (fkey k).
Qed.

Lemma dinit_good g start :
  weights_ok g -> dict_mem (adj g) start = true -> dgood g start (dinit g start).
Proof.
  intros W Hs. split; [now apply dinit_tree|].
  exists key_top. now apply dinit_settle.
Qed.

(** From a state of [dijkstra], the walk that the predecessors of [v] make,
    its cost and what [_reconstruct_path] gives for it. *)
Lemma settled_path g start st v dv :
  dgood g start st ->
  dict_get (fst (fst st)) v = Some dv ->
  v = start \/ dict_mem (snd (fst st)) v = true ->
  exists es,
    walk g start es /\ walk_end start es = v /\ dv = path_cost es
    /\ forall fuel acc, List.length es <= fuel ->
         reconstruct_loop fuel (snd (fst st)) start v acc
         = Ok (rev (acc ++ rev (walk_nodes start es))).
Proof.
  intros [[T J] [m S]] Hv Pv.
  assert (HP : forall a b, dict_get (snd (fst st)) a = Some b ->
                           exists e, costed g (fst (fst st)) b a e).
  { intros a b Hab. destruct (ds_cons _ _ _ S _ _ Hab) as (e & du & H1 & H2 & H3 & H4 & _).
    exists e. split; [split; auto|]. eauto. }
  destruct (tree_chain start _ _ (costed g (fst (fst st))) T HP v Pv) as [es Hes].
  assert (HE : forall a b e, costed g (fst (fst st)) a b e -> to_node e = b)
    by (intros a b e [[_ E] _]; exact E).
  exists es. split; [|split; [|split]].
  - apply (tchain_walk g _ _ _ _ _ (fun a b e H => proj1 H) Hes).
  - apply (tchain_end _ _ _ _ _ HE Hes).
  - destruct T as [ts T].
    pose proof (tchain_cost g _ _ _ _ _ (ti_start _ _ _ _ T) Hes) as C.
    rewrite Hv in C. now inversion C.
  - intros fuel acc Hf. now apply (tchain_reconstruct _ _ _ _ _ HE Hes).
Qed.

Lemma settled_finite g start st v dv :
  dgood g start st ->
  dict_get (fst (fst st)) v = Some dv ->
  v = start \/ dict_mem (snd (fst st)) v = true ->
  (dv <? inf)%float = true /\ (dv <? zero)%float = false
  /\ (dv =? inf)%float = false.
Proof.
  intros [[[ts T] _] _] Hv Pv.
  destruct (ti_pos _ _ _ _ T _ _ Hv) as [N P].
  assert (F : (fkey dv < 2 * key_top)%Z).
  { destruct Pv as [->|Pv].
    - rewrite (ti_start _ _ _ _ T) in Hv. inversion Hv; subst.
      rewrite fkey_zero. assert (0 < key_top)%Z by reflexivity. lia.
    - apply dict_mem_true in Pv as [u Hu].
      destruct (ti_edge _ _ _ _ T _ _ Hu) as (du & dv' & _ & Hdv & F & _).
      rewrite Hv in Hdv. inversion Hdv; subst. exact F. }
  split; [|split].
  - apply ltb_true_iff. rewrite fkey_inf. auto using inf_not_nan.
  - apply ltb_false_iff; auto using zero_not_nan.
  - destruct (dv =? inf)%float eqn:E; auto.
    apply eqb_true_iff in E as (_ & _ & E). rewrite fkey_inf in E. lia.
Qed.

(** A result is [([], inf)], or a walk along stored edges with its nodes as
    the path and the sum of its weights, finite and not negative, as the
    cost. *)
Definition result_cost (g : Graph) (start end_ : string)
    (r : list string * float) : Prop :=
  r = ([], inf)
  \/ exists es, walk g start es /\ fst r = walk_nodes start es
                /\ walk_end start es = end_ /\ snd r = path_cost es
                /\ (snd r <? inf)%float = true /\ (snd r <? zero)%float = false.

Lemma result_cost_shape g start end_ r :
  result_cost g start end_ r -> result_shape g start end_ r.
Proof.
  intros [->|(es & H1 & H2 & H3 & H4 & H5 & H6)]; [now left|].
  right. exists es. auto.
Qed.

Lemma dijkstra_final g start :
  endpoints_known g -> weights_ok g -> dict_mem (adj g) start = true ->
  exists dist prev,
    dloop g (dijkstra_fuel g start) (dinit g start) = Ok (dist, prev)
    /\ (forall fuel, dijkstra_fuel g start <= fuel ->
                     dijkstra_p g fuel start = Ok (dist, prev))
    /\ dbase g start (dist, prev, []) /\ dgood g start (dist, prev, []).
Proof.
  intros K W Hs.
  destruct (dijkstra_p_total g start (dgood g start) (dijkstra_fuel g start) K Hs)
    as (dist & prev & E & B & G); auto.
  { intros st st' B I _. now apply dstep_good. }
  { now apply dinit_good. }
  exists dist, prev. unfold dijkstra_p in E. rewrite Hs in E. cbn [negb] in E.
  split; [exact E|]. split; [|auto].
  intros fuel Hf. unfold dijkstra_p. rewrite Hs. cbn [negb].
  rewrite (dloop_mono g (dijkstra_fuel g start) fuel); auto.
  rewrite E. discriminate.
Qed.

(** The end of [shortest_path_dijkstra], from the maps of [dijkstra]. *)
Lemma finish_p_cost g start end_ dist prev :
  dbase g start (dist, prev, []) -> dgood g start (dist, prev, []) ->
  exists n r,
    result_cost g start end_ r
    /\ (forall fuel, n <= fuel -> finish_p fuel start end_ (dist, prev) = Ok r)
    /\ (dict_mem dist end_ = false
        \/ (r = ([], inf) /\ dict_get dist end_ = Some inf)
        \/ (dict_get dist end_ = Some (snd r) /\ (snd r =? inf)%float = false)).
Proof.
  intros B G. unfold finish_p.
  destruct (dict_mem dist end_) eqn:M.
  2: { exists 0, ([], inf). split; [now left|]. split; [|now left]. reflexivity. }
  apply dict_mem_true in M as [de M].
  assert (M' : dict_mem dist end_ = true) by (unfold dict_mem; now rewrite M).
  unfold dict_item. rewrite M. cbn [negb res_bind].
  destruct (de =? inf)%float eqn:Einf.
  { exists 0, ([], inf). split; [now left|]. split; [reflexivity|].
    right. left. split; [reflexivity|].
    destruct (db_fin _ _ _ B _ _ M) as [->|Pe]; [reflexivity|].
    destruct (settled_finite g start _ _ _ G M Pe) as (_ & _ & F). cbn [fst snd] in *.
    congruence. }
  assert (Pe : end_ = start \/ dict_mem prev end_ = true).
  { destruct (db_fin _ _ _ B _ _ M) as [->|H]; auto. vm_compute in Einf. discriminate. }
  destruct (settled_path g start _ _ _ G M Pe) as (es & Hw & He & Hc & Hr).
  destruct (settled_finite g start _ _ _ G M Pe) as (F1 & F2 & _).
  cbn [fst snd] in *.
  exists (List.length es), (walk_nodes start es, de). split; [|split].
  - right. exists es. cbn [fst snd]. auto 7.
  - intros fuel Hf. rewrite Hr by lia. cbn [app res_bind]. now rewrite rev_involutive.
  - right. right. cbn [snd]. auto.
Qed.

Lemma shortest_path_dijkstra_cost g start end_ :
  endpoints_known g -> weights_ok g -> dict_mem (adj g) start = true ->
  exists n r,
    result_cost g start end_ r
    /\ forall fuel, n <= fuel -> shortest_path_dijkstra_p g fuel start end_ = Ok r.
Proof.
  intros K W Hs.
  destruct (dijkstra_final g start K W Hs) as (dist & prev & _ & E & B & G).
  destruct (finish_p_cost g start end_ dist prev B G) as (n & r & R & F & _).
  exists (Nat.max (dijkstra_fuel g start) n), r. split; [exact R|].
  intros fuel Hf. unfold shortest_path_dijkstra_p.
  rewrite E by lia. cbn [res_bind]. apply F. lia.
Qed.

(** ** [a_star] with the heuristic at [0.0] follows [dijkstra] *)

Lemma fold_res_sim {A S T : Type} (J : S -> Prop) (R : T -> S -> Prop)
    (bd : S -> A -> res S) (ba : T -> A -> res T) l :
  (forall x s s', In x l -> J s -> bd s x = Ok s' -> J s') ->
  (forall x s s' t, In x l -> J s -> R t s -> bd s x = Ok s' ->
                    exists t', ba t x = Ok t' /\ R t' s') ->
  forall s s' t, J s -> R t s -> fold_res l bd s = Ok s' ->
                 exists t', fold_res l ba t = Ok t' /\ R t' s'.
Proof.
  induction l as [|x l IH]; intros HJ HR s s' t Js Rs; simpl.
  - intros E; inversion E; subst. eauto.
  - destruct (bd s x) as [s1| |] eqn:E; simpl; try discriminate.
    intros Hf.
    destruct (HR x s s1 t (or_introl eq_refl) Js Rs E) as (t1 & E1 & R1).
    rewrite E1. simpl. apply IH with (s := s1); auto.
    + intros y a b Hy. apply HJ. now right.
    + intros y a b c Hy. apply HR. now right.
    + exact (HJ x s s1 (or_introl eq_refl) Js E).
Qed.

Lemma dstep_base_ok g start st st' :
  endpoints_known g -> dbase g start st -> dstep g st = Ok st' -> dbase g start st'.
Proof.
  intros K B E.
  assert (Hne : snd st <> []).
  { destruct st as [[dist prev] pq]. intros H. simpl in H. subst pq.
    unfold dstep, heappop_res in E. simpl in E. discriminate. }
  destruct (dstep_base g start st K B Hne) as (st1 & E1 & B1 & _).
  rewrite E in E1. inversion E1; subst. exact B1.
Qed.

Lemma dloop_next g fuel st final :
  dloop g fuel st = Ok final -> snd st <> [] ->
  exists fuel' st', fuel = S fuel' /\ dstep g st = Ok st'
                    /\ dloop g fuel' st' = Ok final.
Proof.
  destruct st as [[dist prev] pq]. cbn [snd]. intros E Hne.
  destruct pq as [|x pq]; [contradiction|].
  destruct fuel as [|fuel]; [discriminate|]. cbn [dloop snd] in E.
  destruct (dstep g (dist, prev, x :: pq)) as [st'| |]; try discriminate.
  exists fuel, st'. auto.
Qed.

(** Once the queue holds keys from [m] on, a distance at most [m] is
    final. *)
Lemma dloop_frozen g start :
  endpoints_known g -> weights_ok g ->
  forall fuel st m final,
    dbase g start st -> dsettle g m st -> dloop g fuel st = Ok final ->
    forall v d, dict_get (fst (fst st)) v = Some d -> (fkey d <= m)%Z ->
                dict_get (fst final) v = Some d.
Proof.
  intros K W. induction fuel as [|fuel IH]; intros st m final B Se E v d Hv Hd.
  - destruct st as [[dist prev] pq]. destruct pq; [|discriminate].
    inversion E; subst. exact Hv.
  - destruct (snd st) as [|x pq] eqn:Hpq.
    + destruct st as [[dist prev] pq']. cbn [snd] in Hpq. subst pq'.
      inversion E; subst. exact Hv.
    + destruct (dloop_next g (S fuel) st final E) as (fuel' & st' & Ef & Es & El).
      { rewrite Hpq. discriminate. }
      inversion Ef; subst fuel'.
      destruct (dstep_settle g start m st st' W B Se Es)
        as (k & u & pq' & _ & Hm & S' & Fz).
      apply (IH st' (fkey k) final); auto.
      * now apply dstep_base_ok with (st := st).
      * apply Fz; auto. lia.
      * lia.
Qed.

Lemma stale_closed g start m dist prev pq k u pq' du :
  dbase g start (dist, prev, pq) -> dsettle g m (dist, prev, pq) ->
  heappop pq = Some ((k, u), pq') ->
  dict_get dist u = Some du -> (du <? k)%float = true ->
  closed g dist u du.
Proof.
  intros B S Hpop Hd L.
  pose proof (dbase_keys_ok _ _ _ B) as KO.
  destruct (heappop_ok _ _ _ (ds_heap _ _ _ S) KO Hpop) as (_ & _ & Hmin).
  destruct (ds_pend _ _ _ S _ _ Hd) as [P|C]; auto. cbn [fst snd] in *.
  apply ltb_true_iff in L as (N1 & N2 & L).
  enough (item_lt (du, u) (k, u) = true) by (rewrite (Hmin _ P) in *; discriminate).
  apply item_lt_true; unfold key_ok; auto.
Qed.

Lemma rsettle_init g start m dist prev pq k u pq' :
  dbase g start (dist, prev, pq) -> dsettle g m (dist, prev, pq) ->
  heappop pq = Some ((k, u), pq') -> dict_get dist u = Some k ->
  rsettle g u k dist [] (dist, prev, pq').
Proof.
  intros B [S0 S1 S2 S3 S4] Hpop Hd.
  pose proof (dbase_keys_ok _ _ _ B) as KO. cbn [fst snd] in *.
  assert (Hin : In (k, u) pq) by (apply (heappop_In _ _ _ _ Hpop); now left).
  assert (Kk : key_ok (k, u)) by (apply (proj1 (keys_ok_In pq) KO); exact Hin).
  destruct (heappop_ok _ _ _ S1 KO Hpop) as (H1 & K1 & Hmin).
  pose proof (least_key pq (k, u) KO Kk Hmin) as Least. cbn [fst] in Least.
  pose proof (S2 _ Hin) as Mk. cbn [fst] in Mk.
  constructor; cbn [fst snd]; auto.
  - intros y Hy. apply Least. apply (heappop_In _ _ _ _ Hpop). now right.
  - intros v p Hp. destruct (S3 _ _ Hp) as (e & dp & A1 & A2 & A3 & A4 & A5).
    exists e, dp. repeat split; auto. lia.
  - intros x dx Nx Hx. destruct (S4 _ _ Hx) as [P|C]; auto.
    left. apply (heappop_In _ _ _ _ Hpop) in P as [P|P]; auto.
    inversion P; subst. contradiction.
  - intros e dv [].
Qed.

Section ZeroHeuristic.
Variable hypot : float -> float -> float.
Variables (g : Graph) (start goal : string).
Hypothesis K : endpoints_known g.
Hypothesis W : weights_ok g.
Hypothesis Hz : forall v, heur hypot g v goal = zero.

(** The state of [a_star] is the state of [dijkstra], with [+ 0.0] on the
    keys of the queue. *)
Definition lock (sa : astate) (sd : dstate) : Prop :=
  a_open sa = map plus_zero (snd sd)
  /\ a_came sa = snd (fst sd) /\ a_g sa = fst (fst sd).

(** The goal is untouched, or in the queue with its distance. *)
Definition pending (sd : dstate) : Prop :=
  dict_get (fst (fst sd)) goal = Some inf
  \/ exists dg, dict_get (fst (fst sd)) goal = Some dg /\ In (dg, goal) (snd sd).

Lemma relax_p_lock u k sa sd sd' e :
  lock sa sd -> dict_get (fst (fst sd)) u = Some k ->
  relax_p u k sd e = Ok sd' ->
  exists sa', a_star_relax_p hypot g goal u sa e = Ok sa' /\ lock sa' sd'.
Proof.
  destruct sa as [[[op cf] gs] fs], sd as [[dist prev] pq].
  unfold lock, a_open, a_came, a_g; cbn [fst snd]. intros (-> & -> & ->) Hu H.
  apply relax_p_cases in H as (dv & Hv & [[L ->]|[L ->]]);
    unfold a_star_relax_p, dict_item; rewrite Hu, Hv; cbn [res_bind]; rewrite L.
  - eexists. split; [reflexivity|]. cbn [fst snd]. rewrite Hz.
    split; [|auto].
    now rewrite <- (heappush_map plus_zero plus_zero_lt plus_zero_item0).
  - eexists. split; [reflexivity|]. cbn [fst snd]. auto.
Qed.

Lemma relax_p_pending u k sd sd' e :
  pending sd -> relax_p u k sd e = Ok sd' -> pending sd'.
Proof.
  destruct sd as [[dist prev] pq]. unfold pending. cbn [fst snd]. intros P H.
  apply relax_p_cases in H as (dv & Hv & [[L ->]|[L ->]]); cbn [fst snd]; auto.
  destruct (String.eqb_spec (to_node e) goal) as [E|N].
  - right. eexists. rewrite E, dict_get_set_same. split; [reflexivity|].
    apply heappush_In. now left.
  - rewrite dict_get_set_other by auto.
    destruct P as [P|(dg & P1 & P2)]; auto.
    right. exists dg. split; auto. apply heappush_In. now right.
Qed.

Lemma dstep_pending sd sd' k u pq' :
  heappop (snd sd) = Some ((k, u), pq') -> u <> goal ->
  pending sd -> dstep g sd = Ok sd' -> pending sd'.
Proof.
  destruct sd as [[dist prev] pq]. cbn [snd]. intros Hpop Nu P H.
  assert (P' : pending (dist, prev, pq')).
  { destruct P as [P|(dg & P1 & P2)]; [now left|]. right. exists dg.
    cbn [fst snd] in *. split; auto.
    apply (heappop_In _ _ _ _ Hpop) in P2 as [P2|P2]; auto.
    inversion P2; subst. contradiction. }
  apply dstep_cases in H as (k' & u' & pq'' & du & Hpop' & Hd & H).
  rewrite Hpop in Hpop'. inversion Hpop'; subst k' u' pq''.
  destruct H as [[_ ->]|[_ H]]; auto.
  apply (fold_res_pres pending) in H; auto.
  intros s x s' _ Hs Hr. now apply relax_p_pending with (u := u) (k := k) (sd := s) (e := x).
Qed.

Lemma astep_closed u du op cf gs fs :
  closed g gs u du -> dict_get gs u = Some du ->
  (forall e, In e (nbrs g u) -> dict_mem gs (to_node e) = true) ->
  astep hypot g goal u (op, cf, gs, fs) = Ok (op, cf, gs, fs).
Proof.
  intros C Hu Hk. unfold astep.
  enough (H : forall l, (forall e, In e l -> In e (nbrs g u)) ->
            fold_res l (a_star_relax_p hypot g goal u) (op, cf, gs, fs)
            = Ok (op, cf, gs, fs)) by (apply H; auto).
  induction l as [|e l IH]; intros Hl; [reflexivity|].
  cbn [fold_res]. unfold a_star_relax_p at 1. unfold dict_item. rewrite Hu.
  assert (He : In e (nbrs g u)) by (apply Hl; now left).
  destruct (proj1 (dict_mem_true _ _) (Hk e He)) as [gn Hn].
  rewrite Hn. cbn [res_bind]. rewrite (C e gn He Hn). cbn [res_bind].
  apply IH. intros e' He'. apply Hl. now right.
Qed.

(** One turn of the loop of [a_star] against one turn of [dijkstra]. *)
Lemma lock_step op cf gs fs sd m x open' sd' :
  dbase g start sd -> dsettle g m sd -> lock (op, cf, gs, fs) sd ->
  heappop op = Some (x, open') -> dstep g sd = Ok sd' ->
  exists k pq' sa',
    heappop (snd sd) = Some ((k, snd x), pq')
    /\ astep hypot g goal (snd x) (open', cf, gs, fs) = Ok sa'
    /\ lock sa' sd'.
Proof.
  destruct sd as [[dist prev] pq].
  unfold lock, a_open, a_came, a_g; cbn [fst snd]. intros B S (-> & -> & ->) Hpop H.
  rewrite (heappop_map plus_zero plus_zero_lt plus_zero_item0) in Hpop.
  apply dstep_cases in H as (k & u & pq' & du & Hpop' & Hd & H).
  rewrite Hpop' in Hpop. inversion Hpop; subst x open'. cbn [plus_zero fst snd].
  exists k, pq'.
  assert (Hin : In (k, u) pq) by (apply (heappop_In _ _ _ _ Hpop'); now left).
  destruct H as [[L ->]|[L H]].
  - exists (map plus_zero pq', prev, dist, fs). split; [exact Hpop'|].
    split; [|cbn [fst snd]; auto].
    apply astep_closed with (du := du); auto.
    + now apply (stale_closed g start m dist prev pq k u pq').
    + intros e He. rewrite (db_keys _ _ _ B). cbn [fst snd].
      now apply nbrs_known with (u := u).
  - destruct (db_ent _ _ _ B _ _ Hin) as (du' & Hd' & Hk). cbn [fst snd] in *.
    rewrite Hd in Hd'. inversion Hd'; subst du'.
    destruct Hk as [->|Hk]; [|congruence].
    assert (Nk : ~ fnan k) by exact (db_nan _ _ _ B _ _ Hd).
    assert (Pk : (key_top <= fkey k)%Z).
    { pose proof (ds_pos _ _ _ S). pose proof (ds_low _ _ _ S _ Hin) as Lk.
      cbn [fst] in Lk. lia. }
    pose proof (rsettle_init g start m dist prev pq k u pq' B S Hpop' Hd) as R0.
    destruct (fold_res_sim (fun s => exists done, rsettle g u k dist done s) lock
                (relax_p u k) (a_star_relax_p hypot g goal u) (nbrs g u))
      with (s := (dist, prev, pq')) (s' := sd')
           (t := (map plus_zero pq', prev, dist, fs)) as (sa' & E & L').
    + intros e s s' He [done Hs] Hr. exists (done ++ [e]).
      now apply (relax_p_settle g u k dist W Nk Pk done e s s').
    + intros e s s' t He [done Hs] Ht Hr.
      apply relax_p_lock with (k := k) (sd := s); auto.
      exact (rs_self _ _ _ _ _ _ Hs).
    + now exists [].
    + unfold lock, a_open, a_came, a_g; cbn [fst snd]. auto.
    + exact H.
    + exists sa'. split; [exact Hpop'|]. auto.
Qed.

(** The first entry of the goal that is popped carries its distance. *)
Lemma first_pop_fresh m dist prev pq k pq' :
  dbase g start (dist, prev, pq) -> dsettle g m (dist, prev, pq) ->
  pending (dist, prev, pq) -> heappop pq = Some ((k, goal), pq') ->
  dict_get dist goal = Some k.
Proof.
  intros B S P Hpop.
  assert (Hin : In (k, goal) pq) by (apply (heappop_In _ _ _ _ Hpop); now left).
  destruct (db_ent _ _ _ B _ _ Hin) as (du & Hd & [->|L]); auto.
  cbn [fst snd] in *. exfalso.
  pose proof (dbase_keys_ok _ _ _ B) as KO.
  destruct (heappop_ok _ _ _ (ds_heap _ _ _ S) KO Hpop) as (_ & _ & Hmin).
  apply ltb_true_iff in L as (N1 & N2 & L).
  destruct P as [P|(dg & P1 & P2)]; cbn [fst snd] in *.
  - rewrite Hd in P. inversion P; subst. rewrite fkey_inf in L.
    pose proof (fkey_range k). lia.
  - rewrite Hd in P1. inversion P1; subst dg.
    enough (item_lt (du, goal) (k, goal) = true) by (rewrite (Hmin _ P2) in *; discriminate).
    apply item_lt_true; unfold key_ok; auto.
Qed.

(** What the loop of [a_star] keeps, for the maps [final] that [dijkstra]
    ends with. *)
Definition zinv (final : dict float * dict string) (sa : astate) : Prop :=
  exists sd,
    lock sa sd /\ dbase g start sd /\ dgood g start sd /\ pending sd
    /\ exists fuel, dloop g fuel sd = Ok final.

Lemma zinv_step final op cf gs fs x open' st' :
  zinv final (op, cf, gs, fs) -> heappop op = Some (x, open') -> snd x <> goal ->
  astep hypot g goal (snd x) (open', cf, gs, fs) = Ok st' -> zinv final st'.
Proof.
  intros (sd & L & B & [T [m S]] & P & fuel & E) Hpop Nx Ha.
  assert (Hne : snd sd <> []).
  { destruct L as (L & _). unfold a_open in L. cbn [fst] in L. intros H.
    rewrite H in L. subst op. discriminate. }
  destruct (dloop_next g fuel sd final E Hne) as (fuel' & sd' & _ & Es & El).
  destruct (lock_step op cf gs fs sd m x open' sd' B S L Hpop Es)
    as (k & pq' & sa' & Hp & Ea & L').
  rewrite Ea in Ha. inversion Ha; subst sa'.
  exists sd'. split; [exact L'|]. split; [|split; [|split]].
  - now apply dstep_base_ok with (st := sd).
  - apply dstep_good with (st := sd); auto. split; eauto.
  - now apply (dstep_pending sd sd' k (snd x) pq').
  - now exists fuel'.
Qed.

Lemma zinv_init final fuel :
  dict_mem (adj g) start = true -> dict_mem (adj g) goal = true ->
  dloop g fuel (dinit g start) = Ok final ->
  zinv final (ainit hypot g start goal).
Proof.
  intros Hs Hg E. exists (dinit g start). split; [|split; [|split; [|split]]].
  - unfold lock, ainit, dinit, a_open, a_came, a_g. cbn [fst snd]. auto.
  - now apply dinit_base.
  - now apply dinit_good.
  - unfold pending, dinit. cbn [fst snd]. rewrite dict_get_set.
    destruct (String.eqb_spec start goal) as [->|N].
    + right. exists zero. split; auto. now left.
    + left. rewrite dict_get_const, Hg. reflexivity.
  - now exists fuel.
Qed.

(** With the heuristic at [0.0], [a_star] returns the distance that
    [dijkstra] ends with for the goal, on a walk of that cost. *)
Lemma a_star_zero final fuel_d :
  dict_mem (adj g) start = true -> dict_mem (adj g) goal = true ->
  dloop g fuel_d (dinit g start) = Ok final ->
  exists n r,
    (forall fuel, n <= fuel -> a_star_p hypot g fuel start goal = Ok r)
    /\ result_cost g start goal r
    /\ ((r = ([], inf) /\ dict_get (fst final) goal = Some inf)
        \/ (dict_get (fst final) goal = Some (snd r)
            /\ (snd r =? inf)%float = false)).
Proof.
  intros Hs Hg E.
  assert (U : forall fuel, a_star_p hypot g fuel start goal
                           = aloop hypot g fuel fuel start goal (ainit hypot g start goal)).
  { intros fuel. unfold a_star_p. now rewrite Hs, Hg. }
  destruct (aloop_total hypot g start goal (zinv final) K) with
    (fuel := a_star_fuel hypot g start goal) (st := ainit hypot g start goal) as [H|H].
  { intros op cf gs fs x open' st' _ Z Hpop Nx Ha.
    now apply (zinv_step final op cf gs fs x open' st'). }
  { now apply ainit_base. }
  { now apply zinv_init with (fuel := fuel_d). }
  { unfold a_star_fuel. pose proof (amu_nonneg (ainit hypot g start goal)). lia. }
  - destruct H as (cf & gs & fs & (sd & L & B & G & P & fuel & El) & H).
    exists (a_star_fuel hypot g start goal), ([], inf).
    split; [|split; [now left|left; split; [reflexivity|]]].
    + intros fuel' Hf. rewrite U. rewrite <- (H fuel').
      apply aloop_mono; auto. rewrite (H fuel'). discriminate.
    + destruct sd as [[dist prev] pq]. destruct L as (L & _).
      unfold a_open in L. cbn [fst snd] in L.
      destruct pq; [|discriminate].
      assert (final = (dist, prev)) as -> by (destruct fuel; inversion El; auto).
      destruct P as [P|(dg & _ & [])]. exact P.
  - destruct H as (op & cf & gs & fs & f & open' & _ & Z & Hpop & H).
    destruct Z as (sd & L & B & G & P & fuel & El).
    assert (Hne : snd sd <> []).
    { destruct L as (L & _). unfold a_open in L. cbn [fst] in L. intros H0.
      rewrite H0 in L. subst op. discriminate. }
    destruct (dloop_next g fuel sd final El Hne) as (fuel' & sd' & _ & Es & El').
    pose proof G as [T [m S]].
    destruct (lock_step op cf gs fs sd m (f, goal) open' sd' B S L Hpop Es)
      as (k & pq' & _ & Hp & _ & _).
    destruct (dstep_settle g start m sd sd' W B S Es)
      as (k1 & u1 & pq1 & Hp1 & _ & S' & Fz).
    rewrite Hp in Hp1. cbn [snd] in Hp1. inversion Hp1; subst k1 u1 pq1.
    destruct sd as [[dist prev] pq].
    destruct L as (_ & Lc & Lg). unfold a_came, a_g in Lc, Lg.
    cbn [fst snd] in *. subst cf gs.
    pose proof (first_pop_fresh m dist prev pq k pq' B S P Hp) as Hk.
    assert (Hin : In (k, goal) pq) by (apply (heappop_In _ _ _ _ Hp); now left).
    pose proof (db_par _ _ _ B _ Hin) as Pg. cbn [fst snd] in Pg.
    destruct (settled_path g start (dist, prev, pq) goal k G Hk Pg)
      as (es & Hw & He & Hc & Hr).
    destruct (settled_finite g start (dist, prev, pq) goal k G Hk Pg)
      as (F1 & F2 & F3).
    cbn [fst snd] in *.
    exists (Nat.max (a_star_fuel hypot g start goal) (List.length es)),
           (walk_nodes start es, k).
    assert (R : forall rfuel, List.length es <= rfuel ->
              aloop hypot g (a_star_fuel hypot g start goal) rfuel start goal
                    (ainit hypot g start goal)
              = Ok (walk_nodes start es, k)).
    { intros rfuel Hrf. rewrite H. rewrite Hr by lia.
      cbn [app res_bind]. unfold dict_item. rewrite Hk. cbn [res_bind].
      now rewrite rev_involutive. }
    split; [|split].
    + intros fuel0 Hf. rewrite U. rewrite <- (R fuel0) by lia.
      apply aloop_mono; try lia. rewrite (R fuel0) by lia. discriminate.
    + right. exists es. cbn [fst snd]. auto 7.
    + right. cbn [snd]. split; [|exact F3].
      apply (dloop_frozen g start K W fuel' sd' (fkey k) final); auto.
      * now apply dstep_base_ok with (st := (dist, prev, pq)).
      * apply Fz; auto. lia.
      * lia.
Qed.

End ZeroHeuristic.

(** ** Binary64: sums and products of numbers that are not negative *)

Lemma pow2_pos a : (0 <= a -> 0 < 2 ^ a)%Z.
Proof. intros. apply Z.pow_pos_nonneg; lia. Qed.

Lemma pow2_le a b : (0 <= a <= b -> 2 ^ a <= 2 ^ b)%Z.
Proof. intros. apply Z.pow_le_mono_r; lia. Qed.

Lemma pow2_lt_inv a b : (0 <= b -> 2 ^ a < 2 ^ b -> a < b)%Z.
Proof. intros Hb H. apply (Z.pow_lt_mono_r_iff 2); lia. Qed.

Lemma digits2_pos_low m : (2 ^ (Zpos (digits2_pos m) - 1) <= Zpos m)%Z.
Proof.
  induction m as [m IH|m IH|]; cbn [digits2_pos].
  - rewrite Pos2Z.inj_succ.
    replace (Z.succ (Zpos (digits2_pos m)) - 1)%Z
      with (Z.succ (Zpos (digits2_pos m) - 1)) by lia.
    rewrite Z.pow_succ_r by lia. lia.
  - rewrite Pos2Z.inj_succ.
    replace (Z.succ (Zpos (digits2_pos m)) - 1)%Z
      with (Z.succ (Zpos (digits2_pos m) - 1)) by lia.
    rewrite Z.pow_succ_r by lia. lia.
  - reflexivity.
Qed.

Lemma fexp_eq e : fexp prec emax e = Z.max (e - 53) (-1074).
Proof. reflexivity. Qed.

Lemma shr_1_m r : (0 <= shr_m r)%Z -> shr_m (shr_1 r) = (shr_m r / 2)%Z.
Proof.
  destruct r as [m rr s]; cbn [shr_m shr_1]. intros H.
  destruct m as [|p|p]; [reflexivity| |lia].
  destruct p as [p|p|]; cbn [shr_m].
  - apply Z.div_unique with (r := 1%Z); lia.
  - apply Z.div_unique with (r := 0%Z); lia.
  - reflexivity.
Qed.

Lemma iter_pos_shr p : forall r,
  (0 <= shr_m r)%Z ->
  shr_m (iter_pos shr_1 p r) = (shr_m r / 2 ^ Zpos p)%Z.
Proof.
  assert (N : forall r, (0 <= shr_m r)%Z -> (0 <= shr_m (shr_1 r))%Z).
  { intros r H. rewrite shr_1_m by assumption. apply Z.div_pos; lia. }
  induction p as [p IH|p IH|]; intros r H; cbn [iter_pos].
  - assert (H1 : (0 <= shr_m (iter_pos shr_1 p (shr_1 r)))%Z).
    { rewrite IH by auto. apply Z.div_pos; [auto|]. apply pow2_pos; lia. }
    rewrite IH, IH, shr_1_m by auto.
    rewrite !Z.div_div by (try apply pow2_pos; lia).
    f_equal. rewrite Pos2Z.inj_xI.
    replace (2 * Zpos p + 1)%Z with (1 + Zpos p + Zpos p)%Z by lia.
    rewrite !Z.pow_add_r by lia. change (2 ^ 1)%Z with 2%Z. lia.
  - assert (H1 : (0 <= shr_m (iter_pos shr_1 p r))%Z).
    { rewrite IH by auto. apply Z.div_pos; [auto|]. apply pow2_pos; lia. }
    rewrite IH, IH by auto.
    rewrite !Z.div_div by (try apply pow2_pos; lia).
    f_equal. rewrite <- Z.pow_add_r by lia. f_equal. lia.
  - now apply shr_1_m.
Qed.

Lemma shr_spec r e n :
  (0 <= shr_m r)%Z -> (0 <= n)%Z ->
  shr_m (fst (shr r e n)) = (shr_m r / 2 ^ n)%Z /\ snd (shr r e n) = (e + n)%Z.
Proof.
  intros Hr Hn. unfold shr. destruct n as [|p|p]; cbn [fst snd].
  - rewrite Z.div_1_r. split; lia.
  - split; [now apply iter_pos_shr|reflexivity].
  - lia.
Qed.

Lemma shr_id r e n : (n <= 0)%Z -> shr r e n = (r, e).
Proof. intros Hn. unfold shr. destruct n; auto. lia. Qed.

Lemma round_nearest_even_bounds m l :
  (m <= round_nearest_even m l <= m + 1)%Z.
Proof.
  unfold round_nearest_even. destruct l as [|[]]; try lia.
  destruct (Z.even m); lia.
Qed.

Lemma bounded_facts mx ex :
  bounded prec emax mx ex = true ->
  (-1074 <= ex <= 971)%Z /\ (Zpos mx < 2 ^ 53)%Z
  /\ ((-1074 < ex)%Z -> (2 ^ 52 <= Zpos mx)%Z).
Proof.
  unfold bounded, canonical_mantissa. rewrite fexp_eq. intros H.
  apply andb_true_iff in H as [H1 H2].
  apply Z.eqb_eq in H1. apply Z.leb_le in H2. change (emax - prec)%Z with 971%Z in H2.
  pose proof (digits2_pos_bound mx) as U. pose proof (digits2_pos_low mx) as L.
  split; [lia|]. split.
  - eapply Z.lt_le_trans; [exact U|]. apply pow2_le. lia.
  - intros He. replace (Zpos (digits2_pos mx)) with 53%Z in L by lia. exact L.
Qed.

Lemma shl_align_spec M ez :
  (-1074 <= ez)%Z ->
  let r := shl_align M ez (fexp prec emax (Zpos (digits2_pos M) + ez)) in
  (Zpos (fst r) * 2 ^ (snd r + 1074) = Zpos M * 2 ^ (ez + 1074))%Z
  /\ (-1074 <= snd r)%Z
  /\ (snd r <= fexp prec emax (Zpos (digits2_pos (fst r)) + snd r))%Z.
Proof.
  intros Hez. cbv zeta. unfold shl_align. rewrite !fexp_eq.
  set (dM := Zpos (digits2_pos M)).
  destruct (Z.max (dM + ez - 53) (-1074) - ez)%Z as [|p|p] eqn:D; cbn [fst snd].
  - fold dM. split; [reflexivity|]. lia.
  - fold dM. split; [reflexivity|]. lia.
  - change (Pos.iter xO M p) with (shift_pos p M).
    set (mz := shift_pos p M).
    assert (Emz : Zpos mz = (2 ^ Zpos p * Zpos M)%Z) by apply shift_pos_correct.
    remember (Z.max (dM + ez - 53) (-1074)) as fe eqn:Efe.
    assert (Eez : ez = (fe + Zpos p)%Z) by lia.
    split; [|split; [lia|]].
    + rewrite Emz, Eez.
      replace (fe + Zpos p + 1074)%Z with (Zpos p + (fe + 1074))%Z by lia.
      rewrite (Z.pow_add_r 2 (Zpos p) (fe + 1074)) by lia. ring.
    + pose proof (digits2_pos_low M) as L. fold dM in L.
      pose proof (digits2_pos_bound mz) as U.
      assert (dM - 1 + Zpos p < Zpos (digits2_pos mz))%Z.
      { apply pow2_lt_inv; [lia|]. eapply Z.le_lt_trans; [|exact U].
        rewrite Emz, Z.pow_add_r by (unfold dM; lia).
        pose proof (pow2_pos (Zpos p)). nia. }
      lia.
Qed.

Lemma shr_record_of_loc_m m l : shr_m (shr_record_of_loc m l) = m.
Proof. destruct l as [|[]]; reflexivity. Qed.

Lemma shr_fexp_spec m e l :
  (0 <= m)%Z -> (e <= fexp prec emax (Zdigits2 m + e))%Z ->
  let n := (fexp prec emax (Zdigits2 m + e) - e)%Z in
  shr_m (fst (shr_fexp prec emax m e l)) = (m / 2 ^ n)%Z
  /\ snd (shr_fexp prec emax m e l) = fexp prec emax (Zdigits2 m + e).
Proof.
  intros Hm He n. unfold shr_fexp. fold n.
  destruct (shr_spec (shr_record_of_loc m l) e n) as [H1 H2].
  - now rewrite shr_record_of_loc_m.
  - unfold n. lia.
  - rewrite H1, H2, shr_record_of_loc_m. split; [reflexivity|]. unfold n. lia.
Qed.

Lemma binary_round_aux_lower mz ez' l mx ex :
  (-1074 <= ez')%Z ->
  (ez' <= fexp prec emax (Zpos (digits2_pos mz) + ez'))%Z ->
  bounded prec emax mx ex = true ->
  (Zpos mx * 2 ^ (ex + 1074) <= Zpos mz * 2 ^ (ez' + 1074))%Z ->
  (key_top + mag mx ex
   <= sf_key (binary_round_aux prec emax false (Zpos mz) ez' l))%Z.
Proof.
  intros He1 He2 Hb HV.
  destruct (bounded_facts mx ex Hb) as (Rex & Ux & Lx).
  destruct (bounded_mag mx ex Hb) as [Mx _].
  unfold binary_round_aux.
  destruct (shr_fexp_spec (Zpos mz) ez' l ltac:(lia) He2) as [F1 F2].
  destruct (shr_fexp prec emax (Zpos mz) ez' l) as [mrs' e'].
  cbn [fst snd Zdigits2] in F1, F2.
  rewrite fexp_eq in *.
  set (dz := Zpos (digits2_pos mz)) in *.
  remember (Z.max (dz + ez' - 53) (-1074)) as fe eqn:Efe.
  remember (fe - ez')%Z as n eqn:En.
  assert (Hn : (0 <= n)%Z) by lia.
  pose proof (digits2_pos_bound mz) as Uz. fold dz in Uz.
  pose proof (digits2_pos_low mz) as Lz. fold dz in Lz.
  pose proof (pow2_pos n Hn) as PN.
  pose proof (pow2_pos (ez' + 1074) ltac:(lia)) as PP.
  assert (PQ : (2 ^ (fe + 1074) = 2 ^ n * 2 ^ (ez' + 1074))%Z).
  { rewrite <- Z.pow_add_r by lia. f_equal. lia. }
  set (m' := shr_m mrs') in *.
  assert (Fa : (m' < 2 ^ 53)%Z).
  { rewrite F1. apply Z.div_lt_upper_bound; [lia|].
    eapply Z.lt_le_trans; [exact Uz|].
    rewrite <- Z.pow_add_r by lia. apply pow2_le. unfold dz in *. lia. }
  assert (Fb : (-1074 < fe -> 2 ^ 52 <= m')%Z).
  { intros Hfe. rewrite F1. apply Z.div_le_lower_bound; [lia|].
    eapply Z.le_trans; [|exact Lz].
    rewrite <- Z.pow_add_r by lia. apply pow2_le. unfold dz in *. lia. }
  assert (Fc : (ex < fe \/ (ex = fe /\ Zpos mx <= m'))%Z).
  { destruct (Z.lt_trichotomy ex fe) as [H|[H|H]]; [now left| |exfalso].
    - right. split; [exact H|]. rewrite F1. apply Z.div_le_lower_bound; [lia|].
      rewrite H, PQ in HV. nia.
    - specialize (Lx ltac:(lia)).
      assert (A1 : (2 ^ (fe + 1 + 1074) <= 2 ^ (ex + 1074))%Z) by (apply pow2_le; lia).
      replace (fe + 1 + 1074)%Z with (1 + (fe + 1074))%Z in A1 by lia.
      rewrite Z.pow_add_r in A1 by lia. change (2 ^ 1)%Z with 2%Z in A1.
      assert (A2 : (2 ^ dz * 2 ^ (ez' + 1074) <= 2 ^ 53 * 2 ^ (fe + 1074))%Z).
      { rewrite <- !Z.pow_add_r by (unfold dz; lia). apply pow2_le. unfold dz in *. lia. }
      pose proof (pow2_pos (fe + 1074) ltac:(lia)) as P1.
      assert (A3 : (Zpos mz * 2 ^ (ez' + 1074) < 2 ^ dz * 2 ^ (ez' + 1074))%Z) by nia.
      assert (A4 : (2 ^ 53 * 2 ^ (fe + 1074) <= Zpos mx * 2 ^ (ex + 1074))%Z).
      { change (2 ^ 53)%Z with (2 ^ 52 * 2)%Z. nia. }
      lia. }
  pose proof (round_nearest_even_bounds m' (loc_of_shr_record mrs')) as Rb.
  set (m1 := round_nearest_even m' (loc_of_shr_record mrs')) in *.
  assert (H1 : (1 <= m1 <= 2 ^ 53)%Z).
  { split; [|lia]. destruct Fc as [Fc|[Fc1 Fc2]]; [|lia].
    specialize (Fb ltac:(lia)). assert (0 < 2 ^ 52)%Z by reflexivity. lia. }
  destruct m1 as [|q|q] eqn:Em1; [lia| |lia].
  subst e'.
  assert (Hq : (key_top + mag mx ex <= key_top + mag q fe)%Z).
  { unfold mag. destruct Fc as [Fc|[Fc1 Fc2]]; [|lia].
    assert (T : (0 < 2 ^ 53)%Z) by reflexivity. nia. }
  pose proof (digits2_pos_bound q) as Uq. pose proof (digits2_pos_low q) as Lq.
  set (dq := Zpos (digits2_pos q)) in *.
  destruct (Z.le_gt_cases dq 53) as [D|D].
  - unfold shr_fexp. cbn [Zdigits2 shr_record_of_loc]. rewrite fexp_eq. fold dq.
    rewrite shr_id by lia. cbn [shr_m].
    destruct (fe <=? emax - prec)%Z; cbn [sf_key]; [exact Hq|].
    unfold key_top in *. lia.
  - assert (Dq : dq = 54%Z).
    { assert (dq - 1 < 54)%Z; [|lia].
      apply pow2_lt_inv; [lia|]. eapply Z.le_lt_trans; [exact Lq|].
      change (2 ^ 54)%Z with (2 * 2 ^ 53)%Z. lia. }
    assert (Eq : Zpos q = (2 ^ 53)%Z).
    { rewrite Dq in Lq. change (54 - 1)%Z with 53%Z in Lq. lia. }
    destruct (shr_fexp_spec (Zpos q) fe loc_Exact ltac:(lia)) as [G1 G2].
    { cbn [Zdigits2]. rewrite fexp_eq. fold dq. lia. }
    destruct (shr_fexp prec emax (Zpos q) fe loc_Exact) as [mrs2 e2].
    cbn [fst snd Zdigits2] in G1, G2. rewrite fexp_eq in G1, G2. fold dq in G1, G2.
    rewrite Dq in G1, G2.
    replace (Z.max (54 + fe - 53) (-1074) - fe)%Z with 1%Z in G1 by lia.
    replace (Z.max (54 + fe - 53) (-1074))%Z with (fe + 1)%Z in G2 by lia.
    rewrite Eq in G1. change (2 ^ 53 / 2 ^ 1)%Z with (2 ^ 52)%Z in G1.
    rewrite G1, G2. change (2 ^ 52)%Z with (Zpos (2 ^ 52)%positive).
    cbv iota.
    destruct (fe + 1 <=? emax - prec)%Z; cbn [sf_key].
    + unfold mag in *. rewrite Eq in Hq.
      change (Zpos (2 ^ 52)) with (2 ^ 52)%Z.
      assert (T : (2 ^ 53 = 2 * 2 ^ 52)%Z) by reflexivity. lia.
    + unfold key_top in *. lia.
Qed.

Lemma binary_round_lower M ez mx ex :
  (-1074 <= ez)%Z -> bounded prec emax mx ex = true ->
  (Zpos mx * 2 ^ (ex + 1074) <= Zpos M * 2 ^ (ez + 1074))%Z ->
  (key_top + mag mx ex <= sf_key (binary_round prec emax false M ez))%Z.
Proof.
  intros Hez Hb HV. unfold binary_round.
  destruct (shl_align_spec M ez Hez) as (A1 & A2 & A3).
  destruct (shl_align M ez (fexp prec emax (Zpos (digits2_pos M) + ez))) as [mz ez'].
  cbn [fst snd] in *. apply binary_round_aux_lower; auto. now rewrite A1.
Qed.

(** Not negative: the sign bit is clear, or the number is a zero or NaN. *)
Definition sf_nonneg (x : spec_float) : Prop :=
  match x with
  | S754_infinity s | S754_finite s _ _ => s = false
  | _ => True
  end.

Lemma shl_align_fst m e e' :
  (e' <= e)%Z -> Zpos (fst (shl_align m e e')) = (Zpos m * 2 ^ (e - e'))%Z.
Proof.
  intros H. unfold shl_align.
  destruct (e' - e)%Z as [|p|p] eqn:D; cbn [fst].
  - replace (e - e')%Z with 0%Z by lia. lia.
  - lia.
  - change (Pos.iter xO m p) with (shift_pos p m). rewrite shift_pos_correct.
    replace (e - e')%Z with (Zpos p) by lia.
    change (Z.pow_pos 2 p) with (2 ^ Zpos p)%Z. ring.
Qed.

Lemma SFadd_lower x y :
  valid_binary x = true -> valid_binary y = true ->
  sf_nonneg x -> sf_nonneg y ->
  SFadd prec emax x y = S754_nan
  \/ (sf_key x <= sf_key (SFadd prec emax x y))%Z.
Proof.
  intros Vx Vy Nx Ny.
  assert (T : (0 < key_top)%Z) by reflexivity.
  destruct x as [sx|sx| |sx mx ex]; [| |now left|].
  - destruct y as [sy|sy| |sy my ey]; cbn [sf_nonneg] in *.
    + right. destruct sx, sy; cbn; lia.
    + right. subst. cbn. lia.
    + now left.
    + right. subst. cbn [SFadd sf_key]. destruct (bounded_mag my ey Vy). lia.
  - cbn [sf_nonneg] in Nx. subst sx.
    destruct y as [sy|sy| |sy my ey]; cbn [sf_nonneg] in *; subst; auto;
      right; cbn; lia.
  - cbn [sf_nonneg] in Nx. subst sx. cbn [valid_binary] in Vx.
    destruct (bounded_mag mx ex Vx) as [Mx _].
    destruct (bounded_facts mx ex Vx) as (Rx & _).
    destruct y as [sy|sy| |sy my ey]; cbn [sf_nonneg] in *; subst.
    + right. cbn [SFadd sf_key]. lia.
    + right. cbn [SFadd sf_key]. lia.
    + now left.
    + right. cbn [valid_binary] in Vy.
      destruct (bounded_facts my ey Vy) as (Ry & _).
      cbn [SFadd cond_Zopp sf_key]. cbn [Z.add binary_normalize].
      set (ez := Z.min ex ey).
      apply binary_round_lower; [unfold ez; lia|exact Vx|].
      rewrite Pos2Z.inj_add, !shl_align_fst by (unfold ez; lia).
      assert (E : (2 ^ (ex + 1074) = 2 ^ (ex - ez) * 2 ^ (ez + 1074))%Z).
      { rewrite <- Z.pow_add_r by (unfold ez; lia). f_equal. lia. }
      rewrite E.
      pose proof (pow2_pos (ez + 1074) ltac:(unfold ez; lia)).
      pose proof (pow2_pos (ey - ez) ltac:(unfold ez; lia)).
      pose proof (pow2_pos (ex - ez) ltac:(unfold ez; lia)).
      nia.
Qed.

Lemma nonneg_sf x : (x <? zero)%float = false -> sf_nonneg (Prim2SF x).
Proof.
  rewrite ltb_spec. change (Prim2SF zero) with (S754_zero false).
  destruct (Prim2SF x) as [s|s| |s m e]; cbn; auto; destruct s; auto; discriminate.
Qed.

(** A weight that is not negative never lowers a distance that is not
    negative. *)
Lemma nonneg_weight_ok w : (w <? zero)%float = false -> weight_ok w.
Proof.
  intros Hw d Hd.
  destruct (d + w <? d)%float eqn:L; auto.
  apply ltb_true_iff in L as (N1 & N2 & L).
  destruct (SFadd_lower (Prim2SF d) (Prim2SF w)) as [H|H];
    auto using Prim2SF_valid, nonneg_sf.
  - exfalso. apply N1. unfold fnan. now rewrite add_spec.
  - unfold fkey in L. rewrite add_spec in L. unfold SF64add in L. lia.
Qed.

Lemma binary_round_aux_nonneg m e l :
  sf_nonneg (binary_round_aux prec emax false m e l).
Proof.
  unfold binary_round_aux.
  destruct (shr_fexp prec emax m e l) as [mrs' e'].
  destruct (shr_fexp prec emax _ e' loc_Exact) as [mrs2 e2].
  destruct (shr_m mrs2); cbn; auto. destruct (_ <=? _)%Z; cbn; auto.
Qed.

Lemma SFmul_nonneg x y :
  SFleb (S754_zero false) x = true -> SFltb (S754_zero false) y = true ->
  sf_nonneg (SFmul prec emax x y).
Proof.
  destruct x as [sx|sx| |sx mx ex]; try discriminate;
    destruct y as [sy|sy| |sy my ey]; try discriminate;
    try destruct sx; try destruct sy; try discriminate; cbn; auto.
  intros _ _. apply binary_round_aux_nonneg.
Qed.

(** The weights the specification allows: a distance that is not negative
    and a congestion factor above zero. *)
Definition edge_valid (e : Edge) : Prop :=
  (zero <=? distance e)%float = true /\ (zero <? traffic_factor e)%float = true.

Lemma effective_weight_nonneg e :
  edge_valid e -> (effective_weight e <? zero)%float = false.
Proof.
  intros [Hd Ht]. rewrite leb_spec in Hd. rewrite ltb_spec in Ht.
  rewrite ltb_spec. unfold effective_weight. rewrite mul_spec.
  change (Prim2SF zero) with (S754_zero false) in *.
  pose proof (SFmul_nonneg _ _ Hd Ht) as N. unfold SF64mul.
  destruct (SFmul prec emax _ _) as [s|s| |s m x]; cbn in *; subst; reflexivity.
Qed.

Lemma edge_valid_weight_ok e : edge_valid e -> weight_ok (effective_weight e).
Proof. intros H. apply nonneg_weight_ok. now apply effective_weight_nonneg. Qed.

Definition weights_valid (g : Graph) : Prop :=
  forall u es e, In (u, es) (adj g) -> In e es -> edge_valid e.

Lemma weights_valid_ok g : weights_valid g -> weights_ok g.
Proof. intros H u es e H1 H2. apply edge_valid_weight_ok. exact (H u es e H1 H2). Qed.


(** * Further properties of the code *)

(** ** The mutators *)

Lemma dict_keys_set_new {V : Type} (d : dict V) k v :
  dict_mem d k = false -> dict_keys (dict_set d k v) = dict_keys d ++ [k].
Proof.
  unfold dict_mem, dict_keys. induction d as [|[k0 v0] d IH]; simpl; auto.
  destruct (String.eqb_spec k0 k) as [->|N]; simpl; [discriminate|].
  intros H. now rewrite IH.
Qed.

Lemma ensure_node_keys a node :
  dict_keys (ensure_node a node)
  = if dict_mem a node then dict_keys a else dict_keys a ++ [node].
Proof.
  unfold ensure_node. destruct (dict_mem a node) eqn:E; auto.
  now apply dict_keys_set_new.
Qed.

Lemma ensure_node_get a node k :
  dict_get (ensure_node a node) k
  = if dict_mem a k then dict_get a k
    else if String.eqb node k then Some [] else None.
Proof.
  unfold ensure_node. destruct (dict_mem a node) eqn:E.
  - destruct (dict_mem a k) eqn:Ek; auto.
    apply dict_mem_false in Ek. rewrite Ek.
    destruct (String.eqb_spec node k) as [->|]; auto.
    apply dict_mem_true in E as [v E]. congruence.
  - rewrite dict_get_set. destruct (String.eqb_spec node k) as [->|N].
    + now rewrite E.
    + destruct (dict_mem a k) eqn:Ek; auto. now apply dict_mem_false in Ek.
Qed.

Lemma ensure_node_nbrs g node c k :
  nbrs (mkGraph (ensure_node (adj g) node) c) k = nbrs g k.
Proof.
  unfold nbrs. cbn [adj]. rewrite ensure_node_get.
  destruct (dict_mem (adj g) k) eqn:E; auto.
  apply dict_mem_false in E. rewrite E. now destruct (String.eqb node k).
Qed.

Lemma NoDup_keys_ensure a node :
  NoDup (dict_keys a) -> NoDup (dict_keys (ensure_node a node)).
Proof.
  intros H. rewrite ensure_node_keys. destruct (dict_mem a node) eqn:E; auto.
  apply NoDup_app; auto.
  - constructor; [intros []|constructor].
  - intros x Hx [<-|[]]. apply dict_mem_keys in Hx. congruence.
Qed.

Lemma add_node_coords g node coord :
  match coord with
  | None =>
      fst (add_node node coord g) = Ok tt
      /\ coords (snd (add_node node coord g)) = coords g
  | Some (c0, c1) =>
      match py_float c0, py_float c1 with
      | Ok x, Ok y =>
          fst (add_node node coord g) = Ok tt
          /\ coords (snd (add_node node coord g)) = dict_set (coords g) node (x, y)
      | _, _ =>
          (exists m, fst (add_node node coord g) = Raise (OverflowError m))
          /\ coords (snd (add_node node coord g)) = coords g
      end
  end.
Proof.
  unfold add_node, bind, get_adj, put_adj, put_coords, get_coords, ret, lift.
  destruct g as [a c]; cbn [adj coords].
  destruct coord as [[c0 c1]|].
  2: { destruct (dict_mem a node); cbn; auto. }
  assert (P : forall x, match py_float x with
                         | Ok _ => True
                         | Raise e => exists m, e = OverflowError m
                         | OutOfFuel => False
                         end).
  { intros [z|f]; unfold py_float; auto.
    destruct (is_infinity (float_of_Z z)); eauto. }
  pose proof (P c0) as P0. pose proof (P c1) as P1.
  destruct (dict_mem a node); cbn [fst snd adj coords];
    (destruct (py_float c0) as [x|e0|];
     [|destruct P0 as [m ->]; cbn; split; [eauto|reflexivity]|contradiction]);
    (destruct (py_float c1) as [y|e1|];
     [|destruct P1 as [m ->]; cbn; split; [eauto|reflexivity]|contradiction]);
    cbn; auto.
Qed.

(** X1: [add_node] never touches the stored edges: [edges()] and every
    [neighbors(k)] are as before; the node goes last in [nodes()] when it
    is new, and [nodes()] is unchanged when it is known.  With a
    coordinate pair, [coords[node]] becomes the pair of floats; when
    [float] overflows on an int coordinate the call raises
    [OverflowError] after the node has been created, the coordinates
    untouched. *)
Theorem X1_add_node_keeps_edges g node coord :
  let r := add_node node coord g in
  fst (edges (snd r)) = fst (edges g)
  /\ (forall k, fst (neighbors k (snd r)) = fst (neighbors k g))
  /\ fst (nodes (snd r))
     = (if dict_mem (adj g) node then fst (nodes g)
        else Ok (dict_keys (adj g) ++ [node]))
  /\ match coord with
     | None => fst r = Ok tt /\ coords (snd r) = coords g
     | Some (c0, c1) =>
         match py_float c0, py_float c1 with
         | Ok x, Ok y =>
             fst r = Ok tt /\ coords (snd r) = dict_set (coords g) node (x, y)
         | _, _ =>
             (exists m, fst r = Raise (OverflowError m))
             /\ coords (snd r) = coords g
         end
     end.
Proof.
  cbv zeta. pose proof (add_node_adj g node coord) as A.
  split; [|split; [|split]].
  - unfold edges, bind, get_adj, ret. cbn [fst]. now rewrite A, ensure_node_edges.
  - intros k. rewrite !neighbors_run. cbn [fst]. f_equal.
    unfold nbrs. rewrite A.
    exact (ensure_node_nbrs g node (coords g) k).
  - unfold nodes, bind, get_adj, ret. cbn [fst]. rewrite A, ensure_node_keys.
    now destruct (dict_mem (adj g) node).
  - apply add_node_coords.
Qed.

Lemma NoDup_keys_set {V : Type} (d : dict V) k v :
  NoDup (dict_keys d) -> NoDup (dict_keys (dict_set d k v)).
Proof.
  intros H. destruct (dict_mem d k) eqn:E.
  - now rewrite dict_keys_set_mem.
  - rewrite dict_keys_set_new by assumption. apply NoDup_app; auto.
    + constructor; [intros []|constructor].
    + intros x Hx [<-|[]]. apply dict_mem_keys in Hx. congruence.
Qed.

Lemma append_edge_keys g u v d t :
  NoDup (dict_keys (adj g)) ->
  NoDup (dict_keys (adj (snd (append_edge u v d t g)))).
Proof.
  intros H. unfold append_edge, bind, get_adj, lift, put_adj.
  destruct (dict_item (adj g) u) as [es| |]; cbn; auto.
  destruct (Edge_init v d t) as [e| |]; cbn; auto.
  now apply NoDup_keys_set.
Qed.

Lemma add_edge_keys g u v d t b :
  NoDup (dict_keys (adj g)) ->
  NoDup (dict_keys (adj (snd (add_edge u v d t b g)))).
Proof.
  intros H. rewrite add_edge_unfold.
  assert (H0 : NoDup (dict_keys (adj (with_nodes g u v)))).
  { unfold with_nodes. cbn [adj]. now apply NoDup_keys_ensure, NoDup_keys_ensure. }
  pose proof (append_edge_keys (with_nodes g u v) u v d t H0) as H1.
  destruct (append_edge u v d t (with_nodes g u v)) as [[[]|e|] g1]; cbn [snd] in *; auto.
  destruct b; cbn [snd]; auto. now apply append_edge_keys.
Qed.

Lemma load_keys l : forall g,
  NoDup (dict_keys (adj g)) ->
  NoDup (dict_keys (adj (snd (load_from_edge_list l g)))).
Proof.
  induction l as [|[[[u v] d] t] l IH]; intros g H; cbn [load_from_edge_list]; auto.
  unfold bind. pose proof (add_edge_keys g u v d t true H) as H1.
  destruct (add_edge u v d t true g) as [[[]|e|] g1]; cbn [snd] in *; auto.
Qed.

(** X2: [nodes()] never lists a node twice.  This holds of the empty
    graph and is kept by [add_node], [add_edge] and
    [load_from_edge_list], whatever the outcome of the call. *)
Theorem X2_nodes_lists_each_node_once :
  (forall g, nodes g = (Ok (dict_keys (adj g)), g))
  /\ NoDup (dict_keys (adj Graph_init))
  /\ (forall g node coord,
        NoDup (dict_keys (adj g)) ->
        NoDup (dict_keys (adj (snd (add_node node coord g)))))
  /\ (forall g u v d t b,
        NoDup (dict_keys (adj g)) ->
        NoDup (dict_keys (adj (snd (add_edge u v d t b g)))))
  /\ (forall g l,
        NoDup (dict_keys (adj g)) ->
        NoDup (dict_keys (adj (snd (load_from_edge_list l g))))).
Proof.
  split; [reflexivity|]. split; [constructor|]. split; [|split].
  - intros g node coord H. rewrite add_node_adj. now apply NoDup_keys_ensure.
  - intros g u v d t b. apply add_edge_keys.
  - intros g l. apply load_keys.
Qed.

Lemma In_dict_get {V : Type} (d : dict V) k v :
  NoDup (dict_keys d) -> In (k, v) d -> dict_get d k = Some v.
Proof.
  unfold dict_keys. induction d as [|[k0 v0] d IH]; cbn; [tauto|].
  intros N [E|H]; inversion N; subst.
  - inversion E; subst. now rewrite String.eqb_refl.
  - destruct (String.eqb_spec k0 k) as [->|]; auto.
    exfalso. apply H2. apply in_map_iff. now exists (k, v).
Qed.

Lemma sample_graph_keys : NoDup (dict_keys (adj sample_graph)).
Proof. apply load_keys. constructor. Qed.

(** X3: on a graph whose adjacency has every key once, [edges()] and
    [neighbors] agree: [(u, v, d, t)] is listed by [edges()] exactly when
    [neighbors(u)] holds an edge whose [to_tuple()] is [(v, d, t)]. *)
Theorem X3_edges_are_the_neighbors g :
  NoDup (dict_keys (adj g)) ->
  exists le,
    edges g = (Ok le, g)
    /\ forall u, exists ln,
         neighbors u g = (Ok ln, g)
         /\ forall v d t,
              In (u, v, d, t) le <-> exists e, In e ln /\ to_tuple e = (v, d, t).
Proof.
  intros N. exists (edges_of (adj g)). split; [reflexivity|].
  intros u. exists (nbrs g u). split; [apply neighbors_run|].
  intros v d t. rewrite In_edges_of. split.
  - intros (u' & es & e & H1 & H2 & E). inversion E; subst.
    exists e. split; [|reflexivity].
    unfold nbrs. now rewrite (In_dict_get _ _ _ N H1).
  - intros (e & He & E). apply nbrs_In in He as (es & H1 & H2).
    unfold to_tuple in E. inversion E; subst. exists u, es, e. auto.
Qed.

Lemma X3_edges_are_the_neighbors_witness :
  exists le,
    edges sample_graph = (Ok le, sample_graph)
    /\ forall u, exists ln,
         neighbors u sample_graph = (Ok ln, sample_graph)
         /\ forall v d t,
              In (u, v, d, t) le <-> exists e, In e ln /\ to_tuple e = (v, d, t).
Proof.
  apply (X3_edges_are_the_neighbors sample_graph). apply sample_graph_keys.
Defined.

Lemma add_edge_fails g u v d t b :
  let r := add_edge u v d t b g in
  ((exists fd ft, py_float d = Ok fd /\ py_float t = Ok ft) /\ fst r = Ok tt)
  \/ ((forall fd ft, py_float d = Ok fd -> py_float t = Ok ft -> False)
      /\ (exists m, fst r = Raise (OverflowError m))
      /\ fst (edges (snd r)) = fst (edges g)
      /\ coords (snd r) = coords g
      /\ dict_mem (adj (snd r)) u = true /\ dict_mem (adj (snd r)) v = true).
Proof.
  cbv zeta.
  destruct (py_float d) as [fd|ed|] eqn:Ed;
    [destruct (py_float t) as [ft|et|] eqn:Et|..].
  - left. split; [eauto|].
    destruct (add_edge_run g u v d t b fd ft Ed Et) as (es1 & es2 & _ & _ & ->).
    reflexivity.
  - right. split; [congruence|].
    assert (Hu : dict_mem (adj (with_nodes g u v)) u = true).
    { rewrite with_nodes_mem, String.eqb_refl. now rewrite orb_true_r. }
    destruct (append_edge_cases (with_nodes g u v) u v d t Hu)
      as [(es & fd' & ft & _ & _ & Ht & _)|[m E]]; [congruence|].
    rewrite add_edge_unfold, E. cbn [fst snd].
    split; [eauto|]. split.
    { unfold edges, bind, get_adj, ret. cbn [fst]. now rewrite with_nodes_edges. }
    split; [reflexivity|]. rewrite !with_nodes_mem, !String.eqb_refl.
    now rewrite orb_true_r.
  - now apply py_float_fuel in Et.
  - right. split; [congruence|].
    assert (Hu : dict_mem (adj (with_nodes g u v)) u = true).
    { rewrite with_nodes_mem, String.eqb_refl. now rewrite orb_true_r. }
    destruct (append_edge_cases (with_nodes g u v) u v d t Hu)
      as [(es & fd' & ft & _ & Hd & _ & _)|[m E]]; [congruence|].
    rewrite add_edge_unfold, E. cbn [fst snd].
    split; [eauto|]. split.
    { unfold edges, bind, get_adj, ret. cbn [fst]. now rewrite with_nodes_edges. }
    split; [reflexivity|]. rewrite !with_nodes_mem, !String.eqb_refl.
    now rewrite orb_true_r.
  - now apply py_float_fuel in Ed.
Qed.

(** X4: [add_edge] fails in one way only, the [OverflowError] of [float]
    on an int out of range, and it fails exactly when one of its two
    numbers does not convert.  After a failure both end nodes exist, but
    no edge has been stored, not even one direction of a bidirectional
    pair, and the coordinates are untouched. *)
Theorem X4_add_edge_failure g u v d t b :
  let r := add_edge u v d t b g in
  ((exists fd ft, py_float d = Ok fd /\ py_float t = Ok ft) /\ fst r = Ok tt)
  \/ ((forall fd ft, py_float d = Ok fd -> py_float t = Ok ft -> False)
      /\ (exists m, fst r = Raise (OverflowError m))
      /\ fst (edges (snd r)) = fst (edges g)
      /\ coords (snd r) = coords g
      /\ dict_mem (adj (snd r)) u = true /\ dict_mem (adj (snd r)) v = true).
Proof. apply add_edge_fails. Qed.

Lemma add_edge_edges g u v d t b fd ft :
  py_float d = Ok fd -> py_float t = Ok ft ->
  exists g',
    add_edge u v d t b g = (Ok tt, g') /\ coords g' = coords g
    /\ (forall k, dict_mem (adj g') k
                  = String.eqb v k || (String.eqb u k || dict_mem (adj g) k))
    /\ forall x, In x (edges_of (adj g')) <->
                 In x (edges_of (adj g)) \/ x = (u, v, fd, ft)
                 \/ (b = true /\ x = (v, u, fd, ft)).
Proof.
  intros Hd Ht.
  destruct (add_edge_run g u v d t b fd ft Hd Ht) as (es1 & es2 & H1 & H2 & H3).
  cbv zeta in H2, H3. eexists. split; [exact H3|]. split; [reflexivity|].
  cbn [adj]. split.
  - intros k. destruct b; rewrite ?dict_mem_set, with_nodes_mem;
      destruct (String.eqb v k), (String.eqb u k); auto.
  - intros x.
    pose proof (In_edges_of_app_edge _ u es1 (mkEdge v fd ft) x H1) as I1.
    rewrite with_nodes_edges in I1. cbn [to_node distance traffic_factor] in I1.
    destruct b.
    + rewrite (In_edges_of_app_edge _ v es2 (mkEdge u fd ft) x H2), I1.
      cbn [to_node distance traffic_factor]. intuition congruence.
    + rewrite I1. intuition congruence.
Qed.

Lemma load_runs l : forall g,
  Forall (fun '(u, v, d, t) =>
            exists fd ft, py_float d = Ok fd /\ py_float t = Ok ft) l ->
  exists g',
    load_from_edge_list l g = (Ok tt, g')
    /\ edge_count g' = edge_count g + 2 * List.length l
    /\ coords g' = coords g
    /\ (forall k, dict_mem (adj g) k = true -> dict_mem (adj g') k = true)
    /\ Forall (fun '(u, v, d, t) =>
                 dict_mem (adj g') u = true /\ dict_mem (adj g') v = true) l.
Proof.
  induction l as [|[[[u v] d] t] l IH]; intros g H.
  - exists g. cbn. repeat split; auto; lia.
  - inversion H as [|x l' Hx Hl]; subst. cbn in Hx.
    destruct Hx as (fd & ft & Hd & Ht).
    destruct (add_edge_edges g u v d t true fd ft Hd Ht) as (g1 & E1 & C1 & M1 & I1).
    destruct (IH g1 Hl) as (g' & E' & N' & C' & M' & F').
    exists g'. cbn [load_from_edge_list]. unfold bind. rewrite E1.
    split; [exact E'|]. split; [|split; [congruence|split]].
    + rewrite N'. cbn [List.length].
      enough (edge_count g1 = edge_count g + 2) by lia.
      destruct (add_edge_run g u v d t true fd ft Hd Ht) as (es1 & es2 & H1 & H2 & H3).
      cbv zeta in H2, H3. rewrite E1 in H3. inversion H3; subst g1.
      unfold edge_count. cbn [adj].
      rewrite (edges_of_app_edge _ v es2 _ H2), (edges_of_app_edge _ u es1 _ H1).
      rewrite with_nodes_edges. lia.
    + intros k Hk. apply M'. rewrite M1, Hk. now rewrite !orb_true_r.
    + constructor; [|exact F'].
      split; apply M'; rewrite M1, String.eqb_refl; auto using orb_true_r.
Qed.



Lemma load_app l1 : forall l2 g,
  load_from_edge_list (l1 ++ l2) g
  = (load_from_edge_list l1 ;; load_from_edge_list l2) g.
Proof.
  induction l1 as [|[[[u v] d] t] l1 IH]; intros l2 g; [reflexivity|].
  cbn [app load_from_edge_list]. unfold bind in *.
  destruct (add_edge u v d t true g) as [[[]|e|] g1]; auto.
Qed.

(** X6: [load_from_edge_list] works through its list in order and is not
    atomic: loading [l1 ++ l2] is loading [l1] and then [l2]; and when
    the numbers of a tuple do not convert, the call raises
    [OverflowError] with the tuples before it loaded, the two end nodes
    of the offending tuple created, and nothing after it loaded. *)
Theorem X6_load_is_sequential :
  (forall l1 l2 g,
      load_from_edge_list (l1 ++ l2) g
      = (load_from_edge_list l1 ;; load_from_edge_list l2) g)
  /\ (forall l1 u v d t l2 g g1,
        load_from_edge_list l1 g = (Ok tt, g1) ->
        (forall fd ft, py_float d = Ok fd -> py_float t = Ok ft -> False) ->
        exists m g',
          load_from_edge_list (l1 ++ (u, v, d, t) :: l2) g
          = (Raise (OverflowError m), g')
          /\ fst (edges g') = fst (edges g1)
          /\ dict_mem (adj g') u = true /\ dict_mem (adj g') v = true).
Proof.
  split; [exact load_app|].
  intros l1 u v d t l2 g g1 E1 Hn.
  rewrite load_app. unfold bind at 1. rewrite E1.
  cbn [load_from_edge_list]. unfold bind.
  destruct (add_edge_fails g1 u v d t true)
    as [[(fd & ft & Hd & Ht) _]|(_ & [m Hm] & He & _ & Hu & Hv)].
  - exfalso. eauto.
  - destruct (add_edge u v d t true g1) as [r g'] eqn:E. cbn [fst snd] in *.
    subst r. exists m, g'. auto.
Qed.

(** Every stored edge has its reverse, with the same numbers. *)
Definition symmetric (g : Graph) : Prop :=
  forall u v d t, In (u, v, d, t) (edges_of (adj g)) ->
                  In (v, u, d, t) (edges_of (adj g)).

Lemma add_edge_snd_edges g u v d t b :
  (exists fd ft g',
      py_float d = Ok fd /\ py_float t = Ok ft
      /\ add_edge u v d t b g = (Ok tt, g')
      /\ forall x, In x (edges_of (adj g')) <->
                   In x (edges_of (adj g)) \/ x = (u, v, fd, ft)
                   \/ (b = true /\ x = (v, u, fd, ft)))
  \/ edges_of (adj (snd (add_edge u v d t b g))) = edges_of (adj g).
Proof.
  destruct (add_edge_fails g u v d t b)
    as [[(fd & ft & Hd & Ht) _]|(_ & _ & He & _)].
  - left. destruct (add_edge_edges g u v d t b fd ft Hd Ht) as (g' & E & _ & _ & I).
    exists fd, ft, g'. auto.
  - right. unfold edges, bind, get_adj, ret in He. cbn [fst] in He. congruence.
Qed.

Lemma symmetric_add_edge g u v d t :
  symmetric g -> symmetric (snd (add_edge u v d t true g)).
Proof.
  intros S.
  destruct (add_edge_snd_edges g u v d t true)
    as [(fd & ft & g' & _ & _ & E & I)|E].
  - rewrite E. cbn [snd]. intros a b x y. rewrite !I.
    intros [H|[H|[_ H]]].
    + left. now apply S.
    + inversion H; subst. auto.
    + inversion H; subst. auto.
  - intros a b x y. rewrite E. apply S.
Qed.

Lemma symmetric_load l : forall g,
  symmetric g -> symmetric (snd (load_from_edge_list l g)).
Proof.
  induction l as [|[[[u v] d] t] l IH]; intros g S; cbn [load_from_edge_list]; auto.
  unfold bind. pose proof (symmetric_add_edge g u v d t S) as S1.
  destruct (add_edge u v d t true g) as [[[]|e|] g1]; cbn [snd] in *; auto.
Qed.

(** X7: a graph built with bidirectional edges only is symmetric: every
    stored edge [(u, v, d, t)] has its reverse [(v, u, d, t)].  This holds
    of the empty graph and is kept by [add_node], by [add_edge] with
    [bidirectional=True] and by [load_from_edge_list], whatever the
    outcome of the call. *)
Theorem X7_bidirectional_graphs_are_symmetric :
  symmetric Graph_init
  /\ (forall g node coord,
        symmetric g -> symmetric (snd (add_node node coord g)))
  /\ (forall g u v d t,
        symmetric g -> symmetric (snd (add_edge u v d t true g)))
  /\ (forall g l, symmetric g -> symmetric (snd (load_from_edge_list l g))).
Proof.
  split; [intros u v d t []|]. split; [|split].
  - intros g node coord S u v d t.
    rewrite add_node_adj, ensure_node_edges. apply S.
  - intros g u v d t. apply symmetric_add_edge.
  - intros g l. apply symmetric_load.
Qed.

Lemma weights_valid_edges g :
  weights_valid g <->
  forall u v d t, In (u, v, d, t) (edges_of (adj g)) ->
                  (zero <=? d)%float = true /\ (zero <? t)%float = true.
Proof.
  split.
  - intros W u v d t H. apply In_edges_of in H as (u' & es & e & H1 & H2 & E).
    inversion E; subst. exact (W u' es e H1 H2).
  - intros W u es e H1 H2. apply (W u (to_node e)).
    apply In_edges_of. exists u, es, e. auto.
Qed.

Lemma weights_valid_add_edge g u v d t b fd ft :
  weights_valid g -> py_float d = Ok fd -> py_float t = Ok ft ->
  (zero <=? fd)%float = true -> (zero <? ft)%float = true ->
  weights_valid (snd (add_edge u v d t b g)).
Proof.
  intros W Hd Ht Pd Pt.
  destruct (add_edge_edges g u v d t b fd ft Hd Ht) as (g' & E & _ & _ & I).
  rewrite E. cbn [snd]. apply weights_valid_edges. intros a c x y. rewrite I.
  intros [H|[H|[_ H]]].
  - now apply (proj1 (weights_valid_edges g) W a c).
  - inversion H; subst. auto.
  - inversion H; subst. auto.
Qed.

Lemma weights_valid_load l : forall g,
  weights_valid g ->
  Forall (fun '(u, v, d, t) =>
            exists fd ft, py_float d = Ok fd /\ py_float t = Ok ft
                          /\ (zero <=? fd)%float = true
                          /\ (zero <? ft)%float = true) l ->
  weights_valid (snd (load_from_edge_list l g)).
Proof.
  induction l as [|[[[u v] d] t] l IH]; intros g W H; cbn [load_from_edge_list]; auto.
  inversion H as [|x l' Hx Hl]; subst. cbn in Hx.
  destruct Hx as (fd & ft & Hd & Ht & Pd & Pt).
  pose proof (weights_valid_add_edge g u v d t true fd ft W Hd Ht Pd Pt) as W1.
  unfold bind.
  destruct (add_edge_edges g u v d t true fd ft Hd Ht) as (g1 & E & _).
  rewrite E in *. cbn [snd] in W1. now apply IH.
Qed.

Definition weights_validb (g : Graph) : bool :=
  forallb (fun ues =>
             forallb (fun e => (zero <=? distance e)%float
                               && (zero <? traffic_factor e)%float) (snd ues))
          (adj g).

Lemma weights_validb_ok g : weights_validb g = true -> weights_valid g.
Proof.
  unfold weights_validb. rewrite forallb_forall. intros H u es e H1 H2.
  specialize (H _ H1). cbn [snd] in H. rewrite forallb_forall in H.
  apply andb_true_iff. now apply H.
Qed.

Lemma sample_graph_valid : weights_valid sample_graph.
Proof. apply weights_validb_ok. vm_compute. reflexivity. Qed.

(** X8: the weights the specification allows, a distance that is not
    negative and a congestion factor above zero on every stored edge, are
    kept by the mutators when they are given such numbers: by [add_node],
    by [add_edge] and by [load_from_edge_list]. *)
Theorem X8_valid_weights_are_kept :
  weights_valid Graph_init
  /\ (forall g node coord,
        weights_valid g -> weights_valid (snd (add_node node coord g)))
  /\ (forall g u v d t b fd ft,
        weights_valid g -> py_float d = Ok fd -> py_float t = Ok ft ->
        (zero <=? fd)%float = true -> (zero <? ft)%float = true ->
        weights_valid (snd (add_edge u v d t b g)))
  /\ (forall g l,
        weights_valid g ->
        Forall (fun '(u, v, d, t) =>
                  exists fd ft, py_float d = Ok fd /\ py_float t = Ok ft
                                /\ (zero <=? fd)%float = true
                                /\ (zero <? ft)%float = true) l ->
        weights_valid (snd (load_from_edge_list l g))).
Proof.
  split; [intros u es e []|]. split; [|split].
  - intros g node coord W. apply weights_valid_edges. intros u v d t.
    rewrite add_node_adj, ensure_node_edges.
    now apply (proj1 (weights_valid_edges g) W).
  - apply weights_valid_add_edge.
  - intros g l. apply weights_valid_load.
Qed.

(** ** Edge weights in binary64 *)

(** X9: for a distance that is not negative and a congestion factor above
    zero, [effective_weight()] is never negative: it is at least [0.0],
    or NaN (the product of a zero distance and an infinite factor). *)
Theorem X9_effective_weight_not_negative e :
  (zero <=? distance e)%float = true -> (zero <? traffic_factor e)%float = true ->
  (effective_weight e <? zero)%float = false.
Proof. intros Hd Ht. apply effective_weight_nonneg. now split. Qed.

Lemma X9_effective_weight_not_negative_witness :
  (effective_weight (mkEdge "C" 2 1.2) <? zero)%float = false.
Proof.
  apply (X9_effective_weight_not_negative (mkEdge "C" 2 1.2)); reflexivity.
Defined.

(** X10: the step [nd = curr_d + w] of [dijkstra] never goes down: for a
    valid edge and a distance that is not negative, [nd < curr_d] is
    false, in binary64, rounding and overflow to [inf] included. *)
Theorem X10_relaxation_never_goes_down e curr_d :
  (zero <=? distance e)%float = true -> (zero <? traffic_factor e)%float = true ->
  (curr_d <? zero)%float = false ->
  (curr_d + effective_weight e <? curr_d)%float = false.
Proof.
  intros Hd Ht Hc. apply (edge_valid_weight_ok e); [now split|exact Hc].
Qed.

Lemma X10_relaxation_never_goes_down_witness :
  (13.9 + effective_weight (mkEdge "C" 2 1.2) <? 13.9)%float = false.
Proof.
  apply (X10_relaxation_never_goes_down (mkEdge "C" 2 1.2) 13.9%float); reflexivity.
Defined.

(** ** [_reconstruct_path] *)

(** The walk back from [cur] to [start] along [came_from]. *)
Inductive bchain (came_from : dict string) (start : string)
    : string -> list string -> Prop :=
| bc_start : bchain came_from start start [start]
| bc_step cur p q :
    cur <> start -> dict_get came_from cur = Some p ->
    bchain came_from start p q -> bchain came_from start cur (cur :: q).

Lemma reconstruct_loop_chain cf start fuel : forall cur acc r,
  reconstruct_loop fuel cf start cur acc = Ok r ->
  r = [] \/ exists q, bchain cf start cur q /\ r = rev (acc ++ q).
Proof.
  induction fuel as [|fuel IH]; intros cur acc r; cbn [reconstruct_loop];
    destruct (String.eqb_spec cur start) as [->|N].
  - intros H; inversion H. right. exists [start]. split; [constructor|reflexivity].
  - discriminate.
  - intros H; inversion H. right. exists [start]. split; [constructor|reflexivity].
  - destruct (dict_get cf cur) as [p|] eqn:E.
    + intros H. apply IH in H as [H|(q & Hq & ->)]; auto.
      right. exists (cur :: q). split; [now apply bc_step with (p := p)|].
      now rewrite <- app_assoc.
    + intros H; inversion H. now left.
Qed.

Lemma bchain_fun cf start cur q1 :
  bchain cf start cur q1 -> forall q2, bchain cf start cur q2 -> q1 = q2.
Proof.
  induction 1 as [|cur p q N E H IH]; intros q2 H2; inversion H2; subst;
    try congruence.
  rewrite E in H1. inversion H1; subst. f_equal. auto.
Qed.

Lemma bchain_suffix cf start cur q :
  bchain cf start cur q ->
  forall x, In x q ->
            exists q', bchain cf start x q' /\ List.length q' <= List.length q.
Proof.
  induction 1 as [|cur p q N E H IH]; intros x Hx.
  - destruct Hx as [<-|[]]. exists [start]. split; [constructor|auto].
  - destruct Hx as [<-|Hx].
    + exists (cur :: q). split; [now apply bc_step with (p := p)|auto].
    + destruct (IH x Hx) as (q' & H1 & H2). exists q'. split; auto. cbn. lia.
Qed.

Lemma bchain_NoDup cf start cur q : bchain cf start cur q -> NoDup q.
Proof.
  induction 1 as [|cur p q N E H IH].
  - constructor; [intros []|constructor].
  - constructor; auto. intros Hin.
    destruct (bchain_suffix _ _ _ _ H cur Hin) as (q' & H1 & H2).
    pose proof (bchain_fun _ _ _ _ H1 (cur :: q)
                  (bc_step cf start cur p q N E H)) as Eq.
    subst q'. cbn in H2. lia.
Qed.

(** The nodes of [p], two by two: [came_from] maps each one to the one
    before it. *)
Fixpoint linked (came_from : dict string) (p : list string) : Prop :=
  match p with
  | a :: (b :: _) as tl => dict_get came_from b = Some a /\ linked came_from tl
  | _ => True
  end.

Lemma linked_snoc cf p a b :
  linked cf (p ++ [a]) -> dict_get cf b = Some a -> linked cf ((p ++ [a]) ++ [b]).
Proof.
  induction p as [|x p IH]; cbn [app linked]; [tauto|].
  destruct p as [|y p]; cbn [app linked] in *; tauto.
Qed.

Lemma bchain_rev cf start cur q :
  bchain cf start cur q ->
  linked cf (rev q) /\ hd_error (rev q) = Some start /\ last (rev q) start = cur.
Proof.
  induction 1 as [|cur p q N E H (IH1 & IH2 & IH3)]; [cbn; auto|].
  cbn [rev]. split; [|split].
  - destruct (rev q) as [|x l] eqn:R; [discriminate|].
    assert (Hl : exists l' , x :: l = l' ++ [p]).
    { destruct (exists_last (l := x :: l)) as (l' & z & Ez); [discriminate|].
      exists l'. rewrite Ez in *. rewrite last_last in IH3. now subst. }
    destruct Hl as [l' El]. rewrite El in *. now apply linked_snoc.
  - destruct (rev q); [discriminate|exact IH2].
  - apply last_last.
Qed.

(** X11: what [_reconstruct_path] returns, for any [came_from]: when
    [start == goal] it is [[start]]; otherwise a returned path is empty
    (a node on the way back has no entry) or it runs from [start] to
    [goal], [came_from] maps each node of it to the one before, and no
    node occurs twice. *)
Theorem X11_reconstruct_path_shape fuel came_from start goal g :
  (start = goal ->
   _reconstruct_path fuel came_from start goal g = (Ok [start], g))
  /\ forall p,
       _reconstruct_path fuel came_from start goal g = (Ok p, g) ->
       p = []
       \/ (hd_error p = Some start /\ last p start = goal
           /\ linked came_from p /\ NoDup p).
Proof.
  unfold _reconstruct_path, lift. split.
  - intros <-. destruct fuel; cbn; now rewrite String.eqb_refl.
  - intros p H. inversion H as [E].
    apply reconstruct_loop_chain in E as [E|(q & Hq & ->)]; auto.
    right. cbn [app]. destruct (bchain_rev _ _ _ _ Hq) as (L & Hh & Hl).
    repeat split; auto. apply NoDup_rev. now apply bchain_NoDup with (1 := Hq).
Qed.

(** X12: [_reconstruct_path] does not return when the way back from
    [goal] runs in a cycle that misses [start]: whatever the fuel, the
    loop is still running. *)
Theorem X12_reconstruct_path_can_loop came_from start (C : string -> Prop) :
  ~ C start ->
  (forall x, C x -> exists y, dict_get came_from x = Some y /\ C y) ->
  forall goal, C goal ->
  forall fuel g, _reconstruct_path fuel came_from start goal g = (OutOfFuel, g).
Proof.
  intros Hs Hc goal Hg fuel g. unfold _reconstruct_path, lift. f_equal.
  generalize (@nil string) as acc. revert goal Hg.
  induction fuel as [|fuel IH]; intros cur Hcur acc; cbn [reconstruct_loop];
    (destruct (String.eqb_spec cur start) as [->|N]; [contradiction|]); auto.
  destruct (Hc cur Hcur) as (y & E & Hy). rewrite E. now apply IH.
Qed.

Lemma X12_reconstruct_path_can_loop_witness :
  _reconstruct_path 1000 [("A", "B"); ("B", "A")] "S" "A" Graph_init
  = (OutOfFuel, Graph_init).
Proof.
  apply (X12_reconstruct_path_can_loop [("A", "B"); ("B", "A")] "S"
           (fun x => x = "A" \/ x = "B")).
  - intros [H|H]; discriminate.
  - intros x [-> | ->]; [exists "B"|exists "A"]; cbn; auto.
  - now left.
Defined.

(** ** [dijkstra] *)

Lemma not_nan_eqb d : ~ fnan d -> (d =? d)%float = true.
Proof. intros N. apply eqb_true_iff. auto. Qed.

Lemma relax_p_keys u k s s' e :
  relax_p u k s e = Ok s' -> dict_keys (fst (fst s')) = dict_keys (fst (fst s)).
Proof.
  destruct s as [[dist prev] pq]. intros H.
  apply relax_p_cases in H as (dv & Hv & [[_ ->]|[_ ->]]); cbn [fst]; auto.
  apply dict_keys_set_mem. apply dict_mem_true. eauto.
Qed.

Lemma dstep_keys g st st' :
  dstep g st = Ok st' -> dict_keys (fst (fst st')) = dict_keys (fst (fst st)).
Proof.
  destruct st as [[dist prev] pq]. intros H.
  apply dstep_cases in H as (k & u & pq' & du & _ & _ & [[_ ->]|[_ H]]); auto.
  apply (fold_res_pres (fun s => dict_keys (fst (fst s)) = dict_keys dist)) in H; auto.
  intros s x s' _ Hs Hr. rewrite <- Hs. now apply relax_p_keys with (1 := Hr).
Qed.

Lemma dijkstra_returns g start :
  endpoints_known g -> dict_mem (adj g) start = true ->
  exists dist prev,
    (forall fuel, dijkstra_fuel g start <= fuel ->
                  dijkstra fuel start g = (Ok (dist, prev), g))
    /\ dict_keys dist = dict_keys (adj g)
    /\ dbase g start (dist, prev, []).
Proof.
  intros K Hs.
  destruct (dijkstra_p_total g start
              (fun st => dict_keys (fst (fst st)) = dict_keys (adj g))
              (dijkstra_fuel g start) K Hs) as (dist & prev & E & B & Hk); auto.
  { intros st st' _ I _ H. rewrite <- I. now apply dstep_keys with (g := g). }
  { unfold dinit. cbn [fst]. rewrite dict_keys_set_mem, dict_keys_const; auto.
    now rewrite dict_mem_const. }
  exists dist, prev. split; [|auto].
  intros fuel Hf. rewrite dijkstra_run. f_equal.
  unfold dijkstra_p in *. rewrite Hs in *. cbn [negb] in *.
  rewrite (dloop_mono g (dijkstra_fuel g start) fuel); auto.
  rewrite E. discriminate.
Qed.

(** X13: on every graph whose edge ends are nodes, whatever the weights
    (negative ones, cycles of negative weight, [inf] and NaN included),
    [dijkstra] from a known start returns: its loop stops within
    [dijkstra_fuel] turns and raises nothing.  The distance map has the
    nodes as its keys, in the order of [nodes()]; no distance is NaN; and
    a distance other than [inf] belongs to a node that stored edges reach
    from the start, which is the start or has a predecessor. *)
Theorem X13_dijkstra_returns_on_every_graph g start :
  endpoints_known g -> dict_mem (adj g) start = true ->
  exists dist prev,
    (forall fuel, dijkstra_fuel g start <= fuel ->
                  dijkstra fuel start g = (Ok (dist, prev), g))
    /\ dict_keys dist = dict_keys (adj g)
    /\ forall v d, dict_get dist v = Some d ->
         (d =? d)%float = true
         /\ (d = inf
             \/ (reach g start v /\ (v = start \/ dict_mem prev v = true))).
Proof.
  intros K Hs. destruct (dijkstra_returns g start K Hs) as (dist & prev & E & Hk & B).
  exists dist, prev. split; [exact E|]. split; [exact Hk|].
  intros v d Hd. split.
  - apply not_nan_eqb. exact (db_nan _ _ _ B _ _ Hd).
  - destruct (db_dist _ _ _ B _ _ Hd) as [->|R]; auto.
    destruct (db_fin _ _ _ B _ _ Hd) as [->|P]; auto.
Qed.

(** A graph with a cycle of negative weight. *)
Definition negative_graph : Graph :=
  snd (add_edge "A" "B" (PyFloat (-1)) (PyInt 1) true Graph_init).

Lemma negative_graph_known : endpoints_known negative_graph.
Proof.
  apply (endpoints_known_add_edge Graph_init "A" "B" (PyFloat (-1)) (PyInt 1) true).
  intros u es [].
Qed.

Lemma X13_dijkstra_returns_on_every_graph_witness :
  exists dist prev,
    (forall fuel, dijkstra_fuel negative_graph "A" <= fuel ->
                  dijkstra fuel "A" negative_graph = (Ok (dist, prev), negative_graph))
    /\ dict_keys dist = dict_keys (adj negative_graph)
    /\ forall v d, dict_get dist v = Some d ->
         (d =? d)%float = true
         /\ (d = inf
             \/ (reach negative_graph "A" v /\ (v = "A" \/ dict_mem prev v = true))).
Proof.
  apply (X13_dijkstra_returns_on_every_graph negative_graph "A").
  - apply negative_graph_known.
  - reflexivity.
Defined.

Lemma dijkstra_valid g start :
  endpoints_known g -> weights_valid g -> dict_mem (adj g) start = true ->
  exists dist prev,
    (forall fuel, dijkstra_fuel g start <= fuel ->
                  dijkstra fuel start g = (Ok (dist, prev), g))
    /\ dbase g start (dist, prev, []) /\ dgood g start (dist, prev, [])
    /\ dloop g (dijkstra_fuel g start) (dinit g start) = Ok (dist, prev).
Proof.
  intros K W Hs.
  destruct (dijkstra_final g start K (weights_valid_ok g W) Hs)
    as (dist & prev & E0 & E & B & G).
  exists dist, prev. split; [|auto].
  intros fuel Hf. rewrite dijkstra_run. f_equal. now apply E.
Qed.

(** X14: on a graph with valid weights, the maps that [dijkstra] returns
    are consistent: the start has distance [0.0] and no predecessor; no
    distance is negative; a predecessor link [prev[v] = u] goes along a
    stored edge of [u] with [dist[v] = dist[u] + w]; and no stored edge
    can be relaxed any more: [dist[u] + w < dist[v]] is false for every
    edge. *)
Theorem X14_dijkstra_maps_are_consistent g start :
  endpoints_known g -> weights_valid g -> dict_mem (adj g) start = true ->
  exists dist prev,
    (forall fuel, dijkstra_fuel g start <= fuel ->
                  dijkstra fuel start g = (Ok (dist, prev), g))
    /\ dict_get dist start = Some zero /\ dict_get prev start = None
    /\ (forall v d, dict_get dist v = Some d -> (d <? zero)%float = false)
    /\ (forall v u, dict_get prev v = Some u ->
          exists e du,
            In e (nbrs g u) /\ to_node e = v /\ dict_get dist u = Some du
            /\ dict_get dist v = Some (du + effective_weight e)%float)
    /\ (forall u e du dv,
          In e (nbrs g u) -> dict_get dist u = Some du ->
          dict_get dist (to_node e) = Some dv ->
          (du + effective_weight e <? dv)%float = false).
Proof.
  intros K W Hs.
  destruct (dijkstra_valid g start K W Hs) as (dist & prev & E & B & [[[ts T] J] [m S]] & _).
  exists dist, prev. cbn [fst snd] in *.
  split; [exact E|].
  split; [exact (ti_start _ _ _ _ T)|]. split; [exact (ti_root _ _ _ _ T)|].
  split; [|split].
  - intros v d Hd. destruct (ti_pos _ _ _ _ T _ _ Hd) as [N P].
    apply ltb_false_iff; auto using zero_not_nan.
  - intros v u Hp. destruct (ds_cons _ _ _ S _ _ Hp) as (e & du & H1 & H2 & H3 & H4 & _).
    exists e, du. auto.
  - intros u e du dv He Hu Hv.
    destruct (ds_pend _ _ _ S _ _ Hu) as [[]|C]. exact (C e dv He Hv).
Qed.

Lemma X14_dijkstra_maps_are_consistent_witness :
  exists dist prev,
    (forall fuel, dijkstra_fuel sample_graph "A" <= fuel ->
                  dijkstra fuel "A" sample_graph = (Ok (dist, prev), sample_graph))
    /\ dict_get dist "A" = Some zero /\ dict_get prev "A" = None
    /\ (forall v d, dict_get dist v = Some d -> (d <? zero)%float = false)
    /\ (forall v u, dict_get prev v = Some u ->
          exists e du,
            In e (nbrs sample_graph u) /\ to_node e = v /\ dict_get dist u = Some du
            /\ dict_get dist v = Some (du + effective_weight e)%float)
    /\ (forall u e du dv,
          In e (nbrs sample_graph u) -> dict_get dist u = Some du ->
          dict_get dist (to_node e) = Some dv ->
          (du + effective_weight e <? dv)%float = false).
Proof.
  apply (X14_dijkstra_maps_are_consistent sample_graph "A").
  - apply sample_graph_known.
  - apply sample_graph_valid.
  - reflexivity.
Defined.

(** ** The point queries on graphs with valid weights *)

(** X15: on a graph with valid weights, [shortest_path_dijkstra] from a
    known start returns, and what it returns is [([], inf)] or a path
    that is a walk along stored edges from [start] to [end], with the sum
    of the effective weights of these edges, added from [0.0] in path
    order, as its cost, finite and not negative. *)
Theorem X15_dijkstra_cost_is_the_path_sum g start end_ :
  endpoints_known g -> weights_valid g -> dict_mem (adj g) start = true ->
  exists n r,
    (forall fuel, n <= fuel ->
                  shortest_path_dijkstra fuel start end_ g = (Ok r, g))
    /\ (r = ([], inf)
        \/ exists es,
             walk g start es /\ fst r = walk_nodes start es
             /\ walk_end start es = end_ /\ snd r = path_cost es
             /\ (snd r <? inf)%float = true /\ (snd r <? zero)%float = false).
Proof.
  intros K W Hs.
  destruct (shortest_path_dijkstra_cost g start end_ K (weights_valid_ok g W) Hs)
    as (n & r & R & E).
  exists n, r. split; [|exact R].
  intros fuel Hf. rewrite shortest_path_dijkstra_run. f_equal. now apply E.
Qed.

Lemma X15_dijkstra_cost_is_the_path_sum_witness :
  exists n r,
    (forall fuel, n <= fuel ->
                  shortest_path_dijkstra fuel "A" "Z" sample_graph
                  = (Ok r, sample_graph))
    /\ (r = ([], inf)
        \/ exists es,
             walk sample_graph "A" es /\ fst r = walk_nodes "A" es
             /\ walk_end "A" es = "Z" /\ snd r = path_cost es
             /\ (snd r <? inf)%float = true /\ (snd r <? zero)%float = false).
Proof.
  apply (X15_dijkstra_cost_is_the_path_sum sample_graph "A" "Z").
  - apply sample_graph_known.
  - apply sample_graph_valid.
  - reflexivity.
Defined.

Lemma sample_graph_coords_adj : adj sample_graph_coords = adj sample_graph.
Proof. reflexivity. Qed.

Lemma sample_graph_coords_known : endpoints_known sample_graph_coords.
Proof.
  apply (endpoints_known_adj sample_graph); [reflexivity|apply sample_graph_known].
Qed.

Lemma sample_graph_coords_valid : weights_valid sample_graph_coords.
Proof. apply weights_validb_ok. vm_compute. reflexivity. Qed.

Section AStarValid.
Variable hypot : float -> float -> float.

(** X16: on a graph with valid weights, [a_star] between known nodes
    returns, whatever the coordinates and whatever [math.hypot] computes
    (a heuristic that overestimates, or is NaN, included): it returns
    [([], inf)], or a walk along stored edges from [start] to [goal] with
    a cost that is finite and not negative. *)
Theorem X16_a_star_returns_a_walk g start goal :
  endpoints_known g -> weights_valid g ->
  dict_mem (adj g) start = true -> dict_mem (adj g) goal = true ->
  exists n r,
    (forall fuel, n <= fuel -> a_star hypot fuel start goal g = (Ok r, g))
    /\ (r = ([], inf)
        \/ exists es,
             walk g start es /\ fst r = walk_nodes start es
             /\ walk_end start es = goal
             /\ (snd r <? inf)%float = true /\ (snd r <? zero)%float = false).
Proof.
  intros K W Hs Hg.
  destruct (a_star_shape hypot g start goal K (weights_valid_ok g W) Hs Hg)
    as (n & r & R & E).
  exists n, r. split; [|exact R].
  intros fuel Hf. rewrite a_star_run. f_equal. now apply E.
Qed.

(** X17: when the goal has no coordinates, as on every graph built with
    [add_edge] or [load_from_edge_list] alone, the heuristic is [0.0] and
    [a_star] agrees with [shortest_path_dijkstra]: on a graph with valid
    weights both return, with the same cost; the path of [a_star] is a
    walk from [start] to [goal] whose weights add up to that cost; and
    the one path is empty exactly when the other is. *)
Theorem X17_a_star_without_coordinates_agrees g start goal :
  endpoints_known g -> weights_valid g ->
  dict_mem (adj g) start = true -> dict_mem (adj g) goal = true ->
  dict_get (coords g) goal = None ->
  exists n pd pa c,
    (forall fuel, n <= fuel ->
       shortest_path_dijkstra fuel start goal g = (Ok (pd, c), g)
       /\ a_star hypot fuel start goal g = (Ok (pa, c), g))
    /\ (pa = [] <-> pd = [])
    /\ ((pa = [] /\ c = inf)
        \/ exists es,
             walk g start es /\ pa = walk_nodes start es
             /\ walk_end start es = goal /\ c = path_cost es
             /\ (c <? inf)%float = true /\ (c <? zero)%float = false).
Proof.
  intros K W Hs Hg Hc.
  assert (Hz : forall v, heur hypot g v goal = zero).
  { intros v. unfold heur. rewrite Hc. now destruct (dict_get (coords g) v) as [[x y]|]. }
  pose proof (weights_valid_ok g W) as W'.
  destruct (dijkstra_final g start K W' Hs) as (dist & prev & E0 & E & B & G).
  destruct (finish_p_cost g start goal dist prev B G) as (n1 & rd & Rd & Fd & Dd).
  destruct (a_star_zero hypot g start goal K W' Hz (dist, prev) _ Hs Hg E0)
    as (n2 & ra & Ea & Ra & Da).
  cbn [fst] in Da.
  assert (Hcost : snd rd = snd ra).
  { destruct Dd as [Dd|[[-> Dd]|[Dd1 Dd2]]].
    - rewrite (db_keys _ _ _ B) in Dd. cbn [fst snd] in Dd. congruence.
    - destruct Da as [[-> _]|[Da1 Da2]]; [reflexivity|].
      rewrite Dd in Da1. inversion Da1 as [I]. rewrite <- I in Da2.
      vm_compute in Da2. discriminate.
    - destruct Da as [[-> Da]|[Da1 Da2]].
      + rewrite Da in Dd1. inversion Dd1 as [I]. rewrite <- I in Dd2.
        vm_compute in Dd2. discriminate.
      + congruence. }
  pose proof (result_shape_iff _ _ _ _ (result_cost_shape _ _ _ _ Rd)) as Id.
  pose proof (result_shape_iff _ _ _ _ (result_cost_shape _ _ _ _ Ra)) as Ia.
  destruct rd as [pd cd], ra as [pa ca]. cbn [fst snd] in *. subst cd.
  exists (Nat.max (Nat.max (dijkstra_fuel g start) n1) n2), pd, pa, ca.
  split; [|split].
  - intros fuel Hf. split.
    + rewrite shortest_path_dijkstra_run. f_equal. unfold shortest_path_dijkstra_p.
      rewrite E by lia. cbn [res_bind]. apply Fd. lia.
    + rewrite a_star_run. f_equal. apply Ea. lia.
  - tauto.
  - destruct Ra as [Ra|(es & R1 & R2 & R3 & R4 & R5 & R6)].
    + inversion Ra; subst. now left.
    + right. exists es. cbn [fst snd] in *. auto 7.
Qed.

End AStarValid.

Lemma X16_a_star_returns_a_walk_witness :
  exists n r,
    (forall fuel, n <= fuel ->
       a_star hypot_sqrt fuel "A" "Z" sample_graph_coords
       = (Ok r, sample_graph_coords))
    /\ (r = ([], inf)
        \/ exists es,
             walk sample_graph_coords "A" es /\ fst r = walk_nodes "A" es
             /\ walk_end "A" es = "Z"
             /\ (snd r <? inf)%float = true /\ (snd r <? zero)%float = false).
Proof.
  apply (X16_a_star_returns_a_walk hypot_sqrt sample_graph_coords "A" "Z").
  - apply sample_graph_coords_known.
  - apply sample_graph_coords_valid.
  - reflexivity.
  - reflexivity.
Defined.

Lemma X17_a_star_without_coordinates_agrees_witness :
  exists n pd pa c,
    (forall fuel, n <= fuel ->
       shortest_path_dijkstra fuel "A" "Z" sample_graph
       = (Ok (pd, c), sample_graph)
       /\ a_star hypot_sqrt fuel "A" "Z" sample_graph = (Ok (pa, c), sample_graph))
    /\ (pa = [] <-> pd = [])
    /\ ((pa = [] /\ c = inf)
        \/ exists es,
             walk sample_graph "A" es /\ pa = walk_nodes "A" es
             /\ walk_end "A" es = "Z" /\ c = path_cost es
             /\ (c <? inf)%float = true /\ (c <? zero)%float = false).
Proof.
  apply (X17_a_star_without_coordinates_agrees hypot_sqrt sample_graph "A" "Z").
  - apply sample_graph_known.
  - apply sample_graph_valid.
  - reflexivity.
  - reflexivity.
  - reflexivity.
Defined.

(** ** Binary64: rounding is monotone *)

(** [shr_1] on a record whose mantissa is not negative. *)
Lemma shr_1_bits r :
  (0 <= shr_m r)%Z ->
  shr_r (shr_1 r) = Z.odd (shr_m r) /\ shr_s (shr_1 r) = shr_r r || shr_s r.
Proof.
  destruct r as [m rr s]; cbn [shr_m shr_r shr_s shr_1]. intros H.
  destruct m as [|p|p]; [auto| |lia]. destruct p; auto.
Qed.

(** The record [r] is [m0] shifted [k] times from an exact location. *)
Definition shifted (m0 k : Z) (r : shr_record) : Prop :=
  shr_m r = (m0 / 2 ^ k)%Z
  /\ (k = 0%Z -> shr_r r = false /\ shr_s r = false)
  /\ ((1 <= k)%Z ->
      shr_r r = Z.odd (m0 / 2 ^ (k - 1))
      /\ shr_s r = negb (m0 mod 2 ^ (k - 1) =? 0)%Z).

Lemma mod_pow2_succ m k :
  (0 <= k)%Z ->
  (m mod 2 ^ (k + 1) = m mod 2 ^ k + 2 ^ k * ((m / 2 ^ k) mod 2))%Z.
Proof.
  intros Hk. rewrite Z.pow_add_r by lia. change (2 ^ 1)%Z with 2%Z.
  apply Z.rem_mul_r; [|lia]. pose proof (pow2_pos k Hk). lia.
Qed.

Lemma shifted_step m0 k r :
  (0 <= m0)%Z -> (0 <= k)%Z -> shifted m0 k r -> shifted m0 (k + 1) (shr_1 r).
Proof.
  intros Hm Hk (Sm & S0 & S1).
  assert (Hr : (0 <= shr_m r)%Z).
  { rewrite Sm. apply Z.div_pos; [lia|]. now apply pow2_pos. }
  destruct (shr_1_bits r Hr) as [Br Bs].
  split; [|split].
  - rewrite shr_1_m, Sm, Z.div_div by (try apply pow2_pos; lia).
    f_equal. rewrite Z.pow_add_r by lia. reflexivity.
  - lia.
  - intros _. replace (k + 1 - 1)%Z with k by lia. split.
    + now rewrite Br, Sm.
    + rewrite Bs. destruct (Z.eq_dec k 0) as [->|Nk].
      * destruct (S0 eq_refl) as [-> ->]. cbn. now rewrite Z.mod_1_r.
      * destruct (S1 ltac:(lia)) as [-> ->].
        pose proof (mod_pow2_succ m0 (k - 1) ltac:(lia)) as E.
        replace (k - 1 + 1)%Z with k in E by lia.
        rewrite Zmod_odd in E.
        pose proof (pow2_pos (k - 1) ltac:(lia)) as P.
        pose proof (Z.mod_pos_bound m0 (2 ^ (k - 1)) P) as Bd.
        destruct (Z.odd (m0 / 2 ^ (k - 1))); cbn [orb].
        -- symmetry. apply negb_true_iff. apply Z.eqb_neq. lia.
        -- f_equal. rewrite E.
           replace (m0 mod 2 ^ (k - 1) + 2 ^ (k - 1) * 0)%Z
             with (m0 mod 2 ^ (k - 1))%Z by lia.
           reflexivity.
Qed.

Lemma iter_pos_shifted m0 p : forall k r,
  (0 <= m0)%Z -> (0 <= k)%Z -> shifted m0 k r ->
  shifted m0 (k + Zpos p) (iter_pos shr_1 p r).
Proof.
  induction p as [p IH|p IH|]; intros k r Hm Hk H; cbn [iter_pos].
  - replace (k + Zpos p~1)%Z with (k + 1 + Zpos p + Zpos p)%Z by lia.
    apply IH; try lia. apply IH; try lia. now apply shifted_step.
  - replace (k + Zpos p~0)%Z with (k + Zpos p + Zpos p)%Z by lia.
    apply IH; try lia. apply IH; try lia. exact H.
  - now apply shifted_step.
Qed.

(** Whether the remainder [rem] of a division by [2 ^ n] rounds the
    quotient [q] up, to nearest with ties to even. *)
Definition rup (q rem n : Z) : Z :=
  if (2 ^ n <? 2 * rem)%Z || ((2 ^ n =? 2 * rem)%Z && Z.odd q) then 1%Z else 0%Z.

Lemma shr_round m n e :
  (0 <= m)%Z -> (0 <= n)%Z ->
  let r := fst (shr (Build_shr_record m false false) e n) in
  round_nearest_even (shr_m r) (loc_of_shr_record r)
  = (m / 2 ^ n + rup (m / 2 ^ n) (m mod 2 ^ n) n)%Z.
Proof.
  intros Hm Hn. cbv zeta. unfold shr. destruct n as [|p|p]; [| |lia]; cbn [fst].
  - cbn [shr_m loc_of_shr_record round_nearest_even]. unfold rup.
    rewrite Z.mod_1_r, Z.div_1_r. cbn. lia.
  - assert (S0 : shifted m 0 (Build_shr_record m false false)).
    { split; [cbn; now rewrite Z.div_1_r|]. split; [auto|lia]. }
    pose proof (iter_pos_shifted m p 0 _ Hm ltac:(lia) S0) as (Sm & _ & S1).
    cbn [Z.add] in Sm, S1. destruct (S1 ltac:(lia)) as [Sr Ss].
    set (r := iter_pos shr_1 p (Build_shr_record m false false)) in *.
    rewrite Sm. set (q := (m / 2 ^ Zpos p)%Z).
    pose proof (mod_pow2_succ m (Zpos p - 1) ltac:(lia)) as E.
    replace (Zpos p - 1 + 1)%Z with (Zpos p) in E by lia.
    rewrite Zmod_odd in E.
    pose proof (pow2_pos (Zpos p - 1) ltac:(lia)) as P.
    pose proof (Z.mod_pos_bound m (2 ^ (Zpos p - 1)) P) as Bd.
    assert (P2 : (2 ^ Zpos p = 2 * 2 ^ (Zpos p - 1))%Z).
    { replace (Zpos p) with (1 + (Zpos p - 1))%Z at 1 by lia.
      rewrite Z.pow_add_r by lia. reflexivity. }
    unfold rup. rewrite E, P2.
    destruct r as [rm rr rs]. cbn [shr_m shr_r shr_s loc_of_shr_record] in *.
    subst rr rs.
    destruct (Z.odd (m / 2 ^ (Zpos p - 1))); cbn [negb].
    + destruct (m mod 2 ^ (Zpos p - 1) =? 0)%Z eqn:T; cbn [negb round_nearest_even].
      * apply Z.eqb_eq in T. rewrite T.
        replace (2 * 2 ^ (Zpos p - 1) <? 2 * (0 + 2 ^ (Zpos p - 1) * 1))%Z
          with false by (symmetry; apply Z.ltb_ge; lia).
        replace (2 * 2 ^ (Zpos p - 1) =? 2 * (0 + 2 ^ (Zpos p - 1) * 1))%Z
          with true by (symmetry; apply Z.eqb_eq; lia).
        cbn [orb andb]. rewrite <- Z.negb_even.
        destruct (Z.even q); cbn [negb]; lia.
      * apply Z.eqb_neq in T.
        replace (2 * 2 ^ (Zpos p - 1)
                 <? 2 * (m mod 2 ^ (Zpos p - 1) + 2 ^ (Zpos p - 1) * 1))%Z
          with true by (symmetry; apply Z.ltb_lt; lia).
        cbn [orb]. lia.
    + replace (2 * 2 ^ (Zpos p - 1)
               <? 2 * (m mod 2 ^ (Zpos p - 1) + 2 ^ (Zpos p - 1) * 0))%Z
        with false by (symmetry; apply Z.ltb_ge; lia).
      replace (2 * 2 ^ (Zpos p - 1)
               =? 2 * (m mod 2 ^ (Zpos p - 1) + 2 ^ (Zpos p - 1) * 0))%Z
        with false by (symmetry; apply Z.eqb_neq; lia).
      cbn [orb andb].
      destruct (m mod 2 ^ (Zpos p - 1) =? 0)%Z; cbn [negb round_nearest_even]; lia.
Qed.

(** The result of rounding, from the exponent and the rounded mantissa. *)
Definition rres (fe m1 : Z) : spec_float :=
  if (m1 <? 2 ^ 53)%Z
  then (if (fe <=? 971)%Z then S754_finite false (Z.to_pos m1) fe
        else S754_infinity false)
  else (if (fe + 1 <=? 971)%Z then S754_finite false (2 ^ 52)%positive (fe + 1)
        else S754_infinity false).

Lemma binary_round_aux_exact mz ez' :
  (-1074 <= ez')%Z ->
  (ez' <= fexp prec emax (Zpos (digits2_pos mz) + ez'))%Z ->
  let fe := fexp prec emax (Zpos (digits2_pos mz) + ez') in
  let n := (fe - ez')%Z in
  let q := (Zpos mz / 2 ^ n)%Z in
  let m1 := (q + rup q (Zpos mz mod 2 ^ n) n)%Z in
  binary_round_aux prec emax false (Zpos mz) ez' loc_Exact = rres fe m1
  /\ (1 <= q < 2 ^ 53)%Z /\ ((-1074 < fe)%Z -> (2 ^ 52 <= q)%Z).
Proof.
  intros He1 He2. cbv zeta. rewrite fexp_eq in *.
  set (dz := Zpos (digits2_pos mz)) in *.
  remember (Z.max (dz + ez' - 53) (-1074)) as fe eqn:Efe.
  remember (fe - ez')%Z as n eqn:En.
  assert (Hn : (0 <= n)%Z) by lia.
  pose proof (digits2_pos_bound mz) as Uz. fold dz in Uz.
  pose proof (digits2_pos_low mz) as Lz. fold dz in Lz.
  pose proof (pow2_pos n Hn) as PN.
  set (q := (Zpos mz / 2 ^ n)%Z).
  assert (Fa : (q < 2 ^ 53)%Z).
  { apply Z.div_lt_upper_bound; [lia|].
    eapply Z.lt_le_trans; [exact Uz|].
    rewrite <- Z.pow_add_r by lia. apply pow2_le. unfold dz in *. lia. }
  assert (Fb : (-1074 < fe -> 2 ^ 52 <= q)%Z).
  { intros Hfe. apply Z.div_le_lower_bound; [lia|].
    eapply Z.le_trans; [|exact Lz].
    rewrite <- Z.pow_add_r by lia. apply pow2_le. unfold dz in *. lia. }
  assert (Fq : (1 <= q)%Z).
  { destruct (Z.eq_dec fe (-1074)) as [E|E].
    - assert (n = 0%Z) by lia. subst n. unfold q. rewrite H, Z.div_1_r. lia.
    - specialize (Fb ltac:(lia)). assert (0 < 2 ^ 52)%Z by reflexivity. lia. }
  split; [|split; [lia|exact Fb]].
  set (rem := (Zpos mz mod 2 ^ n)%Z).
  assert (Ru : (0 <= rup q rem n <= 1)%Z).
  { unfold rup. destruct (_ || _); lia. }
  set (m1 := (q + rup q rem n)%Z) in *.
  unfold binary_round_aux, shr_fexp at 1.
  cbn [Zdigits2 shr_record_of_loc]. rewrite fexp_eq. fold dz.
  rewrite <- Efe, <- En.
  pose proof (shr_round (Zpos mz) n ez' ltac:(lia) Hn) as R. cbv zeta in R.
  destruct (shr_spec (Build_shr_record (Zpos mz) false false) ez' n
              ltac:(cbn; lia) Hn) as [_ E2].
  destruct (shr (Build_shr_record (Zpos mz) false false) ez' n) as [mrs' e'].
  cbn [fst snd] in R, E2. rewrite R. fold q rem m1.
  replace e' with fe by lia.
  destruct m1 as [|p|p] eqn:Em1; [lia| |lia].
  pose proof (digits2_pos_bound p) as Up. pose proof (digits2_pos_low p) as Lp.
  set (dp := Zpos (digits2_pos p)) in *.
  unfold rres.
  destruct (Z.ltb_spec (Zpos p) (2 ^ 53)) as [D|D].
  - assert (Dp : (dp <= 53)%Z).
    { assert (dp - 1 < 53)%Z; [|lia]. apply pow2_lt_inv; lia. }
    unfold shr_fexp. cbn [Zdigits2 shr_record_of_loc]. rewrite fexp_eq. fold dp.
    rewrite shr_id by lia. cbn [shr_m].
    change (emax - prec)%Z with 971%Z. cbn [Z.to_pos]. reflexivity.
  - assert (Eq : Zpos p = (2 ^ 53)%Z) by lia.
    assert (Dp : dp = 54%Z).
    { assert (dp - 1 < 54)%Z.
      { apply pow2_lt_inv; [lia|]. eapply Z.le_lt_trans; [exact Lp|].
        rewrite Eq. reflexivity. }
      assert (53 < dp)%Z; [|lia].
      apply pow2_lt_inv; [lia|]. now rewrite <- Eq. }
    destruct (shr_fexp_spec (Zpos p) fe loc_Exact ltac:(lia)) as [G1 G2].
    { cbn [Zdigits2]. rewrite fexp_eq. fold dp. lia. }
    destruct (shr_fexp prec emax (Zpos p) fe loc_Exact) as [mrs2 e2].
    cbn [fst snd Zdigits2] in G1, G2. rewrite fexp_eq in G1, G2. fold dp in G1, G2.
    rewrite Dp in G1, G2.
    replace (Z.max (54 + fe - 53) (-1074) - fe)%Z with 1%Z in G1 by lia.
    replace (Z.max (54 + fe - 53) (-1074))%Z with (fe + 1)%Z in G2 by lia.
    rewrite Eq in G1. change (2 ^ 53 / 2 ^ 1)%Z with (Zpos (2 ^ 52)%positive) in G1.
    rewrite G1, G2. change (emax - prec)%Z with 971%Z. reflexivity.
Qed.

Lemma rres_key fe m1 :
  (1 <= m1)%Z ->
  sf_key (rres fe m1)
  = (if (m1 <? 2 ^ 53)%Z
     then (if (fe <=? 971)%Z then key_top + ((fe + 1074) * 2 ^ 53 + m1)
           else 2 * key_top)
     else (if (fe + 1 <=? 971)%Z then key_top + ((fe + 1075) * 2 ^ 53 + 2 ^ 52)
           else 2 * key_top))%Z.
Proof.
  intros H. unfold rres.
  destruct (m1 <? 2 ^ 53)%Z.
  - destruct (fe <=? 971)%Z; cbn [sf_key]; [|reflexivity].
    unfold mag. rewrite Z2Pos.id by lia. reflexivity.
  - destruct (fe + 1 <=? 971)%Z; cbn [sf_key]; [|reflexivity].
    unfold mag. replace (fe + 1 + 1074)%Z with (fe + 1075)%Z by lia. reflexivity.
Qed.

Lemma rup_scale q rem n b :
  (0 <= n)%Z -> (0 <= b)%Z -> rup q (rem * 2 ^ b) (n + b) = rup q rem n.
Proof.
  intros Hn Hb. unfold rup. rewrite Z.pow_add_r by lia.
  pose proof (pow2_pos b Hb) as P.
  replace (2 ^ n * 2 ^ b <? 2 * (rem * 2 ^ b))%Z with (2 ^ n <? 2 * rem)%Z.
  2: { apply bool_ext. rewrite !Z.ltb_lt. nia. }
  replace (2 ^ n * 2 ^ b =? 2 * (rem * 2 ^ b))%Z with (2 ^ n =? 2 * rem)%Z.
  2: { apply bool_ext. rewrite !Z.eqb_eq. nia. }
  reflexivity.
Qed.

Lemma rup_mono q r1 r2 c : (r1 <= r2)%Z -> (rup q r1 c <= rup q r2 c)%Z.
Proof.
  intros H. unfold rup.
  destruct (Z.ltb_spec (2 ^ c) (2 * r1)), (Z.ltb_spec (2 ^ c) (2 * r2)),
    (Z.eqb_spec (2 ^ c) (2 * r1)), (Z.eqb_spec (2 ^ c) (2 * r2));
    cbn [orb andb]; try lia; destruct (Z.odd q); lia.
Qed.

Lemma pow2_digits_le d1 b1 d2 b2 z1 z2 :
  (0 <= b1)%Z -> (0 <= b2)%Z -> (1 <= d1)%Z -> (0 <= d2)%Z ->
  (2 ^ (d1 - 1) <= z1)%Z -> (z2 < 2 ^ d2)%Z ->
  (z1 * 2 ^ b1 <= z2 * 2 ^ b2)%Z -> (d1 + b1 <= d2 + b2)%Z.
Proof.
  intros Hb1 Hb2 Hd1 Hd2 L U HV.
  assert (d1 + b1 - 1 < d2 + b2)%Z; [|lia].
  apply pow2_lt_inv; [lia|].
  replace (d1 + b1 - 1)%Z with ((d1 - 1) + b1)%Z by lia.
  rewrite !Z.pow_add_r by lia.
  pose proof (pow2_pos b1 Hb1) as P1. pose proof (pow2_pos b2 Hb2) as P2.
  eapply Z.le_lt_trans; [apply Z.mul_le_mono_nonneg_r; [lia|exact L]|].
  eapply Z.le_lt_trans; [exact HV|].
  apply Z.mul_lt_mono_pos_r; assumption.
Qed.

(** The result of rounding in terms of the value [v = mz * 2 ^ (e + 1074)]
    alone. *)
Lemma binary_round_aux_value mz e :
  (-1074 <= e)%Z ->
  (e <= fexp prec emax (Zpos (digits2_pos mz) + e))%Z ->
  let f := Z.max (Zpos (digits2_pos mz) + e - 53) (-1074) in
  let c := (f + 1074)%Z in
  let v := (Zpos mz * 2 ^ (e + 1074))%Z in
  binary_round_aux prec emax false (Zpos mz) e loc_Exact
  = rres f (v / 2 ^ c + rup (v / 2 ^ c) (v mod 2 ^ c) c)
  /\ (1 <= v / 2 ^ c < 2 ^ 53)%Z /\ ((-1074 < f)%Z -> (2 ^ 52 <= v / 2 ^ c)%Z).
Proof.
  intros A B. cbv zeta.
  destruct (binary_round_aux_exact mz e A B) as (E & Q & L).
  rewrite fexp_eq in *.
  remember (Z.max (Zpos (digits2_pos mz) + e - 53) (-1074)) as f eqn:Ef.
  remember (f - e)%Z as n eqn:En.
  assert (Hn : (0 <= n)%Z) by lia.
  assert (Hb : (0 <= e + 1074)%Z) by lia.
  assert (Ec : (2 ^ (f + 1074) = 2 ^ n * 2 ^ (e + 1074))%Z).
  { rewrite <- Z.pow_add_r by lia. f_equal. lia. }
  pose proof (pow2_pos n Hn) as Pn. pose proof (pow2_pos (e + 1074) Hb) as Pb.
  assert (Eq : (Zpos mz * 2 ^ (e + 1074) / 2 ^ (f + 1074) = Zpos mz / 2 ^ n)%Z).
  { rewrite Ec. apply Z.div_mul_cancel_r; lia. }
  assert (Er : ((Zpos mz * 2 ^ (e + 1074)) mod 2 ^ (f + 1074)
                = (Zpos mz mod 2 ^ n) * 2 ^ (e + 1074))%Z).
  { rewrite Ec. apply Z.mul_mod_distr_r; lia. }
  rewrite Eq, Er.
  replace (f + 1074)%Z with (n + (e + 1074))%Z by lia.
  rewrite rup_scale by lia. auto.
Qed.

Lemma rres_key_mono c1 c2 q1 q2 u1 u2 :
  (0 <= c1 <= c2)%Z ->
  (1 <= q1 < 2 ^ 53)%Z -> (1 <= q2 < 2 ^ 53)%Z ->
  (0 <= u1 <= 1)%Z -> (0 <= u2 <= 1)%Z ->
  (c1 = c2 -> q1 + u1 <= q2 + u2)%Z ->
  (c1 < c2 -> 2 ^ 52 <= q2)%Z ->
  (sf_key (rres (c1 - 1074) (q1 + u1)) <= sf_key (rres (c2 - 1074) (q2 + u2)))%Z.
Proof.
  intros Hc Q1 Q2 U1 U2 Heq Hlt.
  rewrite !rres_key by lia.
  replace (c1 - 1074 + 1074)%Z with c1 by lia.
  replace (c2 - 1074 + 1074)%Z with c2 by lia.
  replace (c1 - 1074 + 1075)%Z with (c1 + 1)%Z by lia.
  replace (c2 - 1074 + 1075)%Z with (c2 + 1)%Z by lia.
  assert (T : (key_top = 2048 * 2 ^ 53)%Z) by reflexivity.
  assert (T52 : (2 ^ 53 = 2 * 2 ^ 52)%Z) by reflexivity.
  assert (P52 : (0 < 2 ^ 52)%Z) by reflexivity.
  rewrite T. clear T. change (2 ^ 52)%Z with 4503599627370496%Z in *.
  change (2 ^ 53)%Z with 9007199254740992%Z in *.
  destruct (Z.eq_dec c1 c2) as [E|N].
  - subst c2. specialize (Heq eq_refl).
    destruct (Z.ltb_spec (q1 + u1) 9007199254740992),
      (Z.ltb_spec (q2 + u2) 9007199254740992),
      (Z.leb_spec (c1 - 1074) 971), (Z.leb_spec (c1 - 1074 + 1) 971); lia.
  - specialize (Hlt ltac:(lia)).
    destruct (Z.ltb_spec (q1 + u1) 9007199254740992), (Z.leb_spec (c1 - 1074) 971),
      (Z.leb_spec (c1 - 1074 + 1) 971);
      destruct (Z.ltb_spec (q2 + u2) 9007199254740992), (Z.leb_spec (c2 - 1074) 971),
        (Z.leb_spec (c2 - 1074 + 1) 971); lia.
Qed.

(** Rounding to nearest is monotone: a larger number, given by any
    mantissa and exponent, has a rounded value that is not smaller. *)
Lemma binary_round_aux_mono mz1 e1 mz2 e2 :
  (-1074 <= e1)%Z -> (e1 <= fexp prec emax (Zpos (digits2_pos mz1) + e1))%Z ->
  (-1074 <= e2)%Z -> (e2 <= fexp prec emax (Zpos (digits2_pos mz2) + e2))%Z ->
  (Zpos mz1 * 2 ^ (e1 + 1074) <= Zpos mz2 * 2 ^ (e2 + 1074))%Z ->
  (sf_key (binary_round_aux prec emax false (Zpos mz1) e1 loc_Exact)
   <= sf_key (binary_round_aux prec emax false (Zpos mz2) e2 loc_Exact))%Z.
Proof.
  intros A1 B1 A2 B2 HV.
  destruct (binary_round_aux_value mz1 e1 A1 B1) as (-> & Q1 & L1).
  destruct (binary_round_aux_value mz2 e2 A2 B2) as (-> & Q2 & L2).
  pose proof (pow2_digits_le (Zpos (digits2_pos mz1)) (e1 + 1074)
                (Zpos (digits2_pos mz2)) (e2 + 1074) (Zpos mz1) (Zpos mz2)
                ltac:(lia) ltac:(lia) ltac:(lia) ltac:(lia)
                (digits2_pos_low mz1) (digits2_pos_bound mz2) HV) as HD.
  remember (Z.max (Zpos (digits2_pos mz1) + e1 - 53) (-1074)) as f1 eqn:Ef1.
  remember (Z.max (Zpos (digits2_pos mz2) + e2 - 53) (-1074)) as f2 eqn:Ef2.
  assert (Hf : (-1074 <= f1 <= f2)%Z) by lia.
  clear Ef1 Ef2 HD A1 B1 A2 B2.
  remember (Zpos mz1 * 2 ^ (e1 + 1074))%Z as v1 eqn:Ev1.
  remember (Zpos mz2 * 2 ^ (e2 + 1074))%Z as v2 eqn:Ev2.
  assert (Hv1 : (0 <= v1)%Z).
  { subst v1. apply Z.mul_nonneg_nonneg; [lia|]. apply Z.pow_nonneg. lia. }
  clear Ev1 Ev2.
  remember (f1 + 1074)%Z as c1 eqn:Ec1. remember (f2 + 1074)%Z as c2 eqn:Ec2.
  replace f1 with (c1 - 1074)%Z by lia. replace f2 with (c2 - 1074)%Z by lia.
  assert (Hc : (0 <= c1 <= c2)%Z) by lia.
  assert (L2' : (c1 < c2 -> 2 ^ 52 <= v2 / 2 ^ c2)%Z) by (intros; apply L2; lia).
  clear Ec1 Ec2 Hf L1 L2.
  assert (U1 : (0 <= rup (v1 / 2 ^ c1) (v1 mod 2 ^ c1) c1 <= 1)%Z)
    by (unfold rup; destruct (_ || _); lia).
  assert (U2 : (0 <= rup (v2 / 2 ^ c2) (v2 mod 2 ^ c2) c2 <= 1)%Z)
    by (unfold rup; destruct (_ || _); lia).
  apply rres_key_mono; auto.
  intros E. subst c2.
  pose proof (pow2_pos c1 ltac:(lia)) as Pc.
  assert (Hq : (v1 / 2 ^ c1 <= v2 / 2 ^ c1)%Z) by (apply Z.div_le_mono; lia).
  destruct (Z.eq_dec (v1 / 2 ^ c1) (v2 / 2 ^ c1)) as [Eq|N]; [|lia].
  rewrite Eq.
  enough (rup (v2 / 2 ^ c1) (v1 mod 2 ^ c1) c1
          <= rup (v2 / 2 ^ c1) (v2 mod 2 ^ c1) c1)%Z by lia.
  apply rup_mono.
  pose proof (Z.div_mod v1 (2 ^ c1) ltac:(lia)) as D1.
  pose proof (Z.div_mod v2 (2 ^ c1) ltac:(lia)) as D2.
  rewrite Eq in D1. lia.
Qed.

Lemma binary_round_mono M1 e1 M2 e2 :
  (-1074 <= e1)%Z -> (-1074 <= e2)%Z ->
  (Zpos M1 * 2 ^ (e1 + 1074) <= Zpos M2 * 2 ^ (e2 + 1074))%Z ->
  (sf_key (binary_round prec emax false M1 e1)
   <= sf_key (binary_round prec emax false M2 e2))%Z.
Proof.
  intros H1 H2 HV. unfold binary_round.
  destruct (shl_align_spec M1 e1 H1) as (A1 & A2 & A3).
  destruct (shl_align_spec M2 e2 H2) as (B1 & B2 & B3).
  destruct (shl_align M1 e1 _) as [mz1 f1]. destruct (shl_align M2 e2 _) as [mz2 f2].
  cbn [fst snd] in *. apply binary_round_aux_mono; auto. now rewrite A1, B1.
Qed.

Lemma binary_round_bounds M e :
  (-1074 <= e)%Z ->
  (key_top < sf_key (binary_round prec emax false M e) <= 2 * key_top)%Z
  /\ binary_round prec emax false M e <> S754_nan.
Proof.
  intros H. unfold binary_round.
  destruct (shl_align_spec M e H) as (A1 & A2 & A3).
  destruct (shl_align M e _) as [mz f]. cbn [fst snd] in *.
  destruct (binary_round_aux_exact mz f A2 A3) as (E & Q & L).
  rewrite E.
  set (q := (Zpos mz / 2 ^ (fexp prec emax (Zpos (digits2_pos mz) + f) - f))%Z) in *.
  set (u := rup q _ _).
  assert (U : (0 <= u <= 1)%Z) by (unfold u, rup; destruct (_ || _); lia).
  split.
  - rewrite rres_key by lia. rewrite fexp_eq in *.
    assert (T : (key_top = 2048 * 2 ^ 53)%Z) by reflexivity.
    assert (P52 : (0 < 2 ^ 52)%Z) by reflexivity.
    assert (T52 : (2 ^ 53 = 2 * 2 ^ 52)%Z) by reflexivity.
    destruct (Z.ltb_spec (q + u) (2 ^ 53)), (Z.leb_spec (Z.max (Zpos (digits2_pos mz) + f - 53) (-1074)) 971),
      (Z.leb_spec (Z.max (Zpos (digits2_pos mz) + f - 53) (-1074) + 1) 971); lia.
  - unfold rres. destruct (_ <? _)%Z; destruct (_ <=? _)%Z; discriminate.
Qed.

(** The order of the keys is the order of the values. *)
Lemma mag_value m1 e1 m2 e2 :
  bounded prec emax m1 e1 = true -> bounded prec emax m2 e2 = true ->
  (mag m1 e1 <= mag m2 e2)%Z ->
  (Zpos m1 * 2 ^ (e1 + 1074) <= Zpos m2 * 2 ^ (e2 + 1074))%Z.
Proof.
  intros B1 B2 H.
  destruct (bounded_facts m1 e1 B1) as (R1 & U1 & L1).
  destruct (bounded_facts m2 e2 B2) as (R2 & U2 & L2).
  unfold mag in H.
  assert (T : (0 < 2 ^ 53)%Z) by reflexivity.
  destruct (Z.lt_trichotomy e1 e2) as [Lt|[Eq|Gt]].
  - specialize (L2 ltac:(lia)).
    pose proof (pow2_pos (e1 + 1074) ltac:(lia)) as P1.
    assert (E : (2 ^ (e2 + 1074) = 2 ^ (e2 - e1) * 2 ^ (e1 + 1074))%Z).
    { rewrite <- Z.pow_add_r by lia. f_equal. lia. }
    assert (P : (2 <= 2 ^ (e2 - e1))%Z).
    { change 2%Z with (2 ^ 1)%Z at 1. apply pow2_le. lia. }
    rewrite E. change (2 ^ 53)%Z with (2 * 2 ^ 52)%Z in U1. nia.
  - subst e2. pose proof (pow2_pos (e1 + 1074) ltac:(lia)). nia.
  - exfalso. nia.
Qed.

Definition sf_pos_num (x : spec_float) : Prop :=
  match x with
  | S754_zero _ => True
  | S754_infinity s | S754_finite s _ _ => s = false
  | S754_nan => False
  end.

Lemma sf_pos_num_key x :
  valid_binary x = true -> sf_pos_num x -> (key_top <= sf_key x <= 2 * key_top)%Z.
Proof.
  assert (T : (0 < key_top)%Z) by reflexivity.
  destruct x as [s|s| |s m e]; cbn [sf_key sf_pos_num valid_binary]; intros V H.
  - lia.
  - subst. lia.
  - contradiction.
  - subst. destruct (bounded_mag m e V). lia.
Qed.

Lemma SFadd_finite mx ex my ey :
  SFadd prec emax (S754_finite false mx ex) (S754_finite false my ey)
  = binary_round prec emax false
      (fst (shl_align mx ex (Z.min ex ey)) + fst (shl_align my ey (Z.min ex ey)))
      (Z.min ex ey).
Proof. reflexivity. Qed.

Lemma SFadd_value mx ex my ey :
  (-1074 <= ex)%Z -> (-1074 <= ey)%Z ->
  (Zpos (fst (shl_align mx ex (Z.min ex ey)) + fst (shl_align my ey (Z.min ex ey)))
   * 2 ^ (Z.min ex ey + 1074)
   = Zpos mx * 2 ^ (ex + 1074) + Zpos my * 2 ^ (ey + 1074))%Z.
Proof.
  intros Hx Hy. set (ez := Z.min ex ey).
  rewrite Pos2Z.inj_add, !shl_align_fst by (unfold ez; lia).
  assert (E1 : (2 ^ (ex + 1074) = 2 ^ (ex - ez) * 2 ^ (ez + 1074))%Z).
  { rewrite <- Z.pow_add_r by (unfold ez; lia). f_equal. lia. }
  assert (E2 : (2 ^ (ey + 1074) = 2 ^ (ey - ez) * 2 ^ (ez + 1074))%Z).
  { rewrite <- Z.pow_add_r by (unfold ez; lia). f_equal. lia. }
  rewrite E1, E2. ring.
Qed.

Lemma sf_pos_num_cases x :
  sf_pos_num x ->
  (exists s, x = S754_zero s) \/ x = S754_infinity false
  \/ exists m e, x = S754_finite false m e.
Proof.
  destruct x as [s|s| |s m e]; cbn [sf_pos_num]; intros H; subst; eauto.
  contradiction.
Qed.

(** The sum of two numbers that are not negative is a number, not below
    either of them, and it grows with the first one. *)
Lemma SFadd_mono x x' y :
  valid_binary x = true -> valid_binary x' = true -> valid_binary y = true ->
  sf_pos_num x -> sf_pos_num x' -> sf_pos_num y ->
  (sf_key x <= sf_key x')%Z ->
  SFadd prec emax x y <> S754_nan
  /\ (sf_key (SFadd prec emax x y) <= sf_key (SFadd prec emax x' y))%Z.
Proof.
  intros Vx Vx' Vy Nx Nx' Ny H.
  assert (T : (0 < key_top)%Z) by reflexivity.
  pose proof (sf_pos_num_key y Vy Ny) as Ky.
  pose proof (sf_pos_num_key x Vx Nx) as Kx.
  pose proof (sf_pos_num_key x' Vx' Nx') as Kx'.
  destruct (sf_pos_num_cases y Ny) as [[sy ->]|[->|(my & ey & ->)]].
  - (* y is a zero: the sum is x, up to the sign of a zero *)
    assert (Z : forall z, sf_pos_num z ->
                SFadd prec emax z (S754_zero sy) <> S754_nan
                /\ sf_key (SFadd prec emax z (S754_zero sy)) = sf_key z).
    { intros z Hz.
      destruct (sf_pos_num_cases z Hz) as [[s ->]|[->|(m & e & ->)]];
        cbn [SFadd]; try (split; [discriminate|reflexivity]).
      destruct s, sy; split; try discriminate; reflexivity. }
    destruct (Z x Nx) as [Z1 Z2]. destruct (Z x' Nx') as [_ Z3].
    split; [exact Z1|]. rewrite Z2, Z3. exact H.
  - (* y is inf: the sum is inf *)
    assert (Z : forall z, sf_pos_num z ->
                SFadd prec emax z (S754_infinity false) = S754_infinity false).
    { intros z Hz.
      destruct (sf_pos_num_cases z Hz) as [[s ->]|[->|(m & e & ->)]]; reflexivity. }
    rewrite (Z x Nx), (Z x' Nx'). split; [discriminate|lia].
  - (* y is finite *)
    cbn [valid_binary] in Vy. cbn [sf_key] in Ky.
    destruct (bounded_facts my ey Vy) as (Ry & _).
    assert (Z : forall z, valid_binary z = true -> sf_pos_num z ->
                SFadd prec emax z (S754_finite false my ey) <> S754_nan
                /\ (key_top + mag my ey
                    <= sf_key (SFadd prec emax z (S754_finite false my ey))
                    <= 2 * key_top)%Z).
    { intros z Vz Hz.
      destruct (sf_pos_num_cases z Hz) as [[s ->]|[->|(m & e & ->)]].
      - cbn [SFadd sf_key]. split; [discriminate|lia].
      - cbn [SFadd sf_key]. split; [discriminate|lia].
      - cbn [valid_binary] in Vz. destruct (bounded_facts m e Vz) as (Rz & _).
        rewrite SFadd_finite.
        destruct (binary_round_bounds
                    (fst (shl_align m e (Z.min e ey))
                     + fst (shl_align my ey (Z.min e ey))) (Z.min e ey)
                    ltac:(lia)) as [Bk Bn].
        split; [exact Bn|]. split; [|lia].
        apply binary_round_lower; [lia|exact Vy|].
        rewrite SFadd_value by lia.
        pose proof (pow2_pos (e + 1074) ltac:(lia)). nia. }
    destruct (Z x Vx Nx) as [Z1 Z2]. destruct (Z x' Vx' Nx') as [_ Z3].
    split; [exact Z1|].
    destruct (sf_pos_num_cases x Nx) as [[s ->]|[->|(m & e & ->)]].
    + cbn [SFadd] in *. cbn [sf_key] in *. lia.
    + cbn [sf_key] in H.
      destruct (sf_pos_num_cases x' Nx') as [[s' ->]|[->|(m' & e' & ->)]].
      * cbn [sf_key] in H. lia.
      * lia.
      * cbn [sf_key valid_binary] in *. destruct (bounded_mag m' e' Vx'). lia.
    + destruct (sf_pos_num_cases x' Nx') as [[s' ->]|[->|(m' & e' & ->)]].
      * cbn [sf_key valid_binary] in *. destruct (bounded_mag m e Vx). lia.
      * change (SFadd prec emax (S754_infinity false) (S754_finite false my ey))
          with (S754_infinity false).
        cbn [sf_key]. lia.
      * cbn [valid_binary] in Vx, Vx'. cbn [sf_key] in H.
        destruct (bounded_facts m e Vx) as (Rx & _).
        destruct (bounded_facts m' e' Vx') as (Rx' & _).
        rewrite !SFadd_finite.
        apply binary_round_mono; try lia.
        rewrite !SFadd_value by lia.
        pose proof (mag_value m e m' e' Vx Vx' ltac:(lia)). lia.
Qed.

Lemma pos_num_sf d :
  ~ fnan d -> (key_top <= fkey d)%Z -> sf_pos_num (Prim2SF d).
Proof.
  unfold fnan, fkey. pose proof (Prim2SF_valid d) as V.
  assert (T : (0 < key_top)%Z) by reflexivity.
  destruct (Prim2SF d) as [s|s| |s m e]; cbn [sf_key sf_pos_num valid_binary] in *;
    intros N K; auto.
  - destruct s; [lia|reflexivity].
  - destruct s; [|reflexivity]. destruct (bounded_mag m e V). lia.
Qed.

(** Binary64 addition of numbers that are not negative is monotone in its
    first argument, and gives a number. *)
Lemma add_mono a b w :
  ~ fnan a -> ~ fnan b -> ~ fnan w ->
  (key_top <= fkey a)%Z -> (fkey a <= fkey b)%Z -> (key_top <= fkey w)%Z ->
  ~ fnan (a + w)%float /\ (fkey (a + w) <= fkey (b + w))%Z.
Proof.
  intros Na Nb Nw Ka Kab Kw. unfold fnan, fkey. rewrite !add_spec.
  apply SFadd_mono; auto using Prim2SF_valid, pos_num_sf.
  apply pos_num_sf; auto. lia.
Qed.

Lemma fnan_add a w : ~ fnan (a + w)%float -> ~ fnan a /\ ~ fnan w.
Proof.
  unfold fnan. rewrite add_spec. unfold SF64add.
  destruct (Prim2SF a) as [s|s| |s m e], (Prim2SF w) as [s'|s'| |s' m' e'];
    cbn [SFadd]; intros H; split; auto; discriminate.
Qed.

Lemma nonneg_key w : ~ fnan w -> (w <? zero)%float = false -> (key_top <= fkey w)%Z.
Proof.
  intros N H. apply ltb_false_iff in H; auto using zero_not_nan.
Qed.

Lemma path_cost_pos es :
  (forall e, In e es -> (effective_weight e <? zero)%float = false) ->
  ~ fnan (path_cost es) -> (key_top <= fkey (path_cost es))%Z.
Proof.
  induction es as [|e es IH] using rev_ind; intros W N.
  - change (path_cost []) with zero. rewrite fkey_zero. lia.
  - rewrite path_cost_app in *.
    destruct (fnan_add _ _ N) as [N1 N2].
    assert (K : (key_top <= fkey (path_cost es))%Z).
    { apply IH; auto. intros x Hx. apply W. apply in_app_iff. now left. }
    assert (We : weight_ok (effective_weight e)).
    { apply nonneg_weight_ok. apply W. apply in_app_iff. right. now left. }
    pose proof (weight_ok_key _ _ We N1 K N). lia.
Qed.

(** No walk is cheaper than the distance, once no edge can be relaxed. *)
Lemma no_cheaper_walk g start (dist : dict float) :
  weights_valid g ->
  dict_get dist start = Some zero ->
  (forall k, dict_mem (adj g) k = true -> dict_mem dist k = true) ->
  (forall v d, dict_get dist v = Some d -> ~ fnan d /\ (key_top <= fkey d)%Z) ->
  (forall u e du dv,
      In e (nbrs g u) -> dict_get dist u = Some du ->
      dict_get dist (to_node e) = Some dv ->
      (du + effective_weight e <? dv)%float = false) ->
  forall es, walk g start es ->
  forall dv, dict_get dist (walk_end start es) = Some dv ->
             (path_cost es <? dv)%float = false.
Proof.
  intros W H0 Hk Hp Hc.
  assert (Wn : forall es, walk g start es ->
                 forall e, In e es -> (effective_weight e <? zero)%float = false).
  { induction es as [|x es IH] using rev_ind; intros Hw e He; [destruct He|].
    apply walk_app in Hw as [Hw1 [Hx _]].
    apply in_app_iff in He as [He|[<-|[]]]; auto.
    apply nbrs_In in Hx as (l & H1 & H2).
    apply effective_weight_nonneg. exact (W _ _ _ H1 H2). }
  induction es as [|e es IH] using rev_ind; intros Hw dv Hv.
  - unfold walk_end in Hv. cbn in Hv. rewrite H0 in Hv. inversion Hv; subst.
    reflexivity.
  - pose proof (Wn _ Hw) as We.
    apply walk_app in Hw as [Hw1 [He _]].
    rewrite walk_end_app in Hv. rewrite path_cost_app.
    set (u := walk_end start es) in *.
    assert (Hu : dict_mem dist u = true).
    { apply Hk. apply nbrs_In in He as (l & H1 & _). now apply In_dict_mem in H1. }
    apply dict_mem_true in Hu as [du Hu].
    specialize (IH Hw1 du Hu).
    destruct (path_cost es + effective_weight e <? dv)%float eqn:L; auto.
    exfalso. apply ltb_true_iff in L as (N & Ndv & L).
    destruct (fnan_add _ _ N) as [N1 N2].
    destruct (Hp _ _ Hu) as [Ndu Kdu].
    assert (Kpc : (key_top <= fkey (path_cost es))%Z).
    { apply path_cost_pos; auto. intros x Hx. apply We. apply in_app_iff. now left. }
    assert (Kw : (key_top <= fkey (effective_weight e))%Z).
    { apply nonneg_key; auto. apply We. apply in_app_iff. right. now left. }
    apply ltb_false_iff in IH; auto.
    destruct (add_mono du (path_cost es) (effective_weight e)) as [Ns Ks]; auto.
    pose proof (Hc u e du dv He Hu Hv) as C.
    apply ltb_false_iff in C; auto. lia.
Qed.

Lemma walk_end_known g start es :
  endpoints_known g -> dict_mem (adj g) start = true -> walk g start es ->
  dict_mem (adj g) (walk_end start es) = true.
Proof.
  intros K Hs. induction es as [|e es IH] using rev_ind; intros Hw; [exact Hs|].
  apply walk_app in Hw as [_ [He _]]. rewrite walk_end_app.
  now apply nbrs_known with (u := walk_end start es).
Qed.

(** The maps of [dijkstra] on a graph with valid weights: no walk from
    the start is cheaper than the distance of its end. *)
Lemma dijkstra_least g start dist prev :
  endpoints_known g -> weights_valid g -> dict_mem (adj g) start = true ->
  dbase g start (dist, prev, []) -> dgood g start (dist, prev, []) ->
  forall es, walk g start es ->
  exists d, dict_get dist (walk_end start es) = Some d
            /\ (path_cost es <? d)%float = false.
Proof.
  intros K W Hs B [[[ts T] J] [m S]] es Hw. cbn [fst snd] in *.
  pose proof (walk_end_known g start es K Hs Hw) as Hk.
  rewrite <- (db_keys _ _ _ B) in Hk. cbn [fst snd] in Hk.
  apply dict_mem_true in Hk as [d Hd]. exists d. split; [exact Hd|].
  apply (no_cheaper_walk g start dist W (ti_start _ _ _ _ T)); auto.
  - intros k Hk. pose proof (db_keys _ _ _ B k) as E. cbn [fst snd] in E. congruence.
  - intros v x Hx. exact (ti_pos _ _ _ _ T _ _ Hx).
  - intros u e du dv He Hu Hv.
    destruct (ds_pend _ _ _ S _ _ Hu) as [[]|C]. exact (C e dv He Hv).
Qed.

(** ** The searches return least costs *)

(** X18: on a graph with valid weights the cost that
    [shortest_path_dijkstra] returns is the least cost of a walk from
    [start] to [end]: it is the cost of the returned path (or [inf] with
    the empty path), and no walk along stored edges from [start] to [end]
    has a smaller sum of effective weights, the sums taken in binary64
    from [0.0] in path order. *)
Theorem X18_dijkstra_cost_is_least g start end_ :
  endpoints_known g -> weights_valid g -> dict_mem (adj g) start = true ->
  exists n r,
    (forall fuel, n <= fuel ->
                  shortest_path_dijkstra fuel start end_ g = (Ok r, g))
    /\ (r = ([], inf)
        \/ exists es,
             walk g start es /\ fst r = walk_nodes start es
             /\ walk_end start es = end_ /\ snd r = path_cost es)
    /\ forall es, walk g start es -> walk_end start es = end_ ->
                  (path_cost es <? snd r)%float = false.
Proof.
  intros K W Hs.
  destruct (dijkstra_final g start K (weights_valid_ok g W) Hs)
    as (dist & prev & _ & E & B & G).
  destruct (finish_p_cost g start end_ dist prev B G) as (n & r & R & F & D).
  exists (Nat.max (dijkstra_fuel g start) n), r. split; [|split].
  - intros fuel Hf. rewrite shortest_path_dijkstra_run. f_equal.
    unfold shortest_path_dijkstra_p. rewrite E by lia. cbn [res_bind].
    apply F. lia.
  - destruct R as [R|(es & R1 & R2 & R3 & R4 & _)]; [now left|].
    right. exists es. auto.
  - intros es Hw He.
    destruct (dijkstra_least g start dist prev K W Hs B G es Hw) as (d & Hd & L).
    rewrite He in Hd.
    destruct D as [D|[[-> D]|[D _]]].
    + apply dict_mem_false in D. congruence.
    + cbn [snd]. congruence.
    + congruence.
Qed.

Lemma X18_dijkstra_cost_is_least_witness :
  exists n r,
    (forall fuel, n <= fuel ->
                  shortest_path_dijkstra fuel "A" "Z" sample_graph
                  = (Ok r, sample_graph))
    /\ (r = ([], inf)
        \/ exists es,
             walk sample_graph "A" es /\ fst r = walk_nodes "A" es
             /\ walk_end "A" es = "Z" /\ snd r = path_cost es)
    /\ forall es, walk sample_graph "A" es -> walk_end "A" es = "Z" ->
                  (path_cost es <? snd r)%float = false.
Proof.
  apply (X18_dijkstra_cost_is_least sample_graph "A" "Z").
  - apply sample_graph_known.
  - apply sample_graph_valid.
  - reflexivity.
Defined.

Section AStarLeast.
Variable hypot : float -> float -> float.

(** X19: when the goal has no coordinates, the cost that [a_star] returns
    on a graph with valid weights is the least cost of a walk from [start]
    to [goal]: it is the cost of the returned path (or [inf] with the empty
    path), and no walk along stored edges from [start] to [goal] has a
    smaller sum of effective weights. *)
Theorem X19_a_star_without_coordinates_is_least g start goal :
  endpoints_known g -> weights_valid g ->
  dict_mem (adj g) start = true -> dict_mem (adj g) goal = true ->
  dict_get (coords g) goal = None ->
  exists n r,
    (forall fuel, n <= fuel -> a_star hypot fuel start goal g = (Ok r, g))
    /\ (r = ([], inf)
        \/ exists es,
             walk g start es /\ fst r = walk_nodes start es
             /\ walk_end start es = goal /\ snd r = path_cost es)
    /\ forall es, walk g start es -> walk_end start es = goal ->
                  (path_cost es <? snd r)%float = false.
Proof.
  intros K W Hs Hg Hc.
  assert (Hz : forall v, heur hypot g v goal = zero).
  { intros v. unfold heur. rewrite Hc. now destruct (dict_get (coords g) v) as [[x y]|]. }
  pose proof (weights_valid_ok g W) as W'.
  destruct (dijkstra_final g start K W' Hs) as (dist & prev & E0 & _ & B & G).
  destruct (a_star_zero hypot g start goal K W' Hz (dist, prev) _ Hs Hg E0)
    as (n & r & E & R & D).
  cbn [fst] in D. exists n, r. split; [|split].
  - intros fuel Hf. rewrite a_star_run. f_equal. now apply E.
  - destruct R as [R|(es & R1 & R2 & R3 & R4 & _)]; [now left|].
    right. exists es. auto.
  - intros es Hw He.
    destruct (dijkstra_least g start dist prev K W Hs B G es Hw) as (d & Hd & L).
    rewrite He in Hd.
    destruct D as [[-> D]|[D _]]; cbn [snd]; congruence.
Qed.

End AStarLeast.

Lemma X19_a_star_without_coordinates_is_least_witness :
  exists n r,
    (forall fuel, n <= fuel ->
       a_star hypot_sqrt fuel "A" "Z" sample_graph = (Ok r, sample_graph))
    /\ (r = ([], inf)
        \/ exists es,
             walk sample_graph "A" es /\ fst r = walk_nodes "A" es
             /\ walk_end "A" es = "Z" /\ snd r = path_cost es)
    /\ forall es, walk sample_graph "A" es -> walk_end "A" es = "Z" ->
                  (path_cost es <? snd r)%float = false.
Proof.
  apply (X19_a_star_without_coordinates_is_least hypot_sqrt sample_graph "A" "Z").
  - apply sample_graph_known.
  - apply sample_graph_valid.
  - reflexivity.
  - reflexivity.
  - reflexivity.
Defined.

(** ** [a_star] under any heuristic *)

Section AnyHeuristic.
Variable hypot : float -> float -> float.
Variables (g : Graph) (start goal : string).
Hypothesis K : endpoints_known g.
Hypothesis W : weights_valid g.

(** A score is untouched, or the cost of a walk from the start. *)
Definition gwalk (gs : dict float) : Prop :=
  forall v gv, dict_get gs v = Some gv ->
    gv = inf
    \/ exists es, walk g start es /\ walk_end start es = v /\ gv = path_cost es.

(** Along a link of [came_from] the score of the source plus the weight
    of the edge is at most the score of the target: the score of the
    source may have gone down since the link was set. *)
Definition slack (gs : dict float) (u v : string) (e : Edge) : Prop :=
  joined g u v e
  /\ exists gu gv,
       dict_get gs u = Some gu /\ dict_get gs v = Some gv
       /\ ~ fnan (gu + effective_weight e)%float
       /\ (fkey (gu + effective_weight e) <= fkey gv)%Z.

Definition aslack (cf : dict string) (gs : dict float) : Prop :=
  forall v u, dict_get cf v = Some u -> exists e, slack gs u v e.

(** A node is in the open set, or none of its edges can be relaxed. *)
Definition apend (op : list item) (gs : dict float) (v : string) : Prop :=
  forall gv, dict_get gs v = Some gv ->
    (exists f, In (f, v) op) \/ closed g gs v gv.

(** The goal is untouched, or in the open set. *)
Definition agoal (op : list item) (gs : dict float) : Prop :=
  dict_get gs goal = Some inf \/ exists f, In (f, goal) op.

Definition ainv (st : astate) : Prop :=
  atree g start st /\ gwalk (a_g st) /\ aslack (a_came st) (a_g st)
  /\ (forall v, apend (a_open st) (a_g st) v) /\ agoal (a_open st) (a_g st).

(** Within the turn for [u], whose score is [gc], after the edges [done]. *)
Definition amid (u : string) (gc : float) (done : list Edge) (st : astate) : Prop :=
  atree g start st /\ dict_get (a_g st) u = Some gc
  /\ (u = start \/ dict_mem (a_came st) u = true)
  /\ gwalk (a_g st) /\ aslack (a_came st) (a_g st)
  /\ (forall v, v <> u -> apend (a_open st) (a_g st) v)
  /\ (forall e gv, In e done -> dict_get (a_g st) (to_node e) = Some gv ->
                   (gc + effective_weight e <? gv)%float = false)
  /\ agoal (a_open st) (a_g st).

Lemma ltb_irrefl x : (x <? x)%float = false.
Proof.
  destruct (x <? x)%float eqn:E; auto. apply ltb_true_iff in E as (_ & _ & E). lia.
Qed.

Lemma nbrs_edge_key u e :
  In e (nbrs g u) -> ~ fnan (effective_weight e) ->
  (key_top <= fkey (effective_weight e))%Z.
Proof.
  intros He N. apply nonneg_key; auto. apply effective_weight_nonneg.
  destruct (nbrs_In g u e He) as (l & I1 & I2). exact (W _ _ _ I1 I2).
Qed.

Lemma relax_mid u gc done s e s' :
  amid u gc done s -> In e (nbrs g u) ->
  a_star_relax_p hypot g goal u s e = Ok s' -> amid u gc (done ++ [e]) s'.
Proof.
  intros (T & Hu & Pu & G & S & P & C & A) He H.
  destruct (a_star_relax_p_tree hypot g start goal u gc e s s'
              (weights_valid_ok g W) He (conj T (conj Hu Pu)) H) as (T' & Hu' & Pu').
  split; [exact T'|]. split; [exact Hu'|]. split; [exact Pu'|].
  clear T' Hu' Pu'.
  destruct s as [[[op cf] gs] fs]. unfold a_g, a_came, a_open in *.
  cbn [fst snd] in *.
  apply a_star_relax_p_cases in H as (gc' & gn & Hc & Hv & [[L ->]|[L ->]]);
    cbn [fst snd] in *; rewrite Hu in Hc; inversion Hc; subst gc'; clear Hc.
  2: { repeat split; auto. intros e' gv Hin Hgv.
       apply in_app_iff in Hin as [Hin|[<-|[]]]; auto.
       rewrite Hv in Hgv. inversion Hgv; subst. exact L. }
  pose proof L as L'. apply ltb_true_iff in L' as (Nt & Ngn & Lt).
  destruct T as [[ts Ti] J]. cbn [fst snd] in *.
  destruct (ti_pos _ _ _ _ Ti _ _ Hu) as [Ngc Kgc].
  assert (Wk : weight_ok (effective_weight e)).
  { apply weights_ok_nbrs with (g := g) (u := u); auto using weights_valid_ok. }
  pose proof (weight_ok_key _ gc Wk Ngc Kgc Nt) as Kt.
  assert (Nuv : to_node e <> u).
  { intros E. rewrite E in Hv. rewrite Hu in Hv. inversion Hv; subst. lia. }
  split; [|split; [|split; [|split]]].
  - intros x gx. rewrite dict_get_set.
    destruct (String.eqb_spec (to_node e) x) as [<-|N]; [|apply G].
    intros E; inversion E; subst gx. right.
    destruct (G u gc Hu) as [->|(es & H1 & H2 & H3)].
    + exfalso. rewrite fkey_inf in Kt. pose proof (fkey_range gn). lia.
    + exists (es ++ [e]). split; [|split].
      * apply walk_app. split; auto. rewrite H2. simpl. auto.
      * apply walk_end_app.
      * rewrite path_cost_app. now subst.
  - intros x p. rewrite dict_get_set.
    destruct (String.eqb_spec (to_node e) x) as [<-|Nx].
    + intros E; inversion E; subst p. exists e. split; [split; auto|].
      exists gc, (gc + effective_weight e)%float.
      rewrite dict_get_set_other by auto. rewrite dict_get_set_same.
      repeat split; auto. lia.
    + intros Hp. destruct (S x p Hp) as (e0 & [He0 Te0] & gp & gx & Hgp & Hgx & N0 & K0).
      exists e0. split; [split; auto|].
      rewrite (dict_get_set_other _ (to_node e) x) by auto.
      destruct (String.eqb_spec (to_node e) p) as [<-|Np].
      * rewrite Hv in Hgp. inversion Hgp; subst gp.
        exists (gc + effective_weight e)%float, gx. rewrite dict_get_set_same.
        split; [reflexivity|]. split; [exact Hgx|].
        destruct (fnan_add _ _ N0) as [_ Nw0].
        destruct (add_mono (gc + effective_weight e) gn (effective_weight e0))
          as [A1 A2]; auto; try lia.
        { now apply nbrs_edge_key with (u := to_node e). }
        split; auto. lia.
      * exists gp, gx. rewrite dict_get_set_other by auto. auto.
  - intros x Nx gx. rewrite dict_get_set.
    destruct (String.eqb_spec (to_node e) x) as [<-|Nvx].
    + intros _. left. eexists. apply heappush_In. left. reflexivity.
    + intros Hx. destruct (P x Nx gx Hx) as [[f0 Hf]|Cl].
      * left. exists f0. apply heappush_In. now right.
      * right. now apply closed_lower with (dv := gn).
  - intros e' gv Hin. rewrite dict_get_set.
    apply in_app_iff in Hin as [Hin|[<-|[]]].
    + destruct (String.eqb_spec (to_node e) (to_node e')) as [E|N].
      * intros Hg; inversion Hg; subst gv. rewrite E in Hv.
        pose proof (C e' gn Hin Hv) as C1.
        destruct (gc + effective_weight e' <? gc + effective_weight e)%float eqn:Q; auto.
        rewrite <- C1. symmetry.
        now apply ltb_trans with (y := (gc + effective_weight e)%float).
      * intros Hg. now apply C.
    + rewrite String.eqb_refl. intros Hg; inversion Hg. apply ltb_irrefl.
  - unfold agoal in *. destruct (String.eqb_spec (to_node e) goal) as [E|N].
    + right. eexists. apply heappush_In. left. rewrite E. reflexivity.
    + rewrite dict_get_set_other by auto.
      destruct A as [A|[f Hf]]; [now left|]. right. exists f.
      apply heappush_In. now right.
Qed.

Lemma astep_base op cf gs fs x op' st' :
  abase g start (op, cf, gs, fs) -> heappop op = Some (x, op') ->
  astep hypot g goal (snd x) (op', cf, gs, fs) = Ok st' -> abase g start st'.
Proof.
  intros B Hpop H.
  destruct (abase_pop _ _ _ _ _ _ _ _ B Hpop) as (B' & _ & Hk & _).
  destruct (fold_res_inv
              (fun s => abase g start s /\ (amu s <= amu (op', cf, gs, fs))%Z)
              (a_star_relax_p hypot g goal (snd x)) (nbrs g (snd x)))
    with (s := (op', cf, gs, fs)) as (st'' & E & B'' & _).
  { intros s e He Hs. now apply a_star_relax_p_base. }
  { split; [assumption|lia]. }
  unfold astep in H. rewrite E in H. now inversion H; subst.
Qed.

Lemma astep_inv op cf gs fs x op' st' :
  abase g start (op, cf, gs, fs) -> ainv (op, cf, gs, fs) ->
  heappop op = Some (x, op') -> snd x <> goal ->
  astep hypot g goal (snd x) (op', cf, gs, fs) = Ok st' -> ainv st'.
Proof.
  intros B (T & G & S & P & A) Hpop Ng H.
  destruct (abase_pop _ _ _ _ _ _ _ _ B Hpop) as (_ & _ & Hk & Hp).
  rewrite <- (ab_keys _ _ _ B) in Hk. unfold a_g, a_came, a_open in *.
  cbn [fst snd] in *.
  apply dict_mem_true in Hk as [gc Hgc].
  unfold astep in H.
  apply (fold_res_prefix (amid (snd x) gc)) in H.
  - destruct H as (T' & Hu' & Pu' & G' & S' & P' & C' & A').
    split; [exact T'|]. split; [exact G'|]. split; [exact S'|]. split; [|exact A'].
    intros v gv Hv. destruct (String.eqb_spec v (snd x)) as [->|N]; [|now apply P'].
    right. rewrite Hu' in Hv. inversion Hv; subst. intros e dv He Hd. now apply C'.
  - intros done e s s' HJ He Hr. now apply relax_mid with (s := s).
  - split; [exact T|]. unfold a_g, a_came, a_open. cbn [fst snd].
    split; [exact Hgc|]. split; [exact Hp|]. split; [exact G|]. split; [exact S|].
    split; [|split].
    + intros v N gv Hv. destruct (P v gv Hv) as [[f Hf]|Cl]; [left|now right].
      exists f. apply (heappop_In _ _ _ _ Hpop) in Hf as [Hf|Hf]; auto.
      subst x. simpl in N. contradiction.
    + intros e gv [].
    + destruct A as [A|[f Hf]]; [now left|]. right. exists f.
      apply (heappop_In _ _ _ _ Hpop) in Hf as [Hf|Hf]; auto.
      subst x. simpl in Ng. contradiction.
Qed.

Lemma ainit_inv :
  dict_mem (adj g) start = true -> dict_mem (adj g) goal = true ->
  ainv (ainit hypot g start goal).
Proof.
  intros Hs Hg. pose proof (ainit_tree hypot g start goal Hs) as T.
  split; [exact T|]. destruct T as [[ts Ti] _].
  unfold ainit, a_g, a_came, a_open in *. cbn [fst snd] in *.
  split; [|split; [|split]].
  - intros v gv. rewrite dict_get_set, dict_get_const.
    destruct (String.eqb_spec start v) as [<-|N].
    + intros E; inversion E. right. exists []. repeat split.
    + destruct (dict_mem (adj g) v); intros E; inversion E. now left.
  - intros v u. discriminate.
  - intros v gv Hv. destruct (String.eqb_spec start v) as [<-|N].
    + left. exists zero. apply heappush_In. now left.
    + right. rewrite dict_get_set_other in Hv by auto.
      rewrite dict_get_const in Hv.
      destruct (dict_mem (adj g) v); inversion Hv.
      apply closed_inf; auto using weights_valid_ok.
      intros x d Hx. exact (proj1 (ti_pos _ _ _ _ Ti _ _ Hx)).
  - unfold agoal. destruct (String.eqb_spec start goal) as [<-|N].
    + right. exists zero. apply heappush_In. now left.
    + left. rewrite dict_get_set_other by auto. rewrite dict_get_const.
      now rewrite Hg.
Qed.

(** The cost of the chain of predecessors is at most the score. *)
Lemma tchain_slack cf gs v es :
  dict_get gs start = Some zero ->
  tchain (slack gs) cf start v es ->
  exists gv, dict_get gs v = Some gv /\ ~ fnan (path_cost es)
             /\ (key_top <= fkey (path_cost es) <= fkey gv)%Z.
Proof.
  intros H0. induction 1 as [|v u e es Nv Hp [[He _] Hs] Hc IH].
  - exists zero. split; [exact H0|]. change (path_cost []) with zero.
    split; [apply zero_not_nan|]. rewrite fkey_zero. lia.
  - destruct IH as (gu & Hu & Nu & Ku).
    destruct Hs as (gu' & gv & Hu' & Hv & Ns & Ks).
    rewrite Hu in Hu'. inversion Hu'; subst gu'.
    exists gv. split; [exact Hv|]. rewrite path_cost_app.
    destruct (fnan_add _ _ Ns) as [Ngu Nw].
    pose proof (nbrs_edge_key u e He Nw) as Kw.
    destruct (add_mono (path_cost es) gu (effective_weight e)) as [A1 A2];
      auto; try lia.
    split; [exact A1|].
    assert (Wk : weight_ok (effective_weight e)).
    { apply weights_ok_nbrs with (g := g) (u := u); auto using weights_valid_ok. }
    pose proof (weight_ok_key _ (path_cost es) Wk Nu ltac:(lia) A1). lia.
Qed.

(** What [a_star] and [shortest_path_dijkstra] return for the same
    query. *)
Lemma a_star_bounds :
  dict_mem (adj g) start = true -> dict_mem (adj g) goal = true ->
  exists n ra rd,
    (forall fuel, n <= fuel ->
       a_star_p hypot g fuel start goal = Ok ra
       /\ shortest_path_dijkstra_p g fuel start goal = Ok rd)
    /\ (fst ra = [] <-> fst rd = [])
    /\ (snd ra <? snd rd)%float = false
    /\ (ra = ([], inf)
        \/ exists es,
             walk g start es /\ fst ra = walk_nodes start es
             /\ walk_end start es = goal
             /\ (path_cost es <? inf)%float = true
             /\ (snd ra <? path_cost es)%float = false
             /\ (path_cost es <? snd rd)%float = false).
Proof.
  intros Hs Hg. pose proof (weights_valid_ok g W) as W'.
  destruct (dijkstra_final g start K W' Hs) as (dist & prev & E0 & E & B & D).
  destruct (finish_p_cost g start goal dist prev B D) as (n1 & rd & Rd & Fd & Dd).
  assert (Ed : forall fuel, Nat.max (dijkstra_fuel g start) n1 <= fuel ->
                 shortest_path_dijkstra_p g fuel start goal = Ok rd).
  { intros fuel Hf. unfold shortest_path_dijkstra_p. rewrite E by lia.
    cbn [res_bind]. apply Fd. lia. }
  assert (Kg : dict_mem dist goal = true).
  { rewrite (db_keys _ _ _ B). exact Hg. }
  rewrite Kg in Dd.
  assert (U : forall fuel, a_star_p hypot g fuel start goal
                = aloop hypot g fuel fuel start goal (ainit hypot g start goal)).
  { intros fuel. unfold a_star_p. now rewrite Hs, Hg. }
  destruct (aloop_total hypot g start goal
              (fun st => abase g start st /\ ainv st) K) with
    (fuel := a_star_fuel hypot g start goal) (st := ainit hypot g start goal)
    as [H|H].
  { intros op cf gs fs x op' st' Ba [_ Ia] Hpop Ng Hst. split.
    - now apply astep_base with (1 := Ba) (2 := Hpop).
    - now apply astep_inv with (1 := Ba) (2 := Ia) (3 := Hpop). }
  { now apply ainit_base. }
  { split; [now apply ainit_base|now apply ainit_inv]. }
  { unfold a_star_fuel. pose proof (amu_nonneg (ainit hypot g start goal)). lia. }
  - destruct H as (cf & gs & fs & (Ba & T & G & S & P & A) & H).
    unfold a_g, a_came, a_open in *. cbn [fst snd] in *.
    assert (Hgi : dict_get gs goal = Some inf).
    { destruct A as [A|[f []]]. exact A. }
    assert (Rinf : rd = ([], inf)).
    { destruct Rd as [Rd|(es & R1 & R2 & R3 & R4 & R5 & R6)]; [exact Rd|].
      exfalso. destruct T as [[ts Ti] _]. cbn [fst snd] in *.
      assert (C : (path_cost es <? inf)%float = false).
      { apply (no_cheaper_walk g start gs W (ti_start _ _ _ _ Ti)) with (es := es);
          auto.
        - intros k Hk. pose proof (ab_keys _ _ _ Ba k) as Q.
          unfold a_g in Q. cbn [fst snd] in Q. congruence.
        - intros v d Hd. exact (ti_pos _ _ _ _ Ti _ _ Hd).
        - intros u e du dv He Hu Hv. destruct (P u du Hu) as [[f []]|C].
          exact (C e dv He Hv).
        - now rewrite R3. }
      rewrite <- R4 in C. congruence. }
    exists (Nat.max (a_star_fuel hypot g start goal)
                    (Nat.max (dijkstra_fuel g start) n1)), ([], inf), rd.
    split; [|subst rd; cbn [fst snd]; split; [tauto|split; [reflexivity|now left]]].
    intros fuel Hf. split; [|apply Ed; lia].
    rewrite U. rewrite <- (H fuel).
    apply aloop_mono; try lia. rewrite (H fuel). discriminate.
  - destruct H as (op & cf & gs & fs & f & op' & Ba & (_ & T & G & S & P & A)
                    & Hpop & H).
    destruct (abase_pop _ _ _ _ _ _ _ _ Ba Hpop) as (_ & _ & Hk & Hp).
    rewrite <- (ab_keys _ _ _ Ba) in Hk.
    unfold a_g, a_came, a_open in *. cbn [fst snd] in *.
    apply dict_mem_true in Hk as [gg Hgg].
    destruct T as [T J]. unfold a_g, a_came in T. cbn [fst snd] in T.
    destruct (tree_chain start gs cf (slack gs) T S goal Hp) as [es Hes].
    assert (HP : forall u v e, slack gs u v e -> to_node e = v)
      by (intros u v e [[_ E1] _]; exact E1).
    destruct T as [ts Ti].
    destruct (tchain_slack cf gs goal es (ti_start _ _ _ _ Ti) Hes)
      as (gg' & Hgg' & Npc & Kpc).
    rewrite Hgg in Hgg'. inversion Hgg'; subst gg'.
    destruct (ti_pos _ _ _ _ Ti _ _ Hgg) as [Ngg Pgg].
    assert (F : (fkey gg < 2 * key_top)%Z).
    { destruct Hp as [->|Hp].
      - rewrite (ti_start _ _ _ _ Ti) in Hgg. inversion Hgg; subst.
        rewrite fkey_zero. assert (0 < key_top)%Z by reflexivity. lia.
      - apply dict_mem_true in Hp as [u Hu].
        destruct (ti_edge _ _ _ _ Ti _ _ Hu) as (du & dv & _ & Hdv & F & _).
        rewrite Hgg in Hdv. inversion Hdv; subst. exact F. }
    destruct (G goal gg Hgg) as [->|(es' & W1 & W2 & W3)];
      [rewrite fkey_inf in F; lia|].
    destruct (dijkstra_least g start dist prev K W Hs B D es' W1) as (d & Hd & Ld).
    rewrite W2 in Hd. rewrite <- W3 in Ld.
    destruct (dijkstra_least g start dist prev K W Hs B D es
                (tchain_walk g _ _ _ _ _ (fun a b e Q => proj1 Q) Hes))
      as (d' & Hd' & Ld').
    rewrite (tchain_end _ _ _ _ _ HP Hes) in Hd'.
    rewrite Hd in Hd'. inversion Hd'; subst d'.
    assert (Nd : ~ fnan d).
    { destruct D as [[[ts' Td] _] _]. exact (proj1 (ti_pos _ _ _ _ Td _ _ Hd)). }
    destruct Dd as [Dd|[[-> Dd]|[Dd1 Dd2]]]; [discriminate| |].
    { exfalso. rewrite Hd in Dd. inversion Dd; subst d.
      apply ltb_false_iff in Ld; auto. rewrite fkey_inf in Ld. lia. }
    rewrite Hd in Dd1. inversion Dd1 as [Q].
    assert (R : forall rfuel, List.length es <= rfuel ->
              aloop hypot g (a_star_fuel hypot g start goal) rfuel start goal
                    (ainit hypot g start goal)
              = Ok (walk_nodes start es, gg)).
    { intros rfuel Hr. rewrite H.
      rewrite (tchain_reconstruct _ _ _ _ _ HP Hes) by lia.
      cbn [app res_bind]. unfold dict_item. rewrite Hgg. cbn [res_bind].
      now rewrite rev_involutive. }
    exists (Nat.max (Nat.max (a_star_fuel hypot g start goal) (List.length es))
                    (Nat.max (dijkstra_fuel g start) n1)),
           (walk_nodes start es, gg), rd.
    cbn [fst snd]. split; [|split; [|split]].
    + intros fuel Hf. split; [|apply Ed; lia].
      rewrite U. rewrite <- (R fuel) by lia.
      apply aloop_mono; try lia. rewrite (R fuel) by lia. discriminate.
    + split; [discriminate|]. intros Q1.
      apply (result_shape_iff _ _ _ _ (result_cost_shape _ _ _ _ Rd)) in Q1.
      rewrite Q1 in Dd2. vm_compute in Dd2. discriminate.
    + rewrite <- Q. exact Ld.
    + right. exists es.
      split; [apply (tchain_walk g _ _ _ _ _ (fun a b e Q0 => proj1 Q0) Hes)|].
      split; [reflexivity|].
      split; [apply (tchain_end _ _ _ _ _ HP Hes)|].
      split; [|split].
      * apply ltb_true_iff. rewrite fkey_inf. split; [exact Npc|].
        split; [apply inf_not_nan|lia].
      * apply ltb_false_iff; auto. lia.
      * rewrite <- Q. exact Ld'.
Qed.

(** X20: on a graph with valid weights, whatever the coordinates and
    whatever [math.hypot] computes, [a_star] and [shortest_path_dijkstra]
    both return, and [a_star] finds a path exactly when
    [shortest_path_dijkstra] does. The cost [a_star] reports is never
    below the one of [shortest_path_dijkstra]; the path it returns is a
    walk from [start] to [goal] whose weights add up to a finite cost that
    is at most the reported one and not below the one of
    [shortest_path_dijkstra]. *)
Theorem X20_a_star_under_any_heuristic :
  dict_mem (adj g) start = true -> dict_mem (adj g) goal = true ->
  exists n ra rd,
    (forall fuel, n <= fuel ->
       a_star hypot fuel start goal g = (Ok ra, g)
       /\ shortest_path_dijkstra fuel start goal g = (Ok rd, g))
    /\ (fst ra = [] <-> fst rd = [])
    /\ (snd ra <? snd rd)%float = false
    /\ (ra = ([], inf)
        \/ exists es,
             walk g start es /\ fst ra = walk_nodes start es
             /\ walk_end start es = goal
             /\ (path_cost es <? inf)%float = true
             /\ (snd ra <? path_cost es)%float = false
             /\ (path_cost es <? snd rd)%float = false).
Proof.
  intros Hs Hg. destruct (a_star_bounds Hs Hg) as (n & ra & rd & E & R).
  exists n, ra, rd. split; [|exact R].
  intros fuel Hf. destruct (E fuel Hf) as [Ea Ed].
  rewrite a_star_run, shortest_path_dijkstra_run. now rewrite Ea, Ed.
Qed.

End AnyHeuristic.

Lemma X20_a_star_under_any_heuristic_witness :
  exists n ra rd,
    (forall fuel, n <= fuel ->
       a_star hypot_sqrt fuel "A" "Z" sample_graph_coords
       = (Ok ra, sample_graph_coords)
       /\ shortest_path_dijkstra fuel "A" "Z" sample_graph_coords
          = (Ok rd, sample_graph_coords))
    /\ (fst ra = [] <-> fst rd = [])
    /\ (snd ra <? snd rd)%float = false
    /\ (ra = ([], inf)
        \/ exists es,
             walk sample_graph_coords "A" es /\ fst ra = walk_nodes "A" es
             /\ walk_end "A" es = "Z"
             /\ (path_cost es <? inf)%float = true
             /\ (snd ra <? path_cost es)%float = false
             /\ (path_cost es <? snd rd)%float = false).
Proof.
  apply (X20_a_star_under_any_heuristic hypot_sqrt sample_graph_coords "A" "Z").
  - apply sample_graph_coords_known.
  - apply sample_graph_coords_valid.
  - reflexivity.
  - reflexivity.
Defined.

(** ** A query from a node to itself *)

Lemma heappush_nil x : heappush [] x = [x].
Proof. reflexivity. Qed.

Lemma heappop_one x : heappop [x] = Some (x, []).
Proof. reflexivity. Qed.

Section SelfQuery.
Variable hypot : float -> float -> float.

(** X21: a query from a node to itself. [a_star] returns [([s], 0.0)] for
    every known node [s] at the first turn of its loop, whatever the edges
    and their weights; [shortest_path_dijkstra] returns the same on a
    graph with valid weights. *)
Theorem X21_query_from_a_node_to_itself g s :
  dict_mem (adj g) s = true ->
  (forall fuel, a_star hypot (S fuel) s s g = (Ok ([s], zero), g))
  /\ (endpoints_known g -> weights_valid g ->
      exists n, forall fuel, n <= fuel ->
        shortest_path_dijkstra fuel s s g = (Ok ([s], zero), g)).
Proof.
  intros Hs. split.
  - intros fuel. rewrite a_star_run. f_equal. unfold a_star_p. rewrite Hs.
    cbn [negb orb]. unfold ainit. rewrite heappush_nil. cbn [aloop].
    unfold heappop_res. rewrite heappop_one. cbn [res_bind].
    rewrite String.eqb_refl.
    assert (R : reconstruct_loop (S fuel) [] s s [] = Ok [s]).
    { cbn [reconstruct_loop]. now rewrite String.eqb_refl. }
    rewrite R. cbn [res_bind]. unfold dict_item.
    now rewrite dict_get_set_same.
  - intros K W.
    destruct (dijkstra_final g s K (weights_valid_ok g W) Hs)
      as (dist & prev & _ & E & B & [[[ts T] _] _]).
    cbn [fst snd] in T. pose proof (ti_start _ _ _ _ T) as H0.
    exists (dijkstra_fuel g s). intros fuel Hf.
    rewrite shortest_path_dijkstra_run. f_equal.
    unfold shortest_path_dijkstra_p. rewrite E by lia. cbn [res_bind].
    unfold finish_p, dict_mem, dict_item. rewrite H0. cbn [negb res_bind].
    change (zero =? inf)%float with false. cbv iota.
    assert (R : reconstruct_loop fuel prev s s [] = Ok [s]).
    { destruct fuel; cbn [reconstruct_loop]; now rewrite String.eqb_refl. }
    now rewrite R.
Qed.

End SelfQuery.

Lemma X21_query_from_a_node_to_itself_witness :
  (forall fuel,
      a_star hypot_sqrt (S fuel) "A" "A" sample_graph_coords
      = (Ok (["A"], zero), sample_graph_coords))
  /\ exists n, forall fuel, n <= fuel ->
       shortest_path_dijkstra fuel "A" "A" sample_graph_coords
       = (Ok (["A"], zero), sample_graph_coords).
Proof.
  destruct (X21_query_from_a_node_to_itself hypot_sqrt sample_graph_coords "A")
    as [H1 H2]; [reflexivity|].
  split; [exact H1|].
  apply H2; [apply sample_graph_coords_known|apply sample_graph_coords_valid].
Defined.

(** ** Queries on a loaded graph *)

Section LoadedGraph.
Variable hypot : float -> float -> float.

(** X22: a graph loaded into the empty one from tuples with a distance
    that is not negative and a congestion factor above zero answers
    every query between its nodes: the load succeeds, and then [a_star]
    and [shortest_path_dijkstra] both return, with the same cost, which
    is the sum of the weights along the path of [a_star] (or [inf] with
    the empty path) and is the least cost of a walk from [start] to
    [goal]. *)
Theorem X22_queries_on_a_loaded_graph l :
  Forall (fun '(u, v, d, t) =>
            exists fd ft, py_float d = Ok fd /\ py_float t = Ok ft
                          /\ (zero <=? fd)%float = true
                          /\ (zero <? ft)%float = true) l ->
  exists g,
    load_from_edge_list l Graph_init = (Ok tt, g)
    /\ forall start goal,
         dict_mem (adj g) start = true -> dict_mem (adj g) goal = true ->
         exists n r pd,
           (forall fuel, n <= fuel ->
              a_star hypot fuel start goal g = (Ok r, g)
              /\ shortest_path_dijkstra fuel start goal g = (Ok (pd, snd r), g))
           /\ (r = ([], inf)
               \/ exists es,
                    walk g start es /\ fst r = walk_nodes start es
                    /\ walk_end start es = goal /\ snd r = path_cost es)
           /\ forall es, walk g start es -> walk_end start es = goal ->
                         (path_cost es <? snd r)%float = false.
Proof.
  intros F.
  assert (F' : Forall (fun '(u, v, d, t) =>
                 exists fd ft, py_float d = Ok fd /\ py_float t = Ok ft) l).
  { revert F. apply Forall_impl.
    intros [[[u v] d] t] (fd & ft & H1 & H2 & _). eauto. }
  destruct (load_runs l Graph_init F') as (g & E & _ & C & _).
  assert (K : endpoints_known g).
  { pose proof (endpoints_known_load l Graph_init) as H. rewrite E in H.
    apply H. intros u es []. }
  assert (W : weights_valid g).
  { pose proof (weights_valid_load l Graph_init) as H. rewrite E in H.
    apply H; [intros u es e []|exact F]. }
  exists g. split; [exact E|]. intros start goal Hs Hg.
  assert (Hz : forall v, heur hypot g v goal = zero).
  { intros v. unfold heur. rewrite C. reflexivity. }
  pose proof (weights_valid_ok g W) as W'.
  destruct (dijkstra_final g start K W' Hs) as (dist & prev & E0 & Ed & B & G).
  destruct (finish_p_cost g start goal dist prev B G) as (n1 & rd & Rd & Fd & Dd).
  destruct (a_star_zero hypot g start goal K W' Hz (dist, prev) _ Hs Hg E0)
    as (n2 & r & Ea & R & D).
  cbn [fst] in D.
  assert (Hcost : snd rd = snd r).
  { destruct Dd as [Dd|[[-> Dd]|[Dd1 Dd2]]].
    - rewrite (db_keys _ _ _ B) in Dd. cbn [fst snd] in Dd. congruence.
    - destruct D as [[-> _]|[Da1 Da2]]; [reflexivity|].
      rewrite Dd in Da1. inversion Da1 as [I]. rewrite <- I in Da2.
      vm_compute in Da2. discriminate.
    - destruct D as [[-> Da]|[Da1 Da2]].
      + rewrite Da in Dd1. inversion Dd1 as [I]. rewrite <- I in Dd2.
        vm_compute in Dd2. discriminate.
      + congruence. }
  exists (Nat.max (Nat.max (dijkstra_fuel g start) n1) n2), r, (fst rd).
  split; [|split].
  - intros fuel Hf. split.
    + rewrite a_star_run. f_equal. apply Ea. lia.
    + rewrite shortest_path_dijkstra_run. f_equal. unfold shortest_path_dijkstra_p.
      rewrite Ed by lia. cbn [res_bind]. rewrite Fd by lia.
      rewrite <- Hcost. now destruct rd.
  - destruct R as [R|(es & R1 & R2 & R3 & R4 & _)]; [now left|].
    right. exists es. auto.
  - intros es Hw He.
    destruct (dijkstra_least g start dist prev K W Hs B G es Hw) as (d & Hd & L).
    rewrite He in Hd.
    destruct D as [[-> D]|[D _]]; cbn [snd]; congruence.
Qed.

End LoadedGraph.

Lemma X22_queries_on_a_loaded_graph_witness :
  exists g,
    load_from_edge_list get_sample_edges Graph_init = (Ok tt, g)
    /\ forall start goal,
         dict_mem (adj g) start = true -> dict_mem (adj g) goal = true ->
         exists n r pd,
           (forall fuel, n <= fuel ->
              a_star hypot_sqrt fuel start goal g = (Ok r, g)
              /\ shortest_path_dijkstra fuel start goal g = (Ok (pd, snd r), g))
           /\ (r = ([], inf)
               \/ exists es,
                    walk g start es /\ fst r = walk_nodes start es
                    /\ walk_end start es = goal /\ snd r = path_cost es)
           /\ forall es, walk g start es -> walk_end start es = goal ->
                         (path_cost es <? snd r)%float = false.
Proof.
  apply (X22_queries_on_a_loaded_graph hypot_sqrt get_sample_edges).
  repeat constructor; eexists; eexists; repeat split; reflexivity.
Defined.
